(** * Inverted Encoding Model: brainiak/reconstruct/iem.py

    A shallow embedding of the [InvertedEncoding] estimator and the
    verification of its specification.

    Conventions of the embedding.
    - NumPy's float64 values are idealised as real numbers ([R]); a division
      whose IEEE result is not finite is made explicit where the source can
      reach it ([score]).  Where rounding itself decides the outcome, the
      computation is also given on binary64 numbers ([rss_of64]).
    - A one-dimensional array is a [list R], a two-dimensional array the list
      of its rows.
    - The instance dictionary of the estimator is a finite map from attribute
      names to values, so that [setattr] with an arbitrary name is an insert.
    - Methods live in a state-and-exception monad over that dictionary.
    - scikit-learn's [LinearRegression] is not part of the repository; it is
      represented by the minimum-norm least-squares solution that
      [scipy.linalg.lstsq] returns in exact arithmetic. *)

From Stdlib Require Import Floats.
From Stdlib Require Import Reals Lra Lia ZArith List.
From stdpp Require Import base option list strings gmap.

Local Open Scope R_scope.

(** ** Arrays *)

Abbreviation vec := (list R).
Abbreviation matrix := (list (list R)).

(** An array argument as the methods receive it.  Arrays with three or more
    axes are only ever inspected through their shape. *)
Inductive ndarray : Type :=
| Arr0 (x : R)
| Arr1 (v : vec)
| Arr2 (m : matrix)
| ArrN (shape : list nat).

Definition nrows (m : matrix) : nat := length m.

Definition ncols (m : matrix) : nat :=
  match m with
  | [] => 0%nat
  | r :: _ => length r
  end.

(** Every row has the length of the first one, as in any NumPy array. *)
Definition rect (m : matrix) : Prop := Forall (fun r => length r = ncols m) m.

(** [np.shape].  A two-dimensional array without rows is given the shape
    (0, 0): both methods reject every array with no rows. *)
Definition np_shape (X : ndarray) : list nat :=
  match X with
  | Arr0 _ => []
  | Arr1 v => [length v]
  | Arr2 m => [nrows m; ncols m]
  | ArrN shape => shape
  end.

(** [np.size(X, axis)]; only called once the number of axes is known. *)
Definition np_size (X : ndarray) (axis : nat) : nat := nth axis (np_shape X) 0%nat.

Definition column (j : nat) (m : matrix) : vec := map (fun r => nth j r 0) m.

Definition transpose (m : matrix) : matrix :=
  map (fun j => column j m) (seq 0 (ncols m)).

(** [X.transpose()]: the axes are reversed. *)
Definition np_transpose (X : ndarray) : ndarray :=
  match X with
  | Arr0 x => Arr0 x
  | Arr1 v => Arr1 v
  | Arr2 m => Arr2 (transpose m)
  | ArrN shape => ArrN (rev shape)
  end.

(** [np.sum] of a one-dimensional array. *)
Definition Rsum (l : vec) : R := fold_right Rplus 0 l.

Definition dot (u v : vec) : R := Rsum (zip_with Rmult u v).

Definition matmul (A B : matrix) : matrix :=
  map (fun r => map (fun j => dot r (column j B)) (seq 0 (ncols B))) A.

(** [np.sum(m, 0)]: one sum per column. *)
Definition np_sum_axis0 (m : matrix) : vec :=
  map (fun j => Rsum (column j m)) (seq 0 (ncols m)).

(** [np.max] and the builtin [min] over a one-dimensional array.  Both raise
    on an empty argument; the only call site passes the [channel_density]
    column sums. *)
Definition np_max (l : vec) : R :=
  match l with
  | [] => 0
  | x :: t => fold_left Rmax t x
  end.

Definition py_min (l : vec) : R :=
  match l with
  | [] => 0
  | x :: t => fold_left Rmin t x
  end.

(** [np.argmin] and [np.argmax] scan left to right and keep the first
    extremum: the running best is replaced only by a strictly better value. *)
Fixpoint argmin_from (best : nat) (bv : R) (i : nat) (l : vec) : nat :=
  match l with
  | [] => best
  | x :: t =>
      if Rlt_dec x bv then argmin_from i x (S i) t
      else argmin_from best bv (S i) t
  end.

Definition np_argmin (l : vec) : option nat :=
  match l with
  | [] => None
  | x :: t => Some (argmin_from 0 x 1 t)
  end.

Fixpoint argmax_from (best : nat) (bv : R) (i : nat) (l : vec) : nat :=
  match l with
  | [] => best
  | x :: t =>
      if Rlt_dec bv x then argmax_from i x (S i) t
      else argmax_from best bv (S i) t
  end.

Definition np_argmax (l : vec) : option nat :=
  match l with
  | [] => None
  | x :: t => Some (argmax_from 0 x 1 t)
  end.

(** [np.linspace(start, stop, num)] with the default [endpoint=True]:
    [arange(num) * step + start] with [step = (stop - start) / (num - 1)],
    after which the last sample is overwritten by [stop] when [num > 1]. *)
Definition linspace (start stop : R) (num : nat) : vec :=
  let step := (stop - start) / INR (num - 1) in
  let y := map (fun i => INR i * step + start) (seq 0 num) in
  if (1 <? num)%nat then <[(num - 1)%nat := stop]> y else y.

Definition deg2rad (x : R) : R := x * (PI / 180).

(** Element-wise subtraction of two one-dimensional arrays with NumPy
    broadcasting: equal lengths, or one operand of length one. *)
Definition np_sub (u v : vec) : option vec :=
  if (length u =? length v)%nat then Some (zip_with Rminus u v)
  else match u, v with
       | [x], _ => Some (map (fun b => x - b) v)
       | _, [x] => Some (map (fun a => a - x) u)
       | _, _ => None
       end.

(** [np.mean] in exact arithmetic; [np_mean64] is its evaluation on binary64
    numbers. *)
Definition np_mean (l : vec) : R := Rsum l / INR (length l).

(** ** Floating-point results that need not be finite *)

Inductive xreal : Type :=
| Finite (r : R)
| NaN
| PInf
| NInf.

(** IEEE division [u / v] of two finite values: a zero divisor gives NaN or
    an infinity (NumPy warns and goes on). *)
Definition xdiv (u v : R) : xreal :=
  if Req_dec_T v 0 then
    if Req_dec_T u 0 then NaN
    else if Rlt_dec 0 u then PInf else NInf
  else Finite (u / v).

Definition xrsub (a : R) (x : xreal) : xreal :=
  match x with
  | Finite r => Finite (a - r)
  | NaN => NaN
  | PInf => NInf
  | NInf => PInf
  end.

(** ** Least squares (the external regression) *)

Fixpoint bigsum (n : nat) (f : nat -> R) : R :=
  match n with
  | O => 0
  | S k => bigsum k f + f k
  end.

(** Coefficients of the orthogonal projection of [b] on the span of the
    vectors [a 0 .. a (k-1)] of dimension [d] (Gram-Schmidt on the last
    vector). *)
Fixpoint proj_coef (d k : nat) (a : nat -> nat -> R) (b : nat -> R) : nat -> R :=
  match k with
  | O => fun _ => 0
  | S k' =>
      let wb := proj_coef d k' a b in
      let wa := proj_coef d k' a (a k') in
      let rb := fun i => b i - bigsum k' (fun j => wb j * a j i) in
      let ra := fun i => a k' i - bigsum k' (fun j => wa j * a j i) in
      let nn := bigsum d (fun i => ra i * ra i) in
      if Req_dec_T nn 0 then fun j => if (j =? k')%nat then 0 else wb j
      else
        let t := bigsum d (fun i => ra i * rb i) / nn in
        fun j => if (j =? k')%nat then t else wb j - t * wa j
  end.

Definition entry (A : matrix) (i j : nat) : R := nth j (nth i A []) 0.

(** [scipy.linalg.lstsq(A, b)[0]] for a one-dimensional [b]: a least-squares
    solution [w0], then its projection on the row space of [A], which is the
    solution of minimum norm. *)
Definition lstsq (A : matrix) (b : vec) : vec :=
  let m := nrows A in
  let n := ncols A in
  let w0 := proj_coef m n (fun j i => entry A i j) (fun i => nth i b 0) in
  let z := proj_coef n m (entry A) w0 in
  map (fun j => bigsum m (fun i => z i * entry A i j)) (seq 0 n).

(** Exceptions raised by the methods and by the libraries they call. *)
Inductive exn : Type :=
| ValueError (msg : string)
| AttributeError (name : string)
| TypeError
| IndexError.

Inductive outcome (A : Type) : Type :=
| Ok (a : A)
| Raise (e : exn).
Arguments Ok {A} a.
Arguments Raise {A} e.

(** [LinearRegression(fit_intercept=False, normalize=False).fit(A, B).coef_]
    for a two-dimensional [A].  Input validation rejects an [A] without
    samples or features, targets with three or more axes, two-dimensional
    targets without samples or columns, and a different number of samples in
    [A] and [B].
    Row [t] of [coef_] solves the least-squares problem for column [t] of
    [B].  One-dimensional targets never reach this call: both callers reject
    them beforehand. *)
Definition LinearRegression_fit (A : matrix) (B : ndarray) : outcome matrix :=
  match B with
  | Arr2 Bm =>
      if (nrows A =? 0)%nat || (ncols A =? 0)%nat then
        Raise (ValueError "Found array with 0 sample(s) or 0 feature(s)")
      else if (nrows Bm =? 0)%nat || (ncols Bm =? 0)%nat then
        Raise (ValueError "Found target array with 0 sample(s) or 0 feature(s)")
      else if negb (nrows Bm =? nrows A)%nat then
        Raise (ValueError "Found input variables with inconsistent numbers of samples")
      else Ok (map (fun t => lstsq A (column t Bm)) (seq 0 (ncols Bm)))
  | _ => Raise (ValueError "Found array with unsupported number of dimensions")
  end.

(** ** The estimator *)

(** Values held by instance attributes and keyword arguments. *)
Inductive pyval : Type :=
| PInt (z : Z)
| PFloat (r : R)
| PArr (a : ndarray)
| PLinReg (coef_ : matrix).

(** The instance dictionary. *)
Abbreviation estimator := (gmap string pyval).

(** Methods: a state-and-exception monad over the instance dictionary. *)
Definition M (A : Type) : Type := estimator -> outcome A * estimator.

Definition ret {A : Type} (a : A) : M A := fun self => (Ok a, self).

Definition raise {A : Type} (e : exn) : M A := fun self => (Raise e, self).

Definition bind {A B : Type} (m : M A) (k : A -> M B) : M B :=
  fun self =>
    match m self with
    | (Ok a, self') => k a self'
    | (Raise e, self') => (Raise e, self')
    end.

Notation "x <- m ;; k" := (bind m (fun x => k))
  (at level 20, m at level 99, k at level 200, only parsing).
Notation "' pat <- m ;; k" := (bind m (fun x => match x with pat => k end))
  (at level 20, pat pattern, m at level 99, k at level 200, only parsing).

Definition getattr (name : string) : M pyval :=
  fun self =>
    match self !! name with
    | Some v => (Ok v, self)
    | None => (Raise (AttributeError name), self)
    end.

Definition setattr (name : string) (v : pyval) : M unit :=
  fun self => (Ok tt, <[name := v]> self).

Definition lift {A : Type} (o : outcome A) : M A := fun self => (o, self).

Definition from_option {A : Type} (e : exn) (o : option A) : M A :=
  match o with
  | Some a => ret a
  | None => raise e
  end.

(** The attributes are read at their documented types: an integer number of
    channels, real range bounds (Python integers are accepted where a double
    is expected), arrays for the basis and its domain, a fitted regression
    for the weights.  Any other value ends in a [TypeError] at its first
    use. *)
Definition int_of (v : pyval) : option Z :=
  match v with
  | PInt z => Some z
  | _ => None
  end.

Definition real_of (v : pyval) : option R :=
  match v with
  | PInt z => Some (IZR z)
  | PFloat r => Some r
  | _ => None
  end.

Definition matrix_of (v : pyval) : option matrix :=
  match v with
  | PArr (Arr2 m) => Some m
  | _ => None
  end.

Definition vec_of (v : pyval) : option vec :=
  match v with
  | PArr (Arr1 l) => Some l
  | _ => None
  end.

Definition linreg_of (v : pyval) : option matrix :=
  match v with
  | PLinReg coef_ => Some coef_
  | _ => None
  end.

Definition as_int (v : pyval) : M Z := from_option TypeError (int_of v).
Definition as_real (v : pyval) : M R := from_option TypeError (real_of v).
Definition as_matrix (v : pyval) : M matrix := from_option TypeError (matrix_of v).
Definition as_vec (v : pyval) : M vec := from_option TypeError (vec_of v).
Definition as_linreg (v : pyval) : M matrix := from_option TypeError (linreg_of v).

Definition __init__ (n_channels range_start range_stop : pyval) : estimator :=
  <["range_stop" := range_stop]>
    (<["range_start" := range_start]> (<["n_channels" := n_channels]> ∅)).

(** The defaults of the constructor: [n_channels=5, range_start=0,
    range_stop=180]. *)
Definition default_estimator : estimator := __init__ (PInt 5) (PInt 0) (PInt 180).

Definition channel_exp : nat := 6.
Definition channel_density : nat := 180.

(** [_define_channels]; private, called by [fit] once [n_channels >= 2] is
    known. *)
Definition _define_channels : M (matrix * vec) :=
  vn <- getattr "n_channels" ;;
  n_channels <- as_int vn ;;
  let shifts := linspace 0 (PI - PI / IZR n_channels) (Z.to_nat n_channels) in
  v0 <- getattr "range_start" ;;
  range_start <- as_real v0 ;;
  v1 <- getattr "range_stop" ;;
  range_stop <- as_real v1 ;;
  let channel_domain := linspace range_start range_stop channel_density in
  let channels :=
    map (fun i =>
           map (fun s => cos (s - nth i shifts 0) ^ channel_exp)
               (linspace 0 PI channel_density))
        (seq 0 (Z.to_nat n_channels)) in
  let ch_sum_range :=
    np_max (np_sum_axis0 channels) - py_min (np_sum_axis0 channels) in
  if Rgt_dec ch_sum_range (deg2rad (range_stop - range_start) * 0.1) then
    raise (ValueError "Insufficient channel coverage.")
  else ret (channels, channel_domain).

(** The loop of [fit] that builds [F]: row [i_tr] is the column of the basis
    at the first sample nearest to [y[i_tr]]. *)
Definition channel_activations (C_ : matrix) (C_D_ : vec) (y : vec) : option matrix :=
  mapM (fun y_i =>
          k_min ← np_argmin (map (fun d => (y_i - d) ^ 2) C_D_);
          Some (column k_min C_))
       y.

Definition fit (X : ndarray) (y : vec) : M unit :=
  vn <- getattr "n_channels" ;;
  n_channels <- as_int vn ;;
  if (n_channels <? 2)%Z then raise (ValueError "Insufficient channels.") else
  let shape_data := np_shape X in
  let shape_labels := [length y] in
  if (length shape_data <? 2)%nat then raise (ValueError "Not enough data") else
  if (np_size X 0 <=? np_size X 1)%nat then
    raise (ValueError "Data Matrix ill-conditioned") else
  if negb (nth 0 shape_data 0 =? nth 0 shape_labels 0)%nat then
    raise (ValueError "Mismatched data samples and label samples") else
  '(C_, C_D_) <- _define_channels ;;
  _ <- setattr "C_" (PArr (Arr2 C_)) ;;
  _ <- setattr "C_D_" (PArr (Arr1 C_D_)) ;;
  F <- from_option (ValueError "attempt to get argmin of an empty sequence")
         (channel_activations C_ C_D_ y) ;;
  coef_ <- lift (LinearRegression_fit F X) ;;
  setattr "W_" (PLinReg coef_).

Definition _predict_channel_responses (X : ndarray) : M matrix :=
  vw <- getattr "W_" ;;
  coef_ <- as_linreg vw ;;
  lift (LinearRegression_fit coef_ (np_transpose X)).

(** [a.dot(b)] for two-dimensional arrays. *)
Definition np_dot (A B : matrix) : M matrix :=
  if (ncols A =? nrows B)%nat then ret (matmul A B)
  else raise (ValueError "shapes not aligned").

Definition _predict_directions (X : ndarray) : M matrix :=
  channel_response <- _predict_channel_responses X ;;
  vc <- getattr "C_" ;;
  C_ <- as_matrix vc ;;
  np_dot channel_response C_.

Definition predict (X : ndarray) : M vec :=
  let shape_data := np_shape X in
  if (length shape_data <? 2)%nat then raise (ValueError "Not enough data") else
  if (np_size X 0 <=? np_size X 1)%nat then
    raise (ValueError "Data Matrix ill-conditioned") else
  pred_response <- _predict_directions X ;;
  pred_indx <- from_option (ValueError "attempt to get argmax of an empty sequence")
                 (mapM np_argmax pred_response) ;;
  vd <- getattr "C_D_" ;;
  C_D_ <- as_vec vd ;;
  from_option IndexError (mapM (fun k => C_D_ !! k) pred_indx).

(** The statistic of [score] for given predictions. *)
Definition rss_of (y pred_dir : vec) : option xreal :=
  d ← np_sub y pred_dir;
  let u := Rsum (map (fun e => e ^ 2) d) in
  let v := Rsum (map (fun e => (e - np_mean y) ^ 2) y) in
  Some (xrsub 1 (xdiv u v)).

Definition score (X : ndarray) (y : vec) : M xreal :=
  pred_dir <- predict X ;;
  from_option (ValueError "operands could not be broadcast together")
    (rss_of y pred_dir).

(** *** The statistic of [score] on binary64 numbers

    Lines 190 to 192 of the source as NumPy evaluates them, for labels and
    predictions that are float64 arrays.  Whether the denominator is zero
    depends on the rounding of the mean, which the real numbers above cannot
    show. *)

(** [np.sum] of a one-dimensional float64 array: the elements are added
    from left to right, starting from zero.  NumPy adds fewer than eight
    elements in this plain loop; longer arrays are added pairwise. *)
Definition np_sum64 (l : list float) : float := fold_left PrimFloat.add l 0%float.

Definition float_of_nat (n : nat) : float :=
  PrimFloat.of_uint63 (Uint63.of_Z (Z.of_nat n)).

(** [np.mean]: the sum divided by the number of elements. *)
Definition np_mean64 (l : list float) : float :=
  (np_sum64 l / float_of_nat (length l))%float.

Definition np_sub64 (u v : list float) : option (list float) :=
  if (length u =? length v)%nat then Some (zip_with PrimFloat.sub u v)
  else match u, v with
       | [x], _ => Some (map (fun b => (x - b)%float) v)
       | _, [x] => Some (map (fun a => (a - x)%float) u)
       | _, _ => None
       end.

(** [x ** 2]: NumPy evaluates a power with exponent 2 as [x * x]. *)
Definition square64 (x : float) : float := (x * x)%float.

Definition rss_of64 (y pred_dir : list float) : option float :=
  d ← np_sub64 y pred_dir;
  let u := np_sum64 (map square64 d) in
  let v := np_sum64 (map (fun e => square64 (e - np_mean64 y)) y) in
  Some (1 - u / v)%float.

(** Neither a negative number nor minus infinity. *)
Definition sf_not_negative (x : spec_float) : Prop :=
  match x with
  | S754_infinity true | S754_finite true _ _ => False
  | _ => True
  end.

Definition get_params : M (list (string * pyval)) :=
  n_channels <- getattr "n_channels" ;;
  range_start <- getattr "range_start" ;;
  range_stop <- getattr "range_stop" ;;
  ret [("n_channels", n_channels); ("range_start", range_start);
       ("range_stop", range_stop)].

Fixpoint set_params (parameters : list (string * pyval)) : M unit :=
  match parameters with
  | [] => ret tt
  | (parameter, value) :: rest =>
      _ <- setattr parameter value ;; set_params rest
  end.

(** ** States of an estimator *)

(** The states an estimator can be in: built by the constructor, then changed
    by any sequence of method calls, successful or not. *)
Inductive reachable : estimator -> Prop :=
| reach_init n_channels range_start range_stop :
    reachable (__init__ n_channels range_start range_stop)
| reach_fit self X y :
    reachable self -> reachable (snd (fit X y self))
| reach_predict self X :
    reachable self -> reachable (snd (predict X self))
| reach_score self X y :
    reachable self -> reachable (snd (score X y self))
| reach_get_params self :
    reachable self -> reachable (snd (get_params self))
| reach_set_params self parameters :
    reachable self -> reachable (snd (set_params parameters self)).

Definition has_hyperparameters (self : estimator) : Prop :=
  is_Some (self !! "n_channels") /\ is_Some (self !! "range_start")
  /\ is_Some (self !! "range_stop").

(** A method call that only adds or overwrites attributes. *)
Definition grows {A : Type} (m : M A) : Prop :=
  forall self name, is_Some (self !! name) -> is_Some (snd (m self) !! name).

(** A method call that leaves the instance dictionary as it was. *)
Definition read_only {A : Type} (m : M A) : Prop :=
  forall self, snd (m self) = self.

(** ** Reference formulas of the specification *)

(** The basis as the specification writes it: channel [i] at sample [j] is
    [cos (s_j - shift_i) ^ 6], with 180 samples [s_j] running linearly from 0
    to pi and [shift_i = i * (pi - pi / n) / (n - 1)]. *)
Definition sample_point (j : nat) : R := INR j * PI / 179.

Definition shift (n : Z) (i : nat) : R :=
  INR i * (PI - PI / IZR n) / (IZR n - 1).

Definition basis (n : Z) : matrix :=
  map (fun i => map (fun j => cos (sample_point j - shift n i) ^ 6) (seq 0 180))
      (seq 0 (Z.to_nat n)).

(** The 180 evenly spaced values from [a] to [b]. *)
Definition domain (a b : R) : vec :=
  map (fun j => a + INR j * (b - a) / 179) (seq 0 180).

(** [k] is the position of the first minimum of [l]. *)
Definition first_argmin (l : list R) (k : nat) : Prop :=
  exists v, l !! k = Some v /\
            (forall j w, l !! j = Some w -> v <= w) /\
            (forall j w, (j < k)%nat -> l !! j = Some w -> v < w).

(** [k] is the position of the first maximum of [l]. *)
Definition first_argmax (l : list R) (k : nat) : Prop :=
  exists v, l !! k = Some v /\
            (forall j w, l !! j = Some w -> w <= v) /\
            (forall j w, (j < k)%nat -> l !! j = Some w -> w < v).

(** The hyperparameters of [self] are the integer [n] and the reals [a] and
    [b]. *)
Definition configured (self : estimator) (n : Z) (a b : R) : Prop :=
  self !! "n_channels" = Some (PInt n) /\
  (exists v, self !! "range_start" = Some v /\ real_of v = Some a) /\
  (exists v, self !! "range_stop" = Some v /\ real_of v = Some b).

(** The quantity the coverage check compares with its threshold. *)
Definition ch_sum_range (n : Z) : R :=
  np_max (np_sum_axis0 (basis n)) - py_min (np_sum_axis0 (basis n)).

(** The attributes that [fit] stores. *)
Definition fitted (self : estimator) (C_ : matrix) (C_D_ : vec) (coef_ : matrix) : Prop :=
  self !! "C_" = Some (PArr (Arr2 C_)) /\
  self !! "C_D_" = Some (PArr (Arr1 C_D_)) /\
  self !! "W_" = Some (PLinReg coef_).

(** The decoding step of [predict] on the response curves: the index of the
    first maximum of each curve, looked up in the domain. *)
Definition decode (pred_response : matrix) (C_D_ : vec) : M vec :=
  pred_indx <- from_option (ValueError "attempt to get argmax of an empty sequence")
                 (mapM np_argmax pred_response) ;;
  from_option IndexError (mapM (fun k => C_D_ !! k) pred_indx).

(** ** The contract of the least-squares solver *)

Definition matvec (A : matrix) (w : vec) : vec := map (fun r => dot r w) A.

(** Residual sum of squares of [w] for the system [A w = b]. *)
Definition rss (A : matrix) (b w : vec) : R :=
  Rsum (map (fun e => e ^ 2) (zip_with Rminus (matvec A w) b)).

Definition norm2 (w : vec) : R := dot w w.

(** [w] is the least-squares solution of minimum norm. *)
Definition is_lstsq (A : matrix) (b w : vec) : Prop :=
  length w = ncols A /\
  (forall w', length w' = ncols A -> rss A b w <= rss A b w') /\
  (forall w', length w' = ncols A -> rss A b w' <= rss A b w -> norm2 w <= norm2 w').

(** Vectors as functions of the index, for the algebra of the solver. *)
Definition vdot (d : nat) (u v : nat -> R) : R := bigsum d (fun i => u i * v i).

(** The linear combination of [a 0 .. a (k-1)] with coefficients [w]. *)
Definition lin (k : nat) (w : nat -> R) (a : nat -> nat -> R) : nat -> R :=
  fun i => bigsum k (fun j => w j * a j i).

(** What is left of [b] after its projection on [a 0 .. a (k-1)]. *)
Definition resid (d k : nat) (a : nat -> nat -> R) (b : nat -> R) : nat -> R :=
  fun i => b i - lin k (proj_coef d k a b) a i.

(** The product of the matrix with entries [a i j] ([n] columns) and [w]. *)
Definition mv (n : nat) (a : nat -> nat -> R) (w : nat -> R) : nat -> R :=
  fun i => vdot n (a i) w.

(** The solver on functions: a least-squares solution, and the minimum-norm
    one. *)
Definition ls_any (m n : nat) (a : nat -> nat -> R) (b : nat -> R) : nat -> R :=
  proj_coef m n (fun j i => a i j) b.

Definition ls_min (m n : nat) (a : nat -> nat -> R) (b : nat -> R) : nat -> R :=
  lin m (proj_coef n m a (ls_any m n a b)) a.

(** Residual sum of squares on functions. *)
Definition rssf (m n : nat) (a : nat -> nat -> R) (b w : nat -> R) : R :=
  bigsum m (fun i => (mv n a w i - b i) ^ 2).

Definition identity_matrix (n : nat) : matrix :=
  map (fun i => map (fun j => if (i =? j)%nat then 1 else 0) (seq 0 n)) (seq 0 n).

(** The coefficients of the power reduction
    [cos x ^ 6 = 10/32 + 15/32 cos 2x + 6/32 cos 4x + 1/32 cos 6x]. *)
Definition cos6_coef (p : nat) : R :=
  match p with
  | 0%nat => 10 / 32
  | 1%nat => 15 / 32
  | 2%nat => 6 / 32
  | 3%nat => 1 / 32
  | _ => 0
  end.

(** 1 when [n] divides [m], 0 otherwise. *)
Definition divides_ind (n : nat) (m : Z) : R :=
  if (m mod Z.of_nat n =? 0)%Z then 1 else 0.

(** ** Notions for the further properties *)

(** A method call that leaves every attribute outside [names] as it was. *)
Definition writes_only {A : Type} (names : list string) (m : M A) : Prop :=
  forall self name, name ∉ names -> snd (m self) !! name = self !! name.

(** A method call whose outcome depends on the attributes in [names] only. *)
Definition reads_only {A : Type} (names : list string) (m : M A) : Prop :=
  forall s1 s2 : estimator,
    (forall name, name ∈ names -> s1 !! name = s2 !! name) ->
    fst (m s1) = fst (m s2).

(** The attributes that [fit] assigns. *)
Definition fitted_attributes : list string := ["C_"; "C_D_"; "W_"].

(** [np.zeros((t, u))]. *)
Definition np_zeros (t u : nat) : matrix := repeat (repeat 0 u) t.

(** The sample of the domain that [fit] assigns to a label: the one at the
    first minimum of the squared distances. *)
Definition nearest_domain_value (C_D_ : vec) (y_i : R) : option R :=
  k ← np_argmin (map (fun d => (y_i - d) ^ 2) C_D_);
  C_D_ !! k.

(** * Verification *)

(** ** The monad *)

Lemma bind_Ok_inv {A B : Type} (m : M A) (k : A -> M B) self b self' :
  bind m k self = (Ok b, self') ->
  exists a self1, m self = (Ok a, self1) /\ k a self1 = (Ok b, self').
Proof.
  unfold bind. destruct (m self) as [[a|e] self1]; intros H.
  - exists a, self1. split; [reflexivity|exact H].
  - discriminate H.
Qed.

Lemma bind_Ok {A B : Type} (m : M A) (k : A -> M B) self a self1 :
  m self = (Ok a, self1) -> bind m k self = k a self1.
Proof. intros H. unfold bind. rewrite H. reflexivity. Qed.

Lemma bind_Raise {A B : Type} (m : M A) (k : A -> M B) self e self1 :
  m self = (Raise e, self1) -> bind m k self = (Raise e, self1).
Proof. intros H. unfold bind. rewrite H. reflexivity. Qed.

Lemma getattr_Some self name v :
  self !! name = Some v -> getattr name self = (Ok v, self).
Proof. intros H. unfold getattr. rewrite H. reflexivity. Qed.

Lemma getattr_None self name :
  self !! name = None -> getattr name self = (Raise (AttributeError name), self).
Proof. intros H. unfold getattr. rewrite H. reflexivity. Qed.

Lemma from_option_Some {A : Type} e (o : option A) a self :
  o = Some a -> from_option e o self = (Ok a, self).
Proof. intros ->. reflexivity. Qed.

Lemma from_option_None {A : Type} e (o : option A) self :
  o = None -> from_option e o self = (Raise e, self).
Proof. intros ->. reflexivity. Qed.

Lemma from_option_Ok_inv {A : Type} e (o : option A) a self self' :
  from_option e o self = (Ok a, self') -> o = Some a /\ self' = self.
Proof. destruct o; unfold from_option, ret, raise; intros H; inversion H; auto. Qed.

Lemma getattr_Ok_inv name v self self' :
  getattr name self = (Ok v, self') -> self !! name = Some v /\ self' = self.
Proof.
  unfold getattr. destruct (self !! name); intros H; inversion H; auto.
Qed.

(** Run the first action of a sequence whose result is known. *)
Ltac run H := erewrite bind_Ok by (exact H); cbv beta.

Lemma read_only_ret {A : Type} (a : A) : read_only (ret a).
Proof. intros self. reflexivity. Qed.

Lemma read_only_raise {A : Type} (e : exn) : read_only (@raise A e).
Proof. intros self. reflexivity. Qed.

Lemma read_only_lift {A : Type} (o : outcome A) : read_only (lift o).
Proof. intros self. reflexivity. Qed.

Lemma read_only_from_option {A : Type} e (o : option A) : read_only (from_option e o).
Proof. intros self. destruct o; reflexivity. Qed.

Lemma read_only_getattr name : read_only (getattr name).
Proof. intros self. unfold getattr. destruct (self !! name); reflexivity. Qed.

Lemma read_only_bind {A B : Type} (m : M A) (k : A -> M B) :
  read_only m -> (forall a, read_only (k a)) -> read_only (bind m k).
Proof.
  intros Hm Hk self. unfold bind. specialize (Hm self).
  destruct (m self) as [[a|e] self1]; simpl in Hm; subst self1.
  - apply Hk.
  - reflexivity.
Qed.

Lemma read_only_as_int v : read_only (as_int v).
Proof. apply read_only_from_option. Qed.

Lemma read_only_as_real v : read_only (as_real v).
Proof. apply read_only_from_option. Qed.

Lemma read_only_as_matrix v : read_only (as_matrix v).
Proof. apply read_only_from_option. Qed.

Lemma read_only_as_vec v : read_only (as_vec v).
Proof. apply read_only_from_option. Qed.

Lemma read_only_as_linreg v : read_only (as_linreg v).
Proof. apply read_only_from_option. Qed.

Lemma read_only_if {A : Type} (c : bool) (m1 m2 : M A) :
  read_only m1 -> read_only m2 -> read_only (if c then m1 else m2).
Proof. destruct c; auto. Qed.

Create HintDb ro discriminated.
#[local] Hint Resolve read_only_ret read_only_raise read_only_lift
  read_only_from_option read_only_getattr read_only_as_int read_only_as_real
  read_only_as_matrix read_only_as_vec read_only_as_linreg : ro.

Ltac read_only_tac :=
  repeat first
    [ apply read_only_bind; [|intros ?]
    | apply read_only_if
    | solve [auto with ro]
    | match goal with |- read_only (match ?x with _ => _ end) => destruct x end ].

Lemma read_only_define_channels : read_only _define_channels.
Proof. unfold _define_channels. read_only_tac. Qed.

Lemma read_only_np_dot A B : read_only (np_dot A B).
Proof. unfold np_dot. read_only_tac. Qed.

Lemma read_only_predict_channel_responses X : read_only (_predict_channel_responses X).
Proof. unfold _predict_channel_responses. read_only_tac. Qed.

Lemma read_only_predict_directions X : read_only (_predict_directions X).
Proof.
  unfold _predict_directions.
  apply read_only_bind; [apply read_only_predict_channel_responses|intros ?].
  read_only_tac.
Qed.

Lemma read_only_predict X : read_only (predict X).
Proof.
  unfold predict. repeat apply read_only_if; auto with ro.
  apply read_only_bind; [apply read_only_predict_directions|intros ?].
  read_only_tac.
Qed.

Lemma read_only_score X y : read_only (score X y).
Proof.
  unfold score. apply read_only_bind; [apply read_only_predict|intros ?].
  auto with ro.
Qed.

Lemma read_only_get_params : read_only get_params.
Proof. unfold get_params. read_only_tac. Qed.

Lemma grows_read_only {A : Type} (m : M A) : read_only m -> grows m.
Proof. intros H self name Hs. rewrite H. exact Hs. Qed.

Lemma grows_setattr name v : grows (setattr name v).
Proof.
  intros self k Hs. unfold setattr. simpl.
  destruct (decide (name = k)) as [->|Hne].
  - rewrite lookup_insert_eq. eauto.
  - rewrite lookup_insert_ne by exact Hne. exact Hs.
Qed.

Lemma grows_bind {A B : Type} (m : M A) (k : A -> M B) :
  grows m -> (forall a, grows (k a)) -> grows (bind m k).
Proof.
  intros Hm Hk self name Hs. unfold bind. specialize (Hm self name Hs).
  destruct (m self) as [[a|e] self1]; simpl in Hm.
  - apply Hk. exact Hm.
  - exact Hm.
Qed.

Lemma grows_if {A : Type} (c : bool) (m1 m2 : M A) :
  grows m1 -> grows m2 -> grows (if c then m1 else m2).
Proof. destruct c; auto. Qed.

Lemma grows_fit X y : grows (fit X y).
Proof.
  unfold fit.
  apply grows_bind; [apply grows_read_only, read_only_getattr|intros vn].
  apply grows_bind; [apply grows_read_only, read_only_as_int|intros n].
  repeat (apply grows_if; [apply grows_read_only, read_only_raise|]).
  apply grows_bind; [apply grows_read_only, read_only_define_channels|intros [C CD]].
  apply grows_bind; [apply grows_setattr|intros _].
  apply grows_bind; [apply grows_setattr|intros _].
  apply grows_bind; [apply grows_read_only, read_only_from_option|intros F].
  apply grows_bind; [apply grows_read_only, read_only_lift|intros coef].
  apply grows_setattr.
Qed.

Lemma grows_set_params parameters : grows (set_params parameters).
Proof.
  induction parameters as [|[p v] rest IH]; simpl.
  - apply grows_read_only, read_only_ret.
  - apply grows_bind; [apply grows_setattr|intros _; exact IH].
Qed.

(** The three hyperparameters are attributes of every estimator. *)
Lemma reachable_has_hyperparameters self :
  reachable self -> has_hyperparameters self.
Proof.
  induction 1 as [n a b|self X y _ IH|self X _ IH|self X y _ IH|self _ IH
                 |self parameters _ IH].
  - unfold has_hyperparameters, __init__. repeat split; simplify_map_eq; eauto.
  - destruct IH as (H1 & H2 & H3). repeat split; apply grows_fit; assumption.
  - rewrite read_only_predict. exact IH.
  - rewrite read_only_score. exact IH.
  - rewrite read_only_get_params. exact IH.
  - destruct IH as (H1 & H2 & H3).
    repeat split; apply grows_set_params; assumption.
Qed.

(** ** Parameter accessors *)

Lemma get_params_defined self :
  has_hyperparameters self ->
  exists v1 v2 v3,
    self !! "n_channels" = Some v1 /\ self !! "range_start" = Some v2 /\
    self !! "range_stop" = Some v3 /\
    get_params self =
      (Ok [("n_channels", v1); ("range_start", v2); ("range_stop", v3)], self).
Proof.
  intros ([v1 H1] & [v2 H2] & [v3 H3]). exists v1, v2, v3.
  repeat split; try assumption.
  unfold get_params, bind, getattr, ret. rewrite H1, H2, H3. reflexivity.
Qed.

(** C8: on every estimator state, [get_params] succeeds with a mapping over
    exactly the three hyperparameter names, passing that mapping to
    [set_params] leaves the whole instance dictionary as it was, and a second
    [get_params] returns the same mapping. *)
Theorem set_params_get_params_noop (self : estimator) :
  reachable self ->
  exists params,
    get_params self = (Ok params, self) /\
    map fst params = ["n_channels"; "range_start"; "range_stop"] /\
    set_params params self = (Ok tt, self) /\
    get_params (snd (set_params params self)) = (Ok params, self).
Proof.
  intros Hr. apply reachable_has_hyperparameters in Hr.
  destruct (get_params_defined self Hr) as (v1 & v2 & v3 & H1 & H2 & H3 & Hg).
  eexists. split; [exact Hg|]. split; [reflexivity|].
  assert (Hs : set_params
                 [("n_channels", v1); ("range_start", v2); ("range_stop", v3)] self
               = (Ok tt, self)).
  { simpl. unfold bind, setattr, ret.
    rewrite (insert_id self "n_channels" v1 H1).
    rewrite (insert_id self "range_start" v2 H2).
    rewrite (insert_id self "range_stop" v3 H3). reflexivity. }
  split; [exact Hs|]. rewrite Hs. exact Hg.
Qed.

Lemma set_params_get_params_noop_default :
  exists params,
    get_params default_estimator = (Ok params, default_estimator) /\
    map fst params = ["n_channels"; "range_start"; "range_stop"] /\
    set_params params default_estimator = (Ok tt, default_estimator) /\
    get_params (snd (set_params params default_estimator))
      = (Ok params, default_estimator).
Proof.
  apply (set_params_get_params_noop default_estimator).
  apply reach_init.
Defined.

(** ** Input validation of [fit] *)

Lemma fit_unfold self X y n :
  self !! "n_channels" = Some (PInt n) ->
  fit X y self =
    if (n <? 2)%Z then (Raise (ValueError "Insufficient channels."), self)
    else if (length (np_shape X) <? 2)%nat then
      (Raise (ValueError "Not enough data"), self)
    else if (np_size X 0 <=? np_size X 1)%nat then
      (Raise (ValueError "Data Matrix ill-conditioned"), self)
    else if negb (np_size X 0 =? length y)%nat then
      (Raise (ValueError "Mismatched data samples and label samples"), self)
    else
      match _define_channels self with
      | (Ok (C_, C_D_), _) =>
          let self1 := <["C_D_" := PArr (Arr1 C_D_)]>
                         (<["C_" := PArr (Arr2 C_)]> self) in
          match channel_activations C_ C_D_ y with
          | Some F =>
              match LinearRegression_fit F X with
              | Ok coef_ => (Ok tt, <["W_" := PLinReg coef_]> self1)
              | Raise e => (Raise e, self1)
              end
          | None =>
              (Raise (ValueError "attempt to get argmin of an empty sequence"),
               self1)
          end
      | (Raise e, _) => (Raise e, self)
      end.
Proof.
  intros Hn. unfold fit, bind at 1, getattr. rewrite Hn.
  unfold bind at 1, as_int, from_option, int_of, ret.
  destruct (n <? 2)%Z; [reflexivity|].
  destruct (length (np_shape X) <? 2)%nat; [reflexivity|].
  destruct (np_size X 0 <=? np_size X 1)%nat; [reflexivity|].
  unfold np_size at 1. simpl (nth 0 [length y] 0%nat).
  fold (np_size X 0).
  destruct (negb (np_size X 0 =? length y)%nat); [reflexivity|].
  unfold bind at 1.
  pose proof (read_only_define_channels self) as Hro.
  destruct (_define_channels self) as [[[C CD]|e] self0]; simpl in Hro; subst self0;
    [|reflexivity].
  unfold bind, setattr, from_option, lift, ret, raise.
  destruct (channel_activations C CD y) as [F|]; [|reflexivity].
  destruct (LinearRegression_fit F X); reflexivity.
Qed.

(** C3: the four input checks of [fit] are made in the order n_channels,
    number of axes of X, n_trials > n_units, n_trials = len(y); the first one
    that fails decides the error, and the instance dictionary after the
    failed call is the one before it. *)
Theorem fit_validation_order (self : estimator) (X : ndarray) (y : vec) (n : Z) :
  self !! "n_channels" = Some (PInt n) ->
  ((n < 2)%Z ->
   fit X y self = (Raise (ValueError "Insufficient channels."), self)) /\
  ((2 <= n)%Z -> (length (np_shape X) < 2)%nat ->
   fit X y self = (Raise (ValueError "Not enough data"), self)) /\
  ((2 <= n)%Z -> (2 <= length (np_shape X))%nat ->
   (np_size X 0 <= np_size X 1)%nat ->
   fit X y self = (Raise (ValueError "Data Matrix ill-conditioned"), self)) /\
  ((2 <= n)%Z -> (2 <= length (np_shape X))%nat ->
   (np_size X 1 < np_size X 0)%nat -> np_size X 0 <> length y ->
   fit X y self =
     (Raise (ValueError "Mismatched data samples and label samples"), self)).
Proof.
  intros Hn. rewrite (fit_unfold self X y n Hn).
  repeat split.
  - intros H. apply Z.ltb_lt in H. rewrite H. reflexivity.
  - intros H1 H2. apply Z.ltb_ge in H1. apply Nat.ltb_lt in H2.
    rewrite H1, H2. reflexivity.
  - intros H1 H2 H3. apply Z.ltb_ge in H1. apply Nat.ltb_ge in H2.
    apply Nat.leb_le in H3. rewrite H1, H2, H3. reflexivity.
  - intros H1 H2 H3 H4. apply Z.ltb_ge in H1. apply Nat.ltb_ge in H2.
    apply Nat.leb_gt in H3. apply Nat.eqb_neq in H4.
    rewrite H1, H2, H3, H4. reflexivity.
Qed.

Lemma fit_validation_order_examples :
  fit (Arr2 [[1]; [2]]) [0; 0] (__init__ (PInt 1) (PInt 0) (PInt 180))
    = (Raise (ValueError "Insufficient channels."),
       __init__ (PInt 1) (PInt 0) (PInt 180)) /\
  fit (Arr1 [1; 2]) [0; 0] default_estimator
    = (Raise (ValueError "Not enough data"), default_estimator) /\
  fit (Arr2 [[1; 2]; [3; 4]]) [0; 0] default_estimator
    = (Raise (ValueError "Data Matrix ill-conditioned"), default_estimator) /\
  fit (Arr2 [[1]; [2]]) [0; 0; 0] default_estimator
    = (Raise (ValueError "Mismatched data samples and label samples"),
       default_estimator).
Proof.
  split; [|split; [|split]].
  - apply (fit_validation_order (__init__ (PInt 1) (PInt 0) (PInt 180))
             (Arr2 [[1]; [2]]) [0; 0] 1 eq_refl). lia.
  - apply (fit_validation_order default_estimator (Arr1 [1; 2]) [0; 0] 5 eq_refl);
      simpl; lia.
  - apply (fit_validation_order default_estimator (Arr2 [[1; 2]; [3; 4]]) [0; 0] 5
             eq_refl); unfold np_size; simpl; lia.
  - apply (fit_validation_order default_estimator (Arr2 [[1]; [2]]) [0; 0; 0] 5
             eq_refl); unfold np_size; simpl; lia.
Defined.

(** ** Lists and sums *)

Lemma nth_map_seq (f : nat -> R) n i :
  (i < n)%nat -> nth i (map f (seq 0 n)) 0 = f i.
Proof.
  intros Hi. rewrite (nth_indep _ 0 (f 0%nat)) by (rewrite length_map, length_seq; lia).
  rewrite map_nth. f_equal. apply seq_nth. exact Hi.
Qed.

Lemma lookup_map_seq {A : Type} (f : nat -> A) n i :
  (i < n)%nat -> map f (seq 0 n) !! i = Some (f i).
Proof.
  intros Hi. change (map f (seq 0 n)) with (f <$> seq 0 n).
  rewrite list_lookup_fmap.
  assert (H : seq 0 n !! i = Some i) by (apply lookup_seq; split; [reflexivity|exact Hi]).
  rewrite H. reflexivity.
Qed.

Lemma nth_of_lookup {A : Type} (l : list A) i d x :
  l !! i = Some x -> nth i l d = x.
Proof. intros H. rewrite nth_lookup, H. reflexivity. Qed.

Lemma map_seq_ext {A : Type} (f g : nat -> A) n :
  (forall i, (i < n)%nat -> f i = g i) -> map f (seq 0 n) = map g (seq 0 n).
Proof.
  intros H. apply map_ext_in. intros i Hi. apply in_seq in Hi. apply H. lia.
Qed.

Lemma list_eq_nth (l1 l2 : vec) :
  length l1 = length l2 ->
  (forall i, (i < length l1)%nat -> nth i l1 0 = nth i l2 0) -> l1 = l2.
Proof.
  revert l2. induction l1 as [|x l1 IH]; intros [|y l2] Hlen H; simpl in *;
    try discriminate; [reflexivity|].
  f_equal.
  - apply (H 0%nat). lia.
  - apply IH; [lia|]. intros i Hi. apply (H (S i)). lia.
Qed.

Lemma Rsum_map_seq (f : nat -> R) n : Rsum (map f (seq 0 n)) = bigsum n f.
Proof.
  induction n as [|n IH]; [reflexivity|].
  rewrite seq_S, map_app. simpl. unfold Rsum in *.
  rewrite fold_right_app. simpl.
  rewrite <- IH. clear IH. generalize (map f (seq 0 n)) as l.
  induction l as [|x l IHl]; simpl; [lra|]. rewrite IHl. lra.
Qed.

Lemma bigsum_ext n (f g : nat -> R) :
  (forall i, (i < n)%nat -> f i = g i) -> bigsum n f = bigsum n g.
Proof.
  induction n as [|n IH]; intros H; simpl; [reflexivity|].
  rewrite IH by (intros i Hi; apply H; lia). rewrite (H n) by lia. reflexivity.
Qed.

Lemma bigsum_plus n (f g : nat -> R) :
  bigsum n (fun i => f i + g i) = bigsum n f + bigsum n g.
Proof. induction n as [|n IH]; simpl; [lra|]. rewrite IH. lra. Qed.

Lemma bigsum_minus n (f g : nat -> R) :
  bigsum n (fun i => f i - g i) = bigsum n f - bigsum n g.
Proof. induction n as [|n IH]; simpl; [lra|]. rewrite IH. lra. Qed.

Lemma bigsum_scal n c (f : nat -> R) :
  bigsum n (fun i => c * f i) = c * bigsum n f.
Proof. induction n as [|n IH]; simpl; [lra|]. rewrite IH. lra. Qed.

Lemma bigsum_scal_r n c (f : nat -> R) :
  bigsum n (fun i => f i * c) = bigsum n f * c.
Proof. induction n as [|n IH]; simpl; [lra|]. rewrite IH. lra. Qed.

Lemma bigsum_const n c : bigsum n (fun _ => c) = INR n * c.
Proof.
  induction n as [|n IH]; [simpl; lra|].
  rewrite S_INR. simpl bigsum. rewrite IH. lra.
Qed.

Lemma bigsum_zero n (f : nat -> R) :
  (forall i, (i < n)%nat -> f i = 0) -> bigsum n f = 0.
Proof.
  intros H. rewrite (bigsum_ext n f (fun _ => 0) H), bigsum_const. lra.
Qed.

Lemma bigsum_nonneg n (f : nat -> R) :
  (forall i, (i < n)%nat -> 0 <= f i) -> 0 <= bigsum n f.
Proof.
  induction n as [|n IH]; intros H; simpl; [lra|].
  assert (0 <= bigsum n f) by (apply IH; intros i Hi; apply H; lia).
  assert (0 <= f n) by (apply H; lia). lra.
Qed.

Lemma bigsum_le n (f g : nat -> R) :
  (forall i, (i < n)%nat -> f i <= g i) -> bigsum n f <= bigsum n g.
Proof.
  induction n as [|n IH]; intros H; simpl; [lra|].
  assert (bigsum n f <= bigsum n g) by (apply IH; intros i Hi; apply H; lia).
  assert (f n <= g n) by (apply H; lia). lra.
Qed.

(** A sum of non-negative terms that vanishes has only zero terms. *)
Lemma bigsum_nonneg_zero n (f : nat -> R) :
  (forall i, (i < n)%nat -> 0 <= f i) -> bigsum n f = 0 ->
  forall i, (i < n)%nat -> f i = 0.
Proof.
  induction n as [|n IH]; intros Hpos Hz i Hi; [lia|].
  simpl in Hz.
  assert (H1 : 0 <= bigsum n f) by (apply bigsum_nonneg; intros j Hj; apply Hpos; lia).
  assert (H2 : 0 <= f n) by (apply Hpos; lia).
  destruct (Nat.eq_dec i n) as [->|Hne]; [lra|].
  apply IH; [intros j Hj; apply Hpos; lia|lra|lia].
Qed.

Lemma bigsum_swap m n (f : nat -> nat -> R) :
  bigsum m (fun i => bigsum n (fun j => f i j))
  = bigsum n (fun j => bigsum m (fun i => f i j)).
Proof.
  induction m as [|m IH]; simpl.
  - symmetry. apply bigsum_zero. reflexivity.
  - rewrite IH, <- bigsum_plus. reflexivity.
Qed.

(** ** [linspace] *)

Lemma linspace_length a b n : length (linspace a b n) = n.
Proof.
  unfold linspace. destruct (1 <? n)%nat.
  - rewrite length_insert, length_map, length_seq. reflexivity.
  - rewrite length_map, length_seq. reflexivity.
Qed.

(** In exact arithmetic the overwritten endpoint is the value the formula
    gives, so every sample is [a + i * (b - a) / (n - 1)]. *)
Lemma linspace_lookup a b n i :
  (2 <= n)%nat -> (i < n)%nat ->
  linspace a b n !! i = Some (a + INR i * (b - a) / INR (n - 1)).
Proof.
  intros Hn Hi. unfold linspace.
  assert (H1 : (1 <? n)%nat = true) by (apply Nat.ltb_lt; lia). rewrite H1.
  assert (Hne : INR (n - 1) <> 0) by (apply not_0_INR; lia).
  destruct (Nat.eq_dec i (n - 1)%nat) as [->|Hneq].
  - rewrite list_lookup_insert_eq by (rewrite length_map, length_seq; lia).
    f_equal. field. exact Hne.
  - rewrite list_lookup_insert_ne by lia.
    rewrite lookup_map_seq by exact Hi. f_equal. field. exact Hne.
Qed.

Lemma linspace_nth a b n i :
  (2 <= n)%nat -> (i < n)%nat ->
  nth i (linspace a b n) 0 = a + INR i * (b - a) / INR (n - 1).
Proof.
  intros Hn Hi. apply nth_of_lookup, linspace_lookup; assumption.
Qed.

Lemma linspace_eq a b n :
  (2 <= n)%nat ->
  linspace a b n = map (fun i => a + INR i * (b - a) / INR (n - 1)) (seq 0 n).
Proof.
  intros Hn. apply list_eq_nth.
  - rewrite linspace_length, length_map, length_seq. reflexivity.
  - rewrite linspace_length. intros i Hi.
    rewrite linspace_nth by assumption. rewrite nth_map_seq by exact Hi. reflexivity.
Qed.

(** The last sample is the stop value itself. *)
Lemma linspace_last a b n :
  (2 <= n)%nat -> linspace a b n !! (n - 1)%nat = Some b.
Proof.
  intros Hn. unfold linspace.
  assert (H1 : (1 <? n)%nat = true) by (apply Nat.ltb_lt; lia). rewrite H1.
  apply list_lookup_insert_eq. rewrite length_map, length_seq. lia.
Qed.

(** ** Trigonometry of the basis *)

(** Power reduction of the sixth power of the cosine. *)
Lemma cos6_reduce x :
  cos x ^ 6 = (10 + 15 * cos (2 * x) + 6 * cos (4 * x) + cos (6 * x)) / 32.
Proof.
  replace (6 * x) with (2 * x + 2 * (2 * x)) by ring.
  replace (4 * x) with (2 * (2 * x)) by ring.
  rewrite cos_plus, (sin_2a (2 * x)), (cos_2a_cos (2 * x)).
  pose proof (sin2_cos2 (2 * x)) as Hs. unfold Rsqr in Hs.
  rewrite (cos_2a_cos x) in *.
  set (c := cos x) in *. set (s2 := sin (2 * x)) in *.
  replace (s2 * (2 * s2 * (2 * c * c - 1)))
    with (2 * (s2 * s2) * (2 * c * c - 1)) by ring.
  replace (s2 * s2) with (1 - (2 * c * c - 1) * (2 * c * c - 1)) by lra.
  field.
Qed.

(** A sum of cosines in arithmetic progression telescopes. *)
Lemma bigsum_cos_telescope n a d :
  bigsum n (fun i => cos (a - INR i * d)) * (2 * sin (d / 2))
  = sin (a + d / 2) - sin (a - INR n * d + d / 2).
Proof.
  induction n as [|n IH].
  - simpl bigsum. replace (a - INR 0 * d + d / 2) with (a + d / 2) by (simpl; ring).
    ring.
  - simpl bigsum. rewrite Rmult_plus_distr_r, IH, S_INR.
    replace (a - (INR n + 1) * d + d / 2) with ((a - INR n * d) - d / 2) by field.
    replace (a - INR n * d + d / 2) with ((a - INR n * d) + d / 2) by ring.
    rewrite (sin_plus (a - INR n * d)), (sin_minus (a - INR n * d)). ring.
Qed.

(** Over [n] equally spaced shifts the harmonic [p] cancels when [0 < p < n]. *)
Lemma bigsum_cos_harmonic (n p : nat) a :
  (0 < p < n)%nat ->
  bigsum n (fun i => cos (a - INR i * (2 * INR p * PI / INR n))) = 0.
Proof.
  intros Hp.
  assert (Hn : 0 < INR n) by (apply lt_0_INR; lia).
  assert (Hp0 : 0 < INR p) by (apply lt_0_INR; lia).
  assert (Hpn : INR p < INR n) by (apply lt_INR; lia).
  pose proof PI_RGT_0 as Hpi.
  pose proof (bigsum_cos_telescope n a (2 * INR p * PI / INR n)) as H.
  replace (a - INR n * (2 * INR p * PI / INR n) + 2 * INR p * PI / INR n / 2)
    with (a + 2 * INR p * PI / INR n / 2 - 2 * INR p * PI) in H by (field; lra).
  rewrite <- (sin_period (a + 2 * INR p * PI / INR n / 2 - 2 * INR p * PI) p) in H.
  replace (a + 2 * INR p * PI / INR n / 2 - 2 * INR p * PI + 2 * INR p * PI)
    with (a + 2 * INR p * PI / INR n / 2) in H by ring.
  rewrite Rminus_diag in H.
  assert (Hsin : 0 < sin (2 * INR p * PI / INR n / 2)).
  { replace (2 * INR p * PI / INR n / 2) with (INR p * PI / INR n) by (field; lra).
    apply sin_gt_0.
    - apply Rdiv_lt_0_compat; [apply Rmult_lt_0_compat|]; lra.
    - apply (Rmult_lt_reg_r (INR n)); [exact Hn|].
      replace (INR p * PI / INR n * INR n) with (INR p * PI) by (field; lra).
      rewrite (Rmult_comm PI). apply Rmult_lt_compat_r; lra. }
  apply Rmult_integral in H. destruct H as [H|H]; [exact H|lra].
Qed.

(** The step of the shifts is [pi / n]. *)
Lemma shift_eq (n : Z) i : (2 <= n)%Z -> shift n i = INR i * (PI / IZR n).
Proof.
  intros Hn. unfold shift.
  assert (2 <= IZR n) by (apply IZR_le in Hn; exact Hn).
  field. lra.
Qed.

Lemma IZR_to_nat (n : Z) : (0 <= n)%Z -> INR (Z.to_nat n) = IZR n.
Proof. intros Hn. rewrite INR_IZR_INZ, Z2Nat.id by exact Hn. reflexivity. Qed.

(** From four channels on, the channels add up to the same value at every
    point of the domain. *)
Lemma channel_sum_flat (n : nat) s :
  (4 <= n)%nat ->
  bigsum n (fun i => cos (s - INR i * (PI / INR n)) ^ 6) = 5 * INR n / 16.
Proof.
  intros Hn.
  assert (Hn0 : 0 < INR n) by (apply lt_0_INR; lia).
  rewrite (bigsum_ext n _
    (fun i => 10 / 32
              + (15 / 32 * cos (2 * s - INR i * (2 * INR 1 * PI / INR n))
              + (6 / 32 * cos (4 * s - INR i * (2 * INR 2 * PI / INR n))
              + 1 / 32 * cos (6 * s - INR i * (2 * INR 3 * PI / INR n)))))).
  - rewrite !bigsum_plus, !bigsum_scal, bigsum_const.
    rewrite !bigsum_cos_harmonic by lia. field.
  - intros i _. rewrite cos6_reduce. simpl INR.
    replace (2 * (s - INR i * (PI / INR n)))
      with (2 * s - INR i * (2 * 1 * PI / INR n)) by (field; lra).
    replace (4 * (s - INR i * (PI / INR n)))
      with (4 * s - INR i * (2 * (1 + 1) * PI / INR n)) by (field; lra).
    replace (6 * (s - INR i * (PI / INR n)))
      with (6 * s - INR i * (2 * (1 + 1 + 1) * PI / INR n)) by (field; lra).
    field.
Qed.

(** With three channels the sixth harmonic survives. *)
Lemma channel_sum_three s :
  bigsum 3 (fun i => cos (s - INR i * (PI / 3)) ^ 6) = (30 + 3 * cos (6 * s)) / 32.
Proof.
  rewrite (bigsum_ext 3 _
    (fun i => 10 / 32
              + (15 / 32 * cos (2 * s - INR i * (2 * INR 1 * PI / INR 3))
              + (6 / 32 * cos (4 * s - INR i * (2 * INR 2 * PI / INR 3))
              + 1 / 32 * cos (6 * s))))).
  - rewrite !bigsum_plus, !bigsum_scal, !bigsum_const.
    rewrite !bigsum_cos_harmonic by lia. simpl INR. field.
  - intros i _. rewrite cos6_reduce. simpl INR.
    replace (2 * (s - INR i * (PI / 3)))
      with (2 * s - INR i * (2 * 1 * PI / (1 + 1 + 1))) by field.
    replace (4 * (s - INR i * (PI / 3)))
      with (4 * s - INR i * (2 * (1 + 1) * PI / (1 + 1 + 1))) by field.
    replace (cos (6 * (s - INR i * (PI / 3)))) with (cos (6 * s)); [field|].
    rewrite <- (cos_period (6 * (s - INR i * (PI / 3))) i). f_equal. field.
Qed.

(** With two channels the sum is [cos^6 + sin^6]. *)
Lemma channel_sum_two s :
  bigsum 2 (fun i => cos (s - INR i * (PI / 2)) ^ 6)
  = 1 - 3 / 4 * (sin (2 * s)) ^ 2.
Proof.
  cbn [bigsum]. change (INR 0) with 0. change (INR 1) with 1.
  replace (s - 0 * (PI / 2)) with s by ring.
  replace (s - 1 * (PI / 2)) with (- (PI / 2 - s)) by ring.
  rewrite cos_neg, cos_shift, sin_2a.
  pose proof (sin2_cos2 s) as Hs. unfold Rsqr in Hs.
  set (c := cos s) in *. set (z := sin s) in *.
  assert (Hq : c * c = 1 - z * z) by lra.
  replace (0 + c ^ 6 + z ^ 6)
    with ((c * c) * (c * c) * (c * c) + (z * z) * (z * z) * (z * z)) by ring.
  replace ((2 * z * c) ^ 2) with (4 * (z * z) * (c * c)) by ring.
  rewrite Hq. field.
Qed.

(** ** The channel basis *)

Lemma INR_179 : INR 179 = 179.
Proof. rewrite INR_IZR_INZ. reflexivity. Qed.

Lemma domain_linspace a b : linspace a b channel_density = domain a b.
Proof.
  unfold channel_density, domain. rewrite linspace_eq by lia.
  apply map_seq_ext. intros j _. change (180 - 1)%nat with 179%nat.
  rewrite INR_179. reflexivity.
Qed.

Lemma basis_channels (n : Z) :
  (2 <= n)%Z ->
  map (fun i =>
         map (fun s => cos (s - nth i (linspace 0 (PI - PI / IZR n) (Z.to_nat n)) 0)
                       ^ channel_exp)
             (linspace 0 PI channel_density))
      (seq 0 (Z.to_nat n))
  = basis n.
Proof.
  intros Hn. unfold basis, channel_exp. apply map_seq_ext. intros i Hi.
  rewrite domain_linspace. unfold domain. rewrite map_map.
  apply map_seq_ext. intros j _.
  rewrite linspace_nth by lia.
  rewrite minus_INR by lia. rewrite IZR_to_nat by lia. change (INR 1) with 1.
  assert (2 <= IZR n) by (apply IZR_le in Hn; exact Hn).
  f_equal. f_equal. unfold sample_point, shift. field. lra.
Qed.

Lemma define_channels_unfold self n a b :
  configured self n a b -> (2 <= n)%Z ->
  _define_channels self =
    if Rgt_dec (ch_sum_range n) (deg2rad (b - a) * 0.1) then
      (Raise (ValueError "Insufficient channel coverage."), self)
    else (Ok (basis n, domain a b), self).
Proof.
  intros (Hn & (v0 & H0 & Ha) & (v1 & H1 & Hb)) Hge.
  unfold _define_channels.
  run (getattr_Some _ _ _ Hn).
  run (from_option_Some TypeError (int_of (PInt n)) n self eq_refl).
  run (getattr_Some _ _ _ H0).
  run (from_option_Some TypeError _ a self Ha).
  run (getattr_Some _ _ _ H1).
  run (from_option_Some TypeError _ b self Hb).
  rewrite basis_channels by exact Hge. rewrite domain_linspace.
  fold (ch_sum_range n).
  destruct (Rgt_dec (ch_sum_range n) (deg2rad (b - a) * 0.1)); reflexivity.
Qed.

Lemma basis_length n : length (basis n) = Z.to_nat n.
Proof. unfold basis. rewrite length_map, length_seq. reflexivity. Qed.

Lemma basis_row n i :
  (i < Z.to_nat n)%nat ->
  basis n !! i
  = Some (map (fun j => cos (sample_point j - shift n i) ^ 6) (seq 0 180)).
Proof. intros Hi. unfold basis. rewrite lookup_map_seq by exact Hi. reflexivity. Qed.

Lemma basis_rect n : Forall (fun r => length r = 180%nat) (basis n).
Proof.
  unfold basis. apply List.Forall_forall. intros r Hr. apply in_map_iff in Hr.
  destruct Hr as (i & <- & _). rewrite length_map, length_seq. reflexivity.
Qed.

Lemma basis_ncols n : (1 <= n)%Z -> ncols (basis n) = 180%nat.
Proof.
  intros Hn. unfold basis. destruct (Z.to_nat n) as [|k] eqn:Hk; [lia|].
  change (seq 0 (S k)) with (0%nat :: seq 1 k). rewrite map_cons. unfold ncols.
  rewrite length_map, length_seq. reflexivity.
Qed.

Lemma basis_column n j :
  (j < 180)%nat ->
  column j (basis n)
  = map (fun i => cos (sample_point j - shift n i) ^ 6) (seq 0 (Z.to_nat n)).
Proof.
  intros Hj. unfold column, basis. rewrite map_map.
  apply map_seq_ext. intros i _.
  rewrite (nth_map_seq (fun j => cos (sample_point j - shift n i) ^ 6)) by exact Hj.
  reflexivity.
Qed.

Lemma basis_entry n i j :
  (i < Z.to_nat n)%nat -> (j < 180)%nat ->
  entry (basis n) i j = cos (sample_point j - shift n i) ^ 6.
Proof.
  intros Hi Hj. unfold entry.
  rewrite (nth_of_lookup (basis n) i [] _ (basis_row n i Hi)).
  rewrite (nth_map_seq (fun j => cos (sample_point j - shift n i) ^ 6)) by exact Hj.
  reflexivity.
Qed.

(** The per-sample sums of the coverage check. *)
Lemma np_sum_axis0_basis n :
  (2 <= n)%Z ->
  np_sum_axis0 (basis n)
  = map (fun j =>
           bigsum (Z.to_nat n)
                  (fun i => cos (sample_point j - INR i * (PI / IZR n)) ^ 6))
        (seq 0 180).
Proof.
  intros Hn. unfold np_sum_axis0. rewrite basis_ncols by lia.
  apply map_seq_ext. intros j Hj. rewrite basis_column by exact Hj.
  rewrite Rsum_map_seq. apply bigsum_ext. intros i _.
  rewrite shift_eq by exact Hn. reflexivity.
Qed.

(** ** Maximum and minimum of an array *)

Lemma fold_left_Rmax_ge (l : list R) x : x <= fold_left Rmax l x.
Proof.
  revert x. induction l as [|y l IH]; intros x; simpl; [lra|].
  eapply Rle_trans; [apply (Rmax_l x y)|apply IH].
Qed.

Lemma fold_left_Rmax_elem (l : list R) x y : In y l -> y <= fold_left Rmax l x.
Proof.
  revert x. induction l as [|z l IH]; intros x Hy; simpl in *; [contradiction|].
  destruct Hy as [->|Hy].
  - eapply Rle_trans; [apply (Rmax_r x y)|apply fold_left_Rmax_ge].
  - apply IH. exact Hy.
Qed.

Lemma fold_left_Rmax_le (l : list R) x hi :
  x <= hi -> (forall y, In y l -> y <= hi) -> fold_left Rmax l x <= hi.
Proof.
  revert x. induction l as [|z l IH]; intros x Hx H; simpl; [exact Hx|].
  apply IH.
  - apply Rmax_lub; [exact Hx|apply H; left; reflexivity].
  - intros y Hy. apply H. right. exact Hy.
Qed.

Lemma fold_left_Rmin_le (l : list R) x : fold_left Rmin l x <= x.
Proof.
  revert x. induction l as [|y l IH]; intros x; simpl; [lra|].
  eapply Rle_trans; [apply IH|apply Rmin_l].
Qed.

Lemma fold_left_Rmin_elem (l : list R) x y : In y l -> fold_left Rmin l x <= y.
Proof.
  revert x. induction l as [|z l IH]; intros x Hy; simpl in *; [contradiction|].
  destruct Hy as [->|Hy].
  - eapply Rle_trans; [apply fold_left_Rmin_le|apply Rmin_r].
  - apply IH. exact Hy.
Qed.

Lemma fold_left_Rmin_ge (l : list R) x lo :
  lo <= x -> (forall y, In y l -> lo <= y) -> lo <= fold_left Rmin l x.
Proof.
  revert x. induction l as [|z l IH]; intros x Hx H; simpl; [exact Hx|].
  apply IH.
  - apply Rmin_glb; [exact Hx|apply H; left; reflexivity].
  - intros y Hy. apply H. right. exact Hy.
Qed.

Lemma np_max_elem (l : list R) y : In y l -> y <= np_max l.
Proof.
  destruct l as [|x l]; simpl; [contradiction|]. intros [->|Hy].
  - apply fold_left_Rmax_ge.
  - apply fold_left_Rmax_elem. exact Hy.
Qed.

Lemma np_max_le (l : list R) hi :
  l <> [] -> (forall y, In y l -> y <= hi) -> np_max l <= hi.
Proof.
  destruct l as [|x l]; [congruence|]. intros _ H. simpl.
  apply fold_left_Rmax_le; [apply H; left; reflexivity|].
  intros y Hy. apply H. right. exact Hy.
Qed.

Lemma py_min_elem (l : list R) y : In y l -> py_min l <= y.
Proof.
  destruct l as [|x l]; simpl; [contradiction|]. intros [->|Hy].
  - apply fold_left_Rmin_le.
  - apply fold_left_Rmin_elem. exact Hy.
Qed.

Lemma py_min_ge (l : list R) lo :
  l <> [] -> (forall y, In y l -> lo <= y) -> lo <= py_min l.
Proof.
  destruct l as [|x l]; [congruence|]. intros _ H. simpl.
  apply fold_left_Rmin_ge; [apply H; left; reflexivity|].
  intros y Hy. apply H. right. exact Hy.
Qed.

(** The spread of an array whose entries all lie in [lo, hi]. *)
Lemma spread_le (l : list R) lo hi :
  l <> [] -> (forall y, In y l -> lo <= y <= hi) -> np_max l - py_min l <= hi - lo.
Proof.
  intros Hne H.
  assert (np_max l <= hi) by (apply np_max_le; [exact Hne|]; intros y Hy; apply H, Hy).
  assert (lo <= py_min l) by (apply py_min_ge; [exact Hne|]; intros y Hy; apply H, Hy).
  lra.
Qed.

Lemma spread_ge (l : list R) x y : In x l -> In y l -> x - y <= np_max l - py_min l.
Proof.
  intros Hx Hy. pose proof (np_max_elem l x Hx). pose proof (py_min_elem l y Hy). lra.
Qed.

(** ** The coverage check *)

Lemma ch_sum_range_flat (n : Z) : (4 <= n)%Z -> ch_sum_range n <= 0.
Proof.
  intros Hn. unfold ch_sum_range. rewrite np_sum_axis0_basis by lia.
  replace 0 with (5 * IZR n / 16 - 5 * IZR n / 16) by ring.
  apply spread_le; [discriminate|].
  intros y Hy. apply in_map_iff in Hy. destruct Hy as (j & <- & _).
  rewrite <- (IZR_to_nat n) by lia.
  rewrite channel_sum_flat by lia. lra.
Qed.

Lemma ch_sum_range_three : ch_sum_range 3 <= 3 / 16.
Proof.
  unfold ch_sum_range. rewrite np_sum_axis0_basis by lia.
  replace (3 / 16) with (33 / 32 - 27 / 32) by field.
  apply spread_le; [discriminate|].
  intros y Hy. apply in_map_iff in Hy. destruct Hy as (j & <- & _).
  change (Z.to_nat 3) with 3%nat. rewrite channel_sum_three.
  pose proof (COS_bound (6 * sample_point j)). lra.
Qed.

Lemma ch_sum_range_two : 9 / 16 <= ch_sum_range 2.
Proof.
  unfold ch_sum_range. rewrite np_sum_axis0_basis by lia.
  change (Z.to_nat 2) with 2%nat.
  set (f := fun j => bigsum 2 (fun i => cos (sample_point j - INR i * (PI / 2)) ^ 6)).
  assert (H0 : In (f 0%nat) (map f (seq 0 180))).
  { apply in_map. apply in_seq. lia. }
  assert (H45 : In (f 45%nat) (map f (seq 0 180))).
  { apply in_map. apply in_seq. lia. }
  eapply Rle_trans; [|apply (spread_ge _ _ _ H0 H45)].
  unfold f. rewrite !channel_sum_two.
  assert (E0 : sin (2 * sample_point 0) = 0).
  { unfold sample_point. change (INR 0) with 0.
    replace (2 * (0 * PI / 179)) with 0 by field. apply sin_0. }
  assert (E45 : sin (2 * sample_point 45) = cos (PI / 358)).
  { rewrite (cos_sin (PI / 358)). f_equal. unfold sample_point.
    replace (INR 45) with 45 by (rewrite INR_IZR_INZ; reflexivity). field. }
  rewrite E0, E45.
  pose proof PI_RGT_0 as Hpi.
  assert (Hc : sqrt 3 / 2 <= cos (PI / 358)).
  { rewrite <- cos_PI6. apply cos_decr_1; lra. }
  assert (H3 : sqrt 3 * sqrt 3 = 3) by (apply sqrt_sqrt; lra).
  assert (Hs : 0 <= sqrt 3) by apply sqrt_pos.
  assert (3 / 4 <= cos (PI / 358) ^ 2) by nra.
  lra.
Qed.

(** The threshold of the default configuration is [pi / 10]. *)
Lemma default_threshold : deg2rad (IZR 180 - IZR 0) * 0.1 = PI / 10.
Proof.
  assert (E : 0.1 = 1 / 10) by lra.
  unfold deg2rad. rewrite E. field.
Qed.

Lemma define_channels_default_ok self (n : Z) :
  configured self n 0 180 -> (3 <= n)%Z ->
  _define_channels self = (Ok (basis n, domain 0 180), self).
Proof.
  intros Hc Hn. rewrite (define_channels_unfold self n 0 180 Hc) by lia.
  destruct (Rgt_dec _ _) as [Hgt|_]; [exfalso|reflexivity].
  rewrite default_threshold in Hgt.
  pose proof PI2_3_2 as Hpi.
  destruct (Z.eq_dec n 3%Z) as [->|Hne].
  - pose proof ch_sum_range_three. lra.
  - pose proof (ch_sum_range_flat n ltac:(lia)). lra.
Qed.

(** From four channels on the check passes for every range with
    [range_start <= range_stop]. *)
Lemma define_channels_flat_ok self (n : Z) a b :
  configured self n a b -> (4 <= n)%Z -> a <= b ->
  _define_channels self = (Ok (basis n, domain a b), self).
Proof.
  intros Hc Hn Hab. rewrite (define_channels_unfold self n a b Hc) by lia.
  destruct (Rgt_dec _ _) as [Hgt|_]; [exfalso|reflexivity].
  pose proof (ch_sum_range_flat n Hn). pose proof PI_RGT_0.
  unfold deg2rad in Hgt.
  assert (0 <= (b - a) * (PI / 180) * 0.1) by (apply Rmult_le_pos; [apply Rmult_le_pos|]; lra).
  lra.
Qed.

Lemma define_channels_two_fails self :
  configured self 2 0 180 ->
  _define_channels self
  = (Raise (ValueError "Insufficient channel coverage."), self).
Proof.
  intros Hc. rewrite (define_channels_unfold self 2 0 180 Hc) by lia.
  destruct (Rgt_dec _ _) as [_|Hngt]; [reflexivity|exfalso].
  apply Hngt. rewrite default_threshold.
  pose proof ch_sum_range_two. pose proof PI_4. lra.
Qed.

Lemma configured_init n a b va vb :
  real_of va = Some a -> real_of vb = Some b ->
  configured (__init__ (PInt n) va vb) n a b.
Proof.
  intros Ha Hb. unfold configured. split; [reflexivity|]. split.
  - exists va. split; [reflexivity|exact Ha].
  - exists vb. split; [reflexivity|exact Hb].
Qed.

(** [fit] raises the coverage error only from the coverage check. *)
Lemma fit_coverage_error_only self X y n C C_D :
  self !! "n_channels" = Some (PInt n) ->
  _define_channels self = (Ok (C, C_D), self) ->
  fst (fit X y self) <> Raise (ValueError "Insufficient channel coverage.").
Proof.
  intros Hn Hd. rewrite (fit_unfold self X y n Hn), Hd.
  destruct (n <? 2)%Z; [discriminate|].
  destruct (length (np_shape X) <? 2)%nat; [discriminate|].
  destruct (np_size X 0 <=? np_size X 1)%nat; [discriminate|].
  destruct (negb _); [discriminate|].
  cbv zeta. destruct (channel_activations C C_D y) as [F|]; [|discriminate].
  unfold LinearRegression_fit. destruct X as [x|v|m|sh]; try discriminate.
  destruct (_ || _); [discriminate|].
  destruct (_ || _); [discriminate|].
  destruct (negb _); discriminate.
Qed.

(** C1 (amended): in the default configuration (range 0 to 180) the coverage
    check passes for every [n_channels >= 3]: [_define_channels] returns the
    basis and the domain, and [fit] does not raise the coverage error. *)
Theorem coverage_default_from_three (self : estimator) (n : Z) (X : ndarray) (y : vec) :
  configured self n 0 180 -> (3 <= n)%Z ->
  _define_channels self = (Ok (basis n, domain 0 180), self) /\
  fst (fit X y self) <> Raise (ValueError "Insufficient channel coverage.").
Proof.
  intros Hc Hn.
  pose proof (define_channels_default_ok self n Hc Hn) as Hd.
  split; [exact Hd|].
  destruct Hc as (Hnc & _). exact (fit_coverage_error_only self X y n _ _ Hnc Hd).
Qed.

Lemma configured_default : configured default_estimator 5 0 180.
Proof. apply configured_init; reflexivity. Qed.

Lemma coverage_default_five :
  _define_channels default_estimator
    = (Ok (basis 5, domain 0 180), default_estimator) /\
  fst (fit (Arr2 [[1]; [2]]) [0; 90] default_estimator)
    <> Raise (ValueError "Insufficient channel coverage.").
Proof.
  apply (coverage_default_from_three default_estimator 5 (Arr2 [[1]; [2]]) [0; 90]).
  - exact configured_default.
  - lia.
Defined.

(** C1 fails for two channels: with [n_channels = 2] and the default range,
    the check raises, from [_define_channels] and from [fit] on inputs that
    pass every other validation. *)
Lemma coverage_fails_two_channels :
  _define_channels (__init__ (PInt 2) (PInt 0) (PInt 180))
    = (Raise (ValueError "Insufficient channel coverage."),
       __init__ (PInt 2) (PInt 0) (PInt 180)) /\
  fit (Arr2 [[1]; [2]]) [0; 90] (__init__ (PInt 2) (PInt 0) (PInt 180))
    = (Raise (ValueError "Insufficient channel coverage."),
       __init__ (PInt 2) (PInt 0) (PInt 180)).
Proof.
  assert (Hc : configured (__init__ (PInt 2) (PInt 0) (PInt 180)) 2 0 180)
    by (apply configured_init; reflexivity).
  pose proof (define_channels_two_fails _ Hc) as Hd.
  split; [exact Hd|].
  destruct Hc as (Hnc & _).
  rewrite (fit_unfold _ (Arr2 [[1]; [2]]) [0; 90] 2 Hnc), Hd. reflexivity.
Qed.

(** C5: whenever [_define_channels] returns, with [n_channels >= 2], the basis
    has [n_channels] rows of 180 samples with entry (i, j) equal to
    [cos (s_j - shift_i) ^ 6], and the domain holds the 180 evenly spaced
    values from [range_start] to [range_stop], both ends included. *)
Theorem define_channels_formula (self : estimator) (n : Z) (a b : R)
    (C_ : matrix) (C_D_ : vec) :
  configured self n a b -> (2 <= n)%Z ->
  _define_channels self = (Ok (C_, C_D_), self) ->
  length C_ = Z.to_nat n /\
  Forall (fun row => length row = 180%nat) C_ /\
  (forall i j, (i < Z.to_nat n)%nat -> (j < 180)%nat ->
     exists row, C_ !! i = Some row /\
                 row !! j = Some (cos (INR j * PI / 179
                                       - INR i * (PI - PI / IZR n) / (IZR n - 1)) ^ 6)) /\
  length C_D_ = 180%nat /\
  (forall j, (j < 180)%nat -> C_D_ !! j = Some (a + INR j * (b - a) / 179)) /\
  C_D_ !! 0%nat = Some a /\ C_D_ !! 179%nat = Some b.
Proof.
  intros Hc Hn Hd. rewrite (define_channels_unfold self n a b Hc Hn) in Hd.
  destruct (Rgt_dec _ _); [discriminate|]. inversion Hd; subst C_ C_D_. clear Hd.
  split; [apply basis_length|]. split; [apply basis_rect|]. split.
  { intros i j Hi Hj. eexists. split; [apply basis_row; exact Hi|].
    rewrite (lookup_map_seq (fun j => cos (sample_point j - shift n i) ^ 6)) by exact Hj.
    reflexivity. }
  assert (Hdom : forall j, (j < 180)%nat ->
                   domain a b !! j = Some (a + INR j * (b - a) / 179)).
  { intros j Hj. unfold domain.
    rewrite (lookup_map_seq (fun j => a + INR j * (b - a) / 179)) by exact Hj.
    reflexivity. }
  split; [unfold domain; rewrite length_map, length_seq; reflexivity|].
  split; [exact Hdom|]. split.
  - rewrite Hdom by lia. f_equal. change (INR 0) with 0. field.
  - rewrite Hdom by lia. f_equal. rewrite INR_179. field.
Qed.

Lemma define_channels_formula_default :
  length (basis 5) = Z.to_nat 5 /\
  Forall (fun row => length row = 180%nat) (basis 5) /\
  (forall i j, (i < Z.to_nat 5)%nat -> (j < 180)%nat ->
     exists row, basis 5 !! i = Some row /\
                 row !! j = Some (cos (INR j * PI / 179
                                       - INR i * (PI - PI / IZR 5) / (IZR 5 - 1)) ^ 6)) /\
  length (domain 0 180) = 180%nat /\
  (forall j, (j < 180)%nat -> domain 0 180 !! j = Some (0 + INR j * (180 - 0) / 179)) /\
  domain 0 180 !! 0%nat = Some 0 /\ domain 0 180 !! 179%nat = Some 180.
Proof.
  apply (define_channels_formula default_estimator 5 0 180).
  - exact configured_default.
  - lia.
  - apply define_channels_default_ok; [exact configured_default|lia].
Defined.

(** ** First extremum *)

Lemma argmin_from_first (p l : list R) best bv :
  p !! best = Some bv ->
  (forall j w, p !! j = Some w -> bv <= w) ->
  (forall j w, (j < best)%nat -> p !! j = Some w -> bv < w) ->
  first_argmin (p ++ l) (argmin_from best bv (length p) l).
Proof.
  revert p best bv. induction l as [|x t IH]; intros p best bv Hb Hle Hlt.
  - simpl. rewrite app_nil_r. exists bv. auto.
  - simpl. replace (p ++ x :: t) with ((p ++ [x]) ++ t) by (rewrite <- app_assoc; reflexivity).
    replace (S (length p)) with (length (p ++ [x])) by (rewrite length_app; simpl; lia).
    destruct (Rlt_dec x bv) as [Hx|Hx].
    + apply IH.
      * rewrite lookup_app_r by lia. rewrite Nat.sub_diag. reflexivity.
      * intros j w Hj. destruct (lt_dec j (length p)) as [Hjp|Hjp].
        -- rewrite lookup_app_l in Hj by exact Hjp. specialize (Hle j w Hj). lra.
        -- rewrite lookup_app_r in Hj by lia.
           destruct (j - length p)%nat; simpl in Hj; [|discriminate].
           inversion Hj. lra.
      * intros j w Hjp Hj. rewrite lookup_app_l in Hj by exact Hjp.
        specialize (Hle j w Hj). lra.
    + apply IH.
      * rewrite lookup_app_l by (apply lookup_lt_Some in Hb; exact Hb). exact Hb.
      * intros j w Hj. destruct (lt_dec j (length p)) as [Hjp|Hjp].
        -- rewrite lookup_app_l in Hj by exact Hjp. exact (Hle j w Hj).
        -- rewrite lookup_app_r in Hj by lia.
           destruct (j - length p)%nat; simpl in Hj; [|discriminate].
           inversion Hj. lra.
      * intros j w Hjb Hj. apply lookup_lt_Some in Hb.
        rewrite lookup_app_l in Hj by lia. exact (Hlt j w Hjb Hj).
Qed.

Lemma np_argmin_first (l : list R) k : np_argmin l = Some k -> first_argmin l k.
Proof.
  destruct l as [|x t]; simpl; [discriminate|]. intros H. inversion H.
  apply (argmin_from_first [x] t 0 x).
  - reflexivity.
  - intros [|j] w Hj; simpl in Hj; [inversion Hj; lra|discriminate].
  - intros j w Hj. lia.
Qed.

Lemma np_argmin_defined (l : list R) : l <> [] -> exists k, np_argmin l = Some k.
Proof. destruct l; [congruence|]. intros _. eexists. reflexivity. Qed.

Lemma first_argmin_lt (l : list R) k : first_argmin l k -> (k < length l)%nat.
Proof. intros (v & Hv & _). apply lookup_lt_Some in Hv. exact Hv. Qed.

Lemma first_argmin_unique (l : list R) k k' :
  first_argmin l k -> first_argmin l k' -> k = k'.
Proof.
  intros (v & Hv & Hle & Hlt) (v' & Hv' & Hle' & Hlt').
  destruct (lt_eq_lt_dec k k') as [[H|H]|H]; [|exact H|].
  - specialize (Hlt' k v H Hv). specialize (Hle k' v' Hv'). lra.
  - specialize (Hlt k' v' H Hv'). specialize (Hle' k v Hv). lra.
Qed.

Lemma argmax_from_first (p l : list R) best bv :
  p !! best = Some bv ->
  (forall j w, p !! j = Some w -> w <= bv) ->
  (forall j w, (j < best)%nat -> p !! j = Some w -> w < bv) ->
  first_argmax (p ++ l) (argmax_from best bv (length p) l).
Proof.
  revert p best bv. induction l as [|x t IH]; intros p best bv Hb Hle Hlt.
  - simpl. rewrite app_nil_r. exists bv. auto.
  - simpl. replace (p ++ x :: t) with ((p ++ [x]) ++ t) by (rewrite <- app_assoc; reflexivity).
    replace (S (length p)) with (length (p ++ [x])) by (rewrite length_app; simpl; lia).
    destruct (Rlt_dec bv x) as [Hx|Hx].
    + apply IH.
      * rewrite lookup_app_r by lia. rewrite Nat.sub_diag. reflexivity.
      * intros j w Hj. destruct (lt_dec j (length p)) as [Hjp|Hjp].
        -- rewrite lookup_app_l in Hj by exact Hjp. specialize (Hle j w Hj). lra.
        -- rewrite lookup_app_r in Hj by lia.
           destruct (j - length p)%nat; simpl in Hj; [|discriminate].
           inversion Hj. lra.
      * intros j w Hjp Hj. rewrite lookup_app_l in Hj by exact Hjp.
        specialize (Hle j w Hj). lra.
    + apply IH.
      * rewrite lookup_app_l by (apply lookup_lt_Some in Hb; exact Hb). exact Hb.
      * intros j w Hj. destruct (lt_dec j (length p)) as [Hjp|Hjp].
        -- rewrite lookup_app_l in Hj by exact Hjp. exact (Hle j w Hj).
        -- rewrite lookup_app_r in Hj by lia.
           destruct (j - length p)%nat; simpl in Hj; [|discriminate].
           inversion Hj. lra.
      * intros j w Hjb Hj. apply lookup_lt_Some in Hb.
        rewrite lookup_app_l in Hj by lia. exact (Hlt j w Hjb Hj).
Qed.

Lemma np_argmax_first (l : list R) k : np_argmax l = Some k -> first_argmax l k.
Proof.
  destruct l as [|x t]; simpl; [discriminate|]. intros H. inversion H.
  apply (argmax_from_first [x] t 0 x).
  - reflexivity.
  - intros [|j] w Hj; simpl in Hj; [inversion Hj; lra|discriminate].
  - intros j w Hj. lia.
Qed.

Lemma np_argmax_defined (l : list R) : l <> [] -> exists k, np_argmax l = Some k.
Proof. destruct l; [congruence|]. intros _. eexists. reflexivity. Qed.

Lemma first_argmax_lt (l : list R) k : first_argmax l k -> (k < length l)%nat.
Proof. intros (v & Hv & _). apply lookup_lt_Some in Hv. exact Hv. Qed.

Lemma first_argmax_unique (l : list R) k k' :
  first_argmax l k -> first_argmax l k' -> k = k'.
Proof.
  intros (v & Hv & Hle & Hlt) (v' & Hv' & Hle' & Hlt').
  destruct (lt_eq_lt_dec k k') as [[H|H]|H]; [|exact H|].
  - specialize (Hlt' k v H Hv). specialize (Hle k' v' Hv'). lra.
  - specialize (Hlt k' v' H Hv'). specialize (Hle' k v Hv). lra.
Qed.

(** ** The channel activations built by [fit] *)

Lemma fit_valid self n X y C_ C_D_ F :
  self !! "n_channels" = Some (PInt n) -> (2 <= n)%Z ->
  (2 <= length (np_shape X))%nat -> (np_size X 1 < np_size X 0)%nat ->
  np_size X 0 = length y ->
  _define_channels self = (Ok (C_, C_D_), self) ->
  channel_activations C_ C_D_ y = Some F ->
  fit X y self =
    match LinearRegression_fit F X with
    | Ok coef_ =>
        (Ok tt, <["W_" := PLinReg coef_]>
                  (<["C_D_" := PArr (Arr1 C_D_)]> (<["C_" := PArr (Arr2 C_)]> self)))
    | Raise e =>
        (Raise e, <["C_D_" := PArr (Arr1 C_D_)]> (<["C_" := PArr (Arr2 C_)]> self))
    end.
Proof.
  intros Hn H1 H2 H3 H4 Hd HF. rewrite (fit_unfold self X y n Hn), Hd, HF.
  apply Z.ltb_ge in H1. apply Nat.ltb_ge in H2. apply Nat.leb_gt in H3.
  apply Nat.eqb_eq in H4. rewrite H1, H2, H3, H4. reflexivity.
Qed.

Lemma channel_activations_spec (C_ : matrix) (C_D_ y : vec) :
  C_D_ <> [] ->
  exists F,
    channel_activations C_ C_D_ y = Some F /\ length F = length y /\
    forall i y_i, y !! i = Some y_i ->
      exists k, first_argmin (map (fun d => (y_i - d) ^ 2) C_D_) k /\
                F !! i = Some (column k C_).
Proof.
  intros Hne. unfold channel_activations.
  set (f := fun y_i : R =>
              k_min ← np_argmin (map (fun d => (y_i - d) ^ 2) C_D_);
              Some (column k_min C_)).
  assert (Hf : forall y_i, exists k,
             np_argmin (map (fun d => (y_i - d) ^ 2) C_D_) = Some k /\
             f y_i = Some (column k C_)).
  { intros y_i.
    destruct (np_argmin_defined (map (fun d => (y_i - d) ^ 2) C_D_)) as [k Hk].
    { destruct C_D_; [congruence|discriminate]. }
    exists k. split; [exact Hk|]. unfold f. rewrite Hk. reflexivity. }
  induction y as [|y0 y IH].
  - exists []. split; [reflexivity|]. split; [reflexivity|].
    intros i y_i Hi. discriminate.
  - destruct IH as (F & HF & Hlen & Hrows).
    destruct (Hf y0) as (k0 & Hk0 & Hf0).
    exists (column k0 C_ :: F). split.
    { rewrite mapM_Some. constructor; [exact Hf0|].
      apply mapM_Some. exact HF. }
    split; [simpl; rewrite Hlen; reflexivity|].
    intros [|i] y_i Hi; simpl in Hi.
    + inversion Hi; subst y_i. exists k0. split; [|reflexivity].
      apply np_argmin_first. exact Hk0.
    + exact (Hrows i y_i Hi).
Qed.

(** C7: the rows of the channel-activation matrix that [fit] regresses on.
    Row [i] is the column of the basis at the first minimum of
    [(y[i] - C_D[k])^2] over the 180 samples of the domain; a later sample at
    the same distance is never selected. *)
Theorem fit_nearest_sample (self : estimator) (n : Z) (a b : R)
    (C_ : matrix) (C_D_ y : vec) :
  configured self n a b -> (2 <= n)%Z ->
  _define_channels self = (Ok (C_, C_D_), self) ->
  exists F,
    channel_activations C_ C_D_ y = Some F /\ length F = length y /\
    (forall i y_i, y !! i = Some y_i ->
       exists k, (k < 180)%nat /\
                 first_argmin (map (fun d => (y_i - d) ^ 2) C_D_) k /\
                 F !! i = Some (column k C_) /\
                 forall j d_j d_k, C_D_ !! j = Some d_j -> C_D_ !! k = Some d_k ->
                   (y_i - d_j) ^ 2 = (y_i - d_k) ^ 2 -> (k <= j)%nat) /\
    (forall X, (2 <= length (np_shape X))%nat -> (np_size X 1 < np_size X 0)%nat ->
       np_size X 0 = length y ->
       fit X y self =
         match LinearRegression_fit F X with
         | Ok coef_ =>
             (Ok tt, <["W_" := PLinReg coef_]>
                       (<["C_D_" := PArr (Arr1 C_D_)]>
                          (<["C_" := PArr (Arr2 C_)]> self)))
         | Raise e =>
             (Raise e, <["C_D_" := PArr (Arr1 C_D_)]>
                         (<["C_" := PArr (Arr2 C_)]> self))
         end).
Proof.
  intros Hc Hn Hd.
  assert (Hlen : length C_D_ = 180%nat).
  { pose proof Hd as Hd'. rewrite (define_channels_unfold self n a b Hc Hn) in Hd'.
    destruct (Rgt_dec _ _); [discriminate|]. inversion Hd'; subst C_D_.
    unfold domain. rewrite length_map, length_seq. reflexivity. }
  assert (Hne : C_D_ <> []) by (destruct C_D_; [discriminate|congruence]).
  destruct (channel_activations_spec C_ C_D_ y Hne) as (F & HF & HlenF & Hrows).
  exists F. split; [exact HF|]. split; [exact HlenF|]. split.
  - intros i y_i Hi. destruct (Hrows i y_i Hi) as (k & Hk & HFi).
    exists k. split.
    { apply first_argmin_lt in Hk. rewrite length_map, Hlen in Hk. exact Hk. }
    split; [exact Hk|]. split; [exact HFi|].
    intros j d_j d_k Hj Hdk Heq.
    destruct Hk as (v & Hv & _ & Hlt).
    destruct (le_lt_dec k j) as [Hle|Hjk]; [exact Hle|exfalso].
    assert (Hmj : map (fun d => (y_i - d) ^ 2) C_D_ !! j = Some ((y_i - d_j) ^ 2)).
    { change (map (fun d => (y_i - d) ^ 2) C_D_) with ((fun d => (y_i - d) ^ 2) <$> C_D_).
      rewrite list_lookup_fmap, Hj. reflexivity. }
    assert (Hmk : map (fun d => (y_i - d) ^ 2) C_D_ !! k = Some ((y_i - d_k) ^ 2)).
    { change (map (fun d => (y_i - d) ^ 2) C_D_) with ((fun d => (y_i - d) ^ 2) <$> C_D_).
      rewrite list_lookup_fmap, Hdk. reflexivity. }
    rewrite Hmk in Hv. inversion Hv; subst v.
    specialize (Hlt j _ Hjk Hmj). lra.
  - intros X H1 H2 H3. destruct Hc as (Hnc & _).
    exact (fit_valid self n X y C_ C_D_ F Hnc Hn H1 H2 H3 Hd HF).
Qed.

Lemma fit_nearest_sample_default :
  exists F,
    channel_activations (basis 5) (domain 0 180) [0; 90] = Some F /\
    length F = length [0; 90] /\
    (forall i y_i, [0; 90] !! i = Some y_i ->
       exists k, (k < 180)%nat /\
                 first_argmin (map (fun d => (y_i - d) ^ 2) (domain 0 180)) k /\
                 F !! i = Some (column k (basis 5)) /\
                 forall j d_j d_k, domain 0 180 !! j = Some d_j ->
                   domain 0 180 !! k = Some d_k ->
                   (y_i - d_j) ^ 2 = (y_i - d_k) ^ 2 -> (k <= j)%nat) /\
    (forall X, (2 <= length (np_shape X))%nat -> (np_size X 1 < np_size X 0)%nat ->
       np_size X 0 = length [0; 90] ->
       fit X [0; 90] default_estimator =
         match LinearRegression_fit F X with
         | Ok coef_ =>
             (Ok tt, <["W_" := PLinReg coef_]>
                       (<["C_D_" := PArr (Arr1 (domain 0 180))]>
                          (<["C_" := PArr (Arr2 (basis 5))]> default_estimator)))
         | Raise e =>
             (Raise e, <["C_D_" := PArr (Arr1 (domain 0 180))]>
                         (<["C_" := PArr (Arr2 (basis 5))]> default_estimator))
         end).
Proof.
  apply (fit_nearest_sample default_estimator 5 0 180).
  - exact configured_default.
  - lia.
  - apply define_channels_default_ok; [exact configured_default|lia].
Defined.

(** ** Inversion of a successful [fit] *)

Lemma int_of_Some v n : int_of v = Some n -> v = PInt n.
Proof. destruct v; simpl; intros H; inversion H; reflexivity. Qed.

Lemma define_channels_Ok_inv self C_ C_D_ self' :
  _define_channels self = (Ok (C_, C_D_), self') ->
  exists n a b, configured self n a b.
Proof.
  unfold _define_channels. intros H.
  apply bind_Ok_inv in H. destruct H as (vn & s1 & Hvn & H).
  apply getattr_Ok_inv in Hvn. destruct Hvn as (Hvn & ->).
  apply bind_Ok_inv in H. destruct H as (n & s2 & Hn & H).
  apply from_option_Ok_inv in Hn. destruct Hn as (Hn & ->).
  apply int_of_Some in Hn. subst vn.
  apply bind_Ok_inv in H. destruct H as (v0 & s3 & Hv0 & H).
  apply getattr_Ok_inv in Hv0. destruct Hv0 as (Hv0 & ->).
  apply bind_Ok_inv in H. destruct H as (a & s4 & Ha & H).
  apply from_option_Ok_inv in Ha. destruct Ha as (Ha & ->).
  apply bind_Ok_inv in H. destruct H as (v1 & s5 & Hv1 & H).
  apply getattr_Ok_inv in Hv1. destruct Hv1 as (Hv1 & ->).
  apply bind_Ok_inv in H. destruct H as (b & s6 & Hb & H).
  apply from_option_Ok_inv in Hb. destruct Hb as (Hb & ->).
  exists n, a, b. split; [exact Hvn|]. split; eauto.
Qed.

Lemma configured_inj self n a b n' a' b' :
  configured self n a b -> configured self n' a' b' -> n = n' /\ a = a' /\ b = b'.
Proof.
  intros (H1 & (v & Hv & Ha) & (w & Hw & Hb)) (H1' & (v' & Hv' & Ha') & (w' & Hw' & Hb')).
  rewrite H1 in H1'. rewrite Hv in Hv'. rewrite Hw in Hw'.
  inversion H1'. inversion Hv'. inversion Hw'. subst.
  rewrite Ha in Ha'. rewrite Hb in Hb'. inversion Ha'. inversion Hb'. auto.
Qed.

Lemma lstsq_length A b : length (lstsq A b) = ncols A.
Proof. unfold lstsq. rewrite length_map, length_seq. reflexivity. Qed.

Lemma LinearRegression_fit_Ok_inv A B W :
  LinearRegression_fit A B = Ok W ->
  exists Bm, B = Arr2 Bm /\ nrows A <> 0%nat /\ ncols A <> 0%nat /\
             nrows Bm = nrows A /\ ncols Bm <> 0%nat /\
             W = map (fun t => lstsq A (column t Bm)) (seq 0 (ncols Bm)).
Proof.
  unfold LinearRegression_fit. destruct B as [x|v|Bm|sh]; try discriminate.
  destruct (nrows A =? 0)%nat eqn:E1; [discriminate|].
  destruct (ncols A =? 0)%nat eqn:E2; [discriminate|].
  destruct (nrows Bm =? 0)%nat eqn:E3; [discriminate|].
  destruct (ncols Bm =? 0)%nat eqn:E4; [discriminate|].
  destruct (nrows Bm =? nrows A)%nat eqn:E5; [|discriminate].
  simpl. intros H. inversion H. exists Bm.
  apply Nat.eqb_neq in E1, E2, E4. apply Nat.eqb_eq in E5. auto 10.
Qed.

Lemma LinearRegression_fit_Ok A Bm :
  nrows A <> 0%nat -> ncols A <> 0%nat -> nrows Bm = nrows A -> ncols Bm <> 0%nat ->
  LinearRegression_fit A (Arr2 Bm)
  = Ok (map (fun t => lstsq A (column t Bm)) (seq 0 (ncols Bm))).
Proof.
  intros H1 H2 H3 H4. unfold LinearRegression_fit.
  assert (H0 : nrows Bm <> 0%nat) by lia.
  apply Nat.eqb_neq in H1, H2, H4, H0. apply Nat.eqb_eq in H3.
  rewrite H1, H2, H0, H4, H3. reflexivity.
Qed.

(** The weights that [fit] stores for the data [m] and activations [F]. *)
Lemma fit_Ok_inv self X y self' :
  fit X y self = (Ok tt, self') ->
  exists n a b m F,
    configured self n a b /\ (2 <= n)%Z /\ X = Arr2 m /\
    (ncols m < nrows m)%nat /\ nrows m = length y /\ ncols m <> 0%nat /\
    _define_channels self = (Ok (basis n, domain a b), self) /\
    channel_activations (basis n) (domain a b) y = Some F /\
    self' = <["W_" := PLinReg (map (fun t => lstsq F (column t m)) (seq 0 (ncols m)))]>
              (<["C_D_" := PArr (Arr1 (domain a b))]>
                 (<["C_" := PArr (Arr2 (basis n))]> self)).
Proof.
  intros H.
  assert (Hn : exists n, self !! "n_channels" = Some (PInt n)).
  { unfold fit in H. apply bind_Ok_inv in H. destruct H as (vn & s1 & Hvn & H).
    apply getattr_Ok_inv in Hvn. destruct Hvn as (Hvn & ->).
    apply bind_Ok_inv in H. destruct H as (n & s2 & Hn & _).
    apply from_option_Ok_inv in Hn. destruct Hn as (Hn & _).
    apply int_of_Some in Hn. subst vn. exists n. exact Hvn. }
  destruct Hn as (n & Hn). rewrite (fit_unfold self X y n Hn) in H.
  destruct (n <? 2)%Z eqn:E1; [discriminate|].
  destruct (length (np_shape X) <? 2)%nat eqn:E2; [discriminate|].
  destruct (np_size X 0 <=? np_size X 1)%nat eqn:E3; [discriminate|].
  destruct (np_size X 0 =? length y)%nat eqn:E4; [|discriminate].
  simpl negb in H. cbv iota in H.
  apply Z.ltb_ge in E1. apply Nat.leb_gt in E3. apply Nat.eqb_eq in E4.
  destruct (_define_channels self) as [[[C CD]|e] s0] eqn:Hd; [|discriminate].
  destruct (define_channels_Ok_inv _ _ _ _ Hd) as (n' & a & b & Hc).
  assert (n' = n) by (destruct Hc as (Hc & _); rewrite Hn in Hc; inversion Hc; reflexivity).
  subst n'.
  pose proof (read_only_define_channels self) as Hro. rewrite Hd in Hro.
  simpl in Hro. subst s0.
  pose proof Hd as Hd'. rewrite (define_channels_unfold self n a b Hc E1) in Hd'.
  destruct (Rgt_dec _ _); [discriminate|]. inversion Hd'; subst C CD. clear Hd'.
  cbv zeta in H.
  destruct (channel_activations (basis n) (domain a b) y) as [F|] eqn:HF; [|discriminate].
  destruct (LinearRegression_fit F X) as [coef|e] eqn:HL; [|discriminate].
  apply LinearRegression_fit_Ok_inv in HL.
  destruct HL as (m & -> & _ & _ & _ & Hm & ->).
  exists n, a, b, m, F. unfold np_size in E3, E4. simpl in E3, E4.
  inversion H. auto 12.
Qed.

(** ** [predict] on a fitted estimator *)

Lemma predict_channel_responses_eq self C_ C_D_ coef_ X :
  fitted self C_ C_D_ coef_ ->
  _predict_channel_responses X self
  = (LinearRegression_fit coef_ (np_transpose X), self).
Proof.
  intros (_ & _ & HW). unfold _predict_channel_responses.
  run (getattr_Some _ _ _ HW).
  run (from_option_Some TypeError (linreg_of (PLinReg coef_)) coef_ self eq_refl).
  reflexivity.
Qed.

Lemma predict_directions_eq self C_ C_D_ coef_ X :
  fitted self C_ C_D_ coef_ ->
  _predict_directions X self =
    match LinearRegression_fit coef_ (np_transpose X) with
    | Raise e => (Raise e, self)
    | Ok channel_response =>
        if (ncols channel_response =? nrows C_)%nat then
          (Ok (matmul channel_response C_), self)
        else (Raise (ValueError "shapes not aligned"), self)
    end.
Proof.
  intros Hf. pose proof Hf as (HC & _ & _). unfold _predict_directions.
  pose proof (predict_channel_responses_eq self C_ C_D_ coef_ X Hf) as HR.
  destruct (LinearRegression_fit coef_ (np_transpose X)) as [R|e].
  - run HR. run (getattr_Some _ _ _ HC).
    run (from_option_Some TypeError (matrix_of (PArr (Arr2 C_))) C_ self eq_refl).
    unfold np_dot. destruct (ncols R =? nrows C_)%nat; reflexivity.
  - erewrite bind_Raise by exact HR. reflexivity.
Qed.

Lemma predict_tail_eq self C_ C_D_ coef_ (pred_response : matrix) :
  fitted self C_ C_D_ coef_ ->
  (pred_indx <- from_option (ValueError "attempt to get argmax of an empty sequence")
                  (mapM np_argmax pred_response) ;;
   vd <- getattr "C_D_" ;;
   C_D_ <- as_vec vd ;;
   from_option IndexError (mapM (fun k => C_D_ !! k) pred_indx)) self
  = decode pred_response C_D_ self.
Proof.
  intros (_ & HD & _). unfold decode.
  destruct (mapM np_argmax pred_response) as [idx|] eqn:Hidx.
  - run (from_option_Some (ValueError "attempt to get argmax of an empty sequence")
           (Some idx) idx self eq_refl).
    run (getattr_Some _ _ _ HD).
    run (from_option_Some TypeError (vec_of (PArr (Arr1 C_D_))) C_D_ self eq_refl).
    symmetry.
    run (from_option_Some (ValueError "attempt to get argmax of an empty sequence")
           (Some idx) idx self eq_refl).
    reflexivity.
  - reflexivity.
Qed.

Lemma predict_unfold self C_ C_D_ coef_ (m : matrix) :
  fitted self C_ C_D_ coef_ ->
  predict (Arr2 m) self =
    if (nrows m <=? ncols m)%nat then
      (Raise (ValueError "Data Matrix ill-conditioned"), self)
    else
      match LinearRegression_fit coef_ (Arr2 (transpose m)) with
      | Raise e => (Raise e, self)
      | Ok channel_response =>
          if (ncols channel_response =? nrows C_)%nat then
            decode (matmul channel_response C_) C_D_ self
          else (Raise (ValueError "shapes not aligned"), self)
      end.
Proof.
  intros Hf. unfold predict.
  change (length (np_shape (Arr2 m)) <? 2)%nat with false. cbv iota.
  change (np_size (Arr2 m) 0) with (nrows m).
  change (np_size (Arr2 m) 1) with (ncols m).
  destruct (nrows m <=? ncols m)%nat; [reflexivity|].
  pose proof (predict_directions_eq self C_ C_D_ coef_ (Arr2 m) Hf) as HP.
  change (np_transpose (Arr2 m)) with (Arr2 (transpose m)) in HP.
  destruct (LinearRegression_fit coef_ (Arr2 (transpose m))) as [R|e].
  - destruct (ncols R =? nrows C_)%nat.
    + run HP. apply (predict_tail_eq self C_ C_D_ coef_ _ Hf).
    + erewrite bind_Raise by exact HP. reflexivity.
  - erewrite bind_Raise by exact HP. reflexivity.
Qed.

Lemma decode_rows (rows : matrix) (C_D_ : vec) self :
  C_D_ <> [] -> Forall (fun r => length r = length C_D_) rows ->
  exists pred,
    decode rows C_D_ self = (Ok pred, self) /\
    Forall2 (fun r p => exists k, first_argmax r k /\ C_D_ !! k = Some p) rows pred.
Proof.
  intros Hne Hrows.
  assert (H : exists idx pred,
             mapM np_argmax rows = Some idx /\
             mapM (fun k => C_D_ !! k) idx = Some pred /\
             Forall2 (fun r p => exists k, first_argmax r k /\ C_D_ !! k = Some p)
                     rows pred).
  { induction Hrows as [|r rows Hr Hrows IH].
    - exists [], []. repeat split. constructor.
    - destruct IH as (idx & pred & Hidx & Hpred & Hall).
      destruct (np_argmax_defined r) as [k Hk].
      { destruct r; [|discriminate]. destruct C_D_; [congruence|discriminate]. }
      pose proof (np_argmax_first r k Hk) as Hfirst.
      pose proof (first_argmax_lt r k Hfirst) as Hlt. rewrite Hr in Hlt.
      destruct (lookup_lt_is_Some_2 C_D_ k Hlt) as [p Hp].
      exists (k :: idx), (p :: pred). split; [|split].
      + apply mapM_Some. constructor; [exact Hk|]. apply mapM_Some. exact Hidx.
      + apply mapM_Some. constructor; [exact Hp|]. apply mapM_Some. exact Hpred.
      + constructor; [|exact Hall]. exists k. split; assumption. }
  destruct H as (idx & pred & Hidx & Hpred & Hall).
  exists pred. split; [|exact Hall].
  unfold decode. unfold bind.
  rewrite (from_option_Some _ _ idx self Hidx).
  rewrite (from_option_Some _ _ pred self Hpred). reflexivity.
Qed.

Lemma column_length j (m : matrix) : length (column j m) = nrows m.
Proof. unfold column. rewrite length_map. reflexivity. Qed.

Lemma transpose_nrows (m : matrix) : nrows (transpose m) = ncols m.
Proof. unfold transpose, nrows. rewrite length_map, length_seq. reflexivity. Qed.

Lemma ncols_map_seq (f : nat -> list R) n :
  n <> 0%nat -> ncols (map f (seq 0 n)) = length (f 0%nat).
Proof. destruct n as [|n]; [congruence|]. intros _. reflexivity. Qed.

Lemma transpose_ncols (m : matrix) : ncols m <> 0%nat -> ncols (transpose m) = nrows m.
Proof.
  intros H. unfold transpose. rewrite ncols_map_seq by exact H. apply column_length.
Qed.

Lemma matmul_rows (A B : matrix) :
  Forall (fun r => length r = ncols B) (matmul A B).
Proof.
  unfold matmul. apply List.Forall_forall. intros r Hr. apply in_map_iff in Hr.
  destruct Hr as (x & <- & _). rewrite length_map, length_seq. reflexivity.
Qed.

Lemma matmul_nrows (A B : matrix) : nrows (matmul A B) = nrows A.
Proof. unfold matmul, nrows. rewrite length_map. reflexivity. Qed.

(** The rows of the activation matrix are columns of the basis. *)
Lemma channel_activations_ncols (C_ : matrix) (C_D_ y : vec) F :
  channel_activations C_ C_D_ y = Some F -> y <> [] -> ncols F = nrows C_.
Proof.
  unfold channel_activations. intros HF Hy. apply mapM_Some in HF.
  destruct HF as [|y0 r y' F' H0 _]; [congruence|].
  destruct (np_argmin _) as [k|]; simpl in H0; [|discriminate].
  inversion H0. simpl. apply column_length.
Qed.

Lemma channel_activations_nrows (C_ : matrix) (C_D_ y : vec) F :
  channel_activations C_ C_D_ y = Some F -> nrows F = length y.
Proof.
  unfold channel_activations. intros HF. apply mapM_Some in HF.
  apply Forall2_length in HF. unfold nrows. lia.
Qed.

Lemma fitted_after_fit self (C_ : matrix) (C_D_ : vec) (coef_ : matrix) :
  fitted (<["W_" := PLinReg coef_]>
            (<["C_D_" := PArr (Arr1 C_D_)]> (<["C_" := PArr (Arr2 C_)]> self)))
         C_ C_D_ coef_.
Proof.
  unfold fitted. split; [|split].
  - rewrite lookup_insert_ne by discriminate.
    rewrite lookup_insert_ne by discriminate. apply lookup_insert_eq.
  - rewrite lookup_insert_ne by discriminate. apply lookup_insert_eq.
  - apply lookup_insert_eq.
Qed.

(** On a fitted estimator, [predict] returns on every two-dimensional input
    with the unit count of the training data and more trials than units. *)
Lemma predict_defined self0 X0 y0 self (m : matrix) :
  fit X0 y0 self0 = (Ok tt, self) ->
  np_size X0 1 = ncols m -> (ncols m < nrows m)%nat ->
  exists n a b coef_ pred,
    configured self0 n a b /\ (2 <= n)%Z /\
    fitted self (basis n) (domain a b) coef_ /\
    predict (Arr2 m) self = (Ok pred, self) /\
    length pred = nrows m /\
    Forall (fun p => p ∈ domain a b) pred.
Proof.
  intros Hfit Hunits Htall.
  destruct (fit_Ok_inv _ _ _ _ Hfit)
    as (n & a & b & m0 & F & Hc & Hn & -> & Htall0 & Hy0 & Hu0 & Hd & HF & ->).
  change (np_size (Arr2 m0) 1) with (ncols m0) in Hunits.
  set (coef := map (fun t => lstsq F (column t m0)) (seq 0 (ncols m0))).
  pose proof (fitted_after_fit self0 (basis n) (domain a b) coef) as Hfitted.
  assert (HFc : ncols F = Z.to_nat n).
  { rewrite (channel_activations_ncols _ _ _ _ HF).
    - apply basis_length.
    - destruct y0; [simpl in Hy0; lia|discriminate]. }
  assert (Hcr : nrows coef = ncols m0).
  { unfold coef, nrows. rewrite length_map, length_seq. reflexivity. }
  assert (Hcc : ncols coef = Z.to_nat n).
  { unfold coef. rewrite ncols_map_seq by exact Hu0. rewrite lstsq_length. exact HFc. }
  set (R := map (fun t => lstsq coef (column t (transpose m))) (seq 0 (ncols (transpose m)))).
  assert (HL : LinearRegression_fit coef (Arr2 (transpose m)) = Ok R).
  { apply LinearRegression_fit_Ok.
    - lia.
    - lia.
    - rewrite transpose_nrows. lia.
    - rewrite transpose_ncols by lia. lia. }
  assert (HRr : nrows R = nrows m).
  { unfold R, nrows. rewrite length_map, length_seq.
    apply transpose_ncols. lia. }
  assert (HRc : ncols R = Z.to_nat n).
  { unfold R. rewrite ncols_map_seq by (rewrite transpose_ncols; lia).
    rewrite lstsq_length. exact Hcc. }
  assert (Hdom : length (domain a b) = 180%nat)
    by (unfold domain; rewrite length_map, length_seq; reflexivity).
  destruct (decode_rows (matmul R (basis n)) (domain a b)
              (<["W_" := PLinReg coef]>
                 (<["C_D_" := PArr (Arr1 (domain a b))]>
                    (<["C_" := PArr (Arr2 (basis n))]> self0))))
    as (pred & Hdec & Hall).
  { destruct (domain a b); [discriminate|congruence]. }
  { eapply Forall_impl; [apply matmul_rows|]. intros r Hr.
    simpl in Hr. rewrite Hr, basis_ncols by lia. symmetry. exact Hdom. }
  exists n, a, b, coef, pred.
  split; [exact Hc|]. split; [exact Hn|]. split; [exact Hfitted|]. split.
  { rewrite (predict_unfold _ _ _ _ m Hfitted).
    assert (E : (nrows m <=? ncols m)%nat = false) by (apply Nat.leb_gt; lia).
    rewrite E, HL.
    assert (E2 : (ncols R =? nrows (basis n))%nat = true).
    { apply Nat.eqb_eq. rewrite HRc. unfold nrows. rewrite basis_length. reflexivity. }
    rewrite E2. exact Hdec. }
  split.
  { apply Forall2_length in Hall. rewrite <- Hall. rewrite <- HRr.
    apply matmul_nrows. }
  clear -Hall. induction Hall as [|r p rows pred (k & _ & Hk) _ IH]; constructor.
  - apply list_elem_of_lookup. exists k. exact Hk.
  - exact IH.
Qed.

(** ** Least squares: the projection *)

Lemma vdot_ext d u v u' v' :
  (forall i, (i < d)%nat -> u i = u' i) -> (forall i, (i < d)%nat -> v i = v' i) ->
  vdot d u v = vdot d u' v'.
Proof.
  intros Hu Hv. apply bigsum_ext. intros i Hi. rewrite Hu, Hv by exact Hi. reflexivity.
Qed.

Lemma vdot_comm d u v : vdot d u v = vdot d v u.
Proof. apply bigsum_ext. intros i _. ring. Qed.

Lemma vdot_plus_r d u v w :
  vdot d u (fun i => v i + w i) = vdot d u v + vdot d u w.
Proof.
  unfold vdot. rewrite <- bigsum_plus. apply bigsum_ext. intros i _. ring.
Qed.

Lemma vdot_minus_r d u v w :
  vdot d u (fun i => v i - w i) = vdot d u v - vdot d u w.
Proof.
  unfold vdot. rewrite <- bigsum_minus. apply bigsum_ext. intros i _. ring.
Qed.

Lemma vdot_scal_r d u c v : vdot d u (fun i => c * v i) = c * vdot d u v.
Proof.
  unfold vdot. rewrite <- bigsum_scal. apply bigsum_ext. intros i _. ring.
Qed.

Lemma vdot_zero_r d u v : (forall i, (i < d)%nat -> v i = 0) -> vdot d u v = 0.
Proof.
  intros H. apply bigsum_zero. intros i Hi. rewrite H by exact Hi. ring.
Qed.

Lemma vdot_self_nonneg d u : 0 <= vdot d u u.
Proof. apply bigsum_nonneg. intros i _. nra. Qed.

Lemma vdot_self_zero d u : vdot d u u = 0 -> forall i, (i < d)%nat -> u i = 0.
Proof.
  intros H i Hi.
  assert (Hz : u i * u i = 0).
  { apply (bigsum_nonneg_zero d (fun i => u i * u i)); [intros j _; nra|exact H|exact Hi]. }
  nra.
Qed.

(** The scalar product with a linear combination. *)
Lemma vdot_lin d k u w a :
  vdot d u (lin k w a) = bigsum k (fun j => w j * vdot d u (a j)).
Proof.
  unfold vdot, lin.
  rewrite (bigsum_ext d _ (fun i => bigsum k (fun j => w j * (u i * a j i)))).
  - rewrite bigsum_swap. apply bigsum_ext. intros j _. apply bigsum_scal.
  - intros i _. rewrite <- bigsum_scal. apply bigsum_ext. intros j _. ring.
Qed.

Lemma lin_ext k w w' a a' i :
  (forall j, (j < k)%nat -> w j = w' j) -> (forall j, (j < k)%nat -> a j i = a' j i) ->
  lin k w a i = lin k w' a' i.
Proof.
  intros Hw Ha. apply bigsum_ext. intros j Hj. rewrite Hw, Ha by exact Hj. reflexivity.
Qed.

Lemma lin_minus k w w' a i :
  lin k (fun j => w j - w' j) a i = lin k w a i - lin k w' a i.
Proof.
  unfold lin. rewrite <- bigsum_minus. apply bigsum_ext. intros j _. ring.
Qed.

Lemma lin_plus k w w' a i :
  lin k (fun j => w j + w' j) a i = lin k w a i + lin k w' a i.
Proof.
  unfold lin. rewrite <- bigsum_plus. apply bigsum_ext. intros j _. ring.
Qed.

Lemma lin_scal k c w a i : lin k (fun j => c * w j) a i = c * lin k w a i.
Proof.
  unfold lin. rewrite <- bigsum_scal. apply bigsum_ext. intros j _. ring.
Qed.

Lemma proj_coef_S d k a b :
  proj_coef d (S k) a b =
    if Req_dec_T (vdot d (resid d k a (a k)) (resid d k a (a k))) 0 then
      fun j => if (j =? k)%nat then 0 else proj_coef d k a b j
    else
      fun j => if (j =? k)%nat
               then vdot d (resid d k a (a k)) (resid d k a b)
                    / vdot d (resid d k a (a k)) (resid d k a (a k))
               else proj_coef d k a b j
                    - vdot d (resid d k a (a k)) (resid d k a b)
                      / vdot d (resid d k a (a k)) (resid d k a (a k))
                      * proj_coef d k a (a k) j.
Proof. reflexivity. Qed.

Lemma resid_S_degenerate d k a b i :
  vdot d (resid d k a (a k)) (resid d k a (a k)) = 0 ->
  resid d (S k) a b i = resid d k a b i.
Proof.
  intros Hz. unfold resid at 1. rewrite proj_coef_S.
  destruct (Req_dec_T _ 0) as [_|Hn]; [|contradiction].
  unfold lin. simpl bigsum. rewrite Nat.eqb_refl.
  rewrite (bigsum_ext k _ (fun j => proj_coef d k a b j * a j i)).
  - unfold resid, lin. ring.
  - intros j Hj. assert (E : (j =? k)%nat = false) by (apply Nat.eqb_neq; lia).
    rewrite E. reflexivity.
Qed.

Lemma resid_S_regular d k a b i :
  vdot d (resid d k a (a k)) (resid d k a (a k)) <> 0 ->
  resid d (S k) a b i
  = resid d k a b i
    - vdot d (resid d k a (a k)) (resid d k a b)
      / vdot d (resid d k a (a k)) (resid d k a (a k)) * resid d k a (a k) i.
Proof.
  intros Hnz. unfold resid at 1. rewrite proj_coef_S.
  destruct (Req_dec_T _ 0) as [Hz|_]; [contradiction|].
  set (t := vdot d (resid d k a (a k)) (resid d k a b)
            / vdot d (resid d k a (a k)) (resid d k a (a k))).
  unfold lin. simpl bigsum. rewrite Nat.eqb_refl.
  rewrite (bigsum_ext k _
             (fun j => proj_coef d k a b j * a j i
                       - t * (proj_coef d k a (a k) j * a j i))).
  - rewrite bigsum_minus, bigsum_scal. unfold resid, lin. ring.
  - intros j Hj. assert (E : (j =? k)%nat = false) by (apply Nat.eqb_neq; lia).
    rewrite E. ring.
Qed.

(** The projection theorem: the residual is orthogonal to every vector
    projected on. *)
Lemma resid_orth d k a :
  forall b j, (j < k)%nat -> vdot d (a j) (resid d k a b) = 0.
Proof.
  induction k as [|k IH]; intros b j Hj; [lia|].
  assert (Hak : forall v, (forall j, (j < k)%nat -> vdot d (a j) v = 0) ->
                vdot d (a k) v = vdot d (resid d k a (a k)) v).
  { intros v Hv.
    assert (E : vdot d (a k) v
                = vdot d (resid d k a (a k)) v
                  + vdot d (lin k (proj_coef d k a (a k)) a) v).
    { unfold vdot. rewrite <- bigsum_plus. apply bigsum_ext. intros i _.
      unfold resid. ring. }
    rewrite E, (vdot_comm d (lin _ _ _)), vdot_lin.
    rewrite bigsum_zero; [ring|]. intros l Hl.
    rewrite (vdot_comm d v), Hv by exact Hl. ring. }
  destruct (Req_dec_T (vdot d (resid d k a (a k)) (resid d k a (a k))) 0) as [Hz|Hnz].
  - rewrite (vdot_ext d (a j) _ (a j) (resid d k a b));
      [|reflexivity|intros i _; apply resid_S_degenerate; exact Hz].
    destruct (Nat.eq_dec j k) as [->|Hne]; [|apply IH; lia].
    rewrite Hak by (intros l Hl; apply IH; exact Hl).
    rewrite vdot_comm. apply vdot_zero_r. apply vdot_self_zero. exact Hz.
  - set (t := vdot d (resid d k a (a k)) (resid d k a b)
              / vdot d (resid d k a (a k)) (resid d k a (a k))).
    rewrite (vdot_ext d (a j) _ (a j)
               (fun i => resid d k a b i - t * resid d k a (a k) i));
      [|reflexivity|intros i _; apply resid_S_regular; exact Hnz].
    assert (Hlow : forall l, (l < k)%nat ->
               vdot d (a l) (fun i => resid d k a b i - t * resid d k a (a k) i) = 0).
    { intros l Hl. rewrite vdot_minus_r, vdot_scal_r, !IH by exact Hl. ring. }
    destruct (Nat.eq_dec j k) as [->|Hne]; [|apply Hlow; lia].
    rewrite Hak by exact Hlow.
    rewrite vdot_minus_r, vdot_scal_r. unfold t. field. exact Hnz.
Qed.

(** ** Least squares: minimality and minimum norm *)

Lemma mv_lin m n a (z : nat -> R) (w : nat -> R) :
  vdot n (lin m z a) w = bigsum m (fun i => z i * mv n a w i).
Proof. rewrite vdot_comm, vdot_lin. apply bigsum_ext. intros i _. unfold mv. rewrite vdot_comm. reflexivity. Qed.

Lemma mv_minus n a w w' i :
  mv n a (fun j => w j - w' j) i = mv n a w i - mv n a w' i.
Proof. unfold mv. apply vdot_minus_r. Qed.

Lemma mv_ext n a w w' i :
  (forall j, (j < n)%nat -> w j = w' j) -> mv n a w i = mv n a w' i.
Proof. intros H. unfold mv. apply vdot_ext; [reflexivity|exact H]. Qed.

(** [w] solves the normal equations of the system [a w = b]. *)
Lemma normal_any m n a b j :
  (j < n)%nat ->
  vdot m (fun i => a i j) (fun i => b i - mv n a (ls_any m n a b) i) = 0.
Proof.
  intros Hj.
  pose proof (resid_orth m n (fun j i => a i j) b j Hj) as H.
  rewrite <- H. apply vdot_ext; [reflexivity|]. intros i _.
  unfold resid, lin, mv, vdot, ls_any. f_equal. apply bigsum_ext. intros l _. ring.
Qed.

(** Pythagoras for a solution of the normal equations. *)
Lemma rssf_pythagoras m n a b w w' :
  (forall j, (j < n)%nat ->
     vdot m (fun i => a i j) (fun i => b i - mv n a w i) = 0) ->
  rssf m n a b w'
  = rssf m n a b w + vdot m (mv n a (fun j => w j - w' j)) (mv n a (fun j => w j - w' j)).
Proof.
  intros Hn. unfold rssf.
  assert (Hcross : vdot m (fun i => b i - mv n a w i) (mv n a (fun j => w j - w' j)) = 0).
  { rewrite (vdot_ext m _ _ (fun i => b i - mv n a w i)
               (lin n (fun j => w j - w' j) (fun j i => a i j)));
      [|reflexivity|].
    - rewrite vdot_lin. apply bigsum_zero. intros j Hj.
      rewrite vdot_comm, Hn by exact Hj. ring.
    - intros i _. unfold mv, vdot, lin. apply bigsum_ext. intros j _. ring. }
  unfold vdot in *. rewrite <- bigsum_plus.
  replace (bigsum m (fun i => (mv n a w' i - b i) ^ 2))
    with (bigsum m (fun i => (mv n a w' i - b i) ^ 2)
          - 2 * bigsum m (fun i => (b i - mv n a w i) * mv n a (fun j => w j - w' j) i))
    by (rewrite Hcross; ring).
  rewrite <- bigsum_scal, <- bigsum_minus. apply bigsum_ext. intros i _.
  rewrite !mv_minus. ring.
Qed.

Lemma rssf_any_minimal m n a b w' :
  rssf m n a b (ls_any m n a b) <= rssf m n a b w'.
Proof.
  rewrite (rssf_pythagoras m n a b (ls_any m n a b) w').
  - pose proof (vdot_self_nonneg m (mv n a (fun j => ls_any m n a b j - w' j))). lra.
  - intros j Hj. apply normal_any. exact Hj.
Qed.

(** The minimum-norm candidate has the image of the first solution. *)
Lemma mv_ls_min m n a b i :
  (i < m)%nat -> mv n a (ls_min m n a b) i = mv n a (ls_any m n a b) i.
Proof.
  intros Hi.
  pose proof (resid_orth n m a (ls_any m n a b) i Hi) as H.
  unfold resid in H. rewrite vdot_minus_r in H. unfold mv, ls_min. lra.
Qed.

Lemma normal_min m n a b j :
  (j < n)%nat ->
  vdot m (fun i => a i j) (fun i => b i - mv n a (ls_min m n a b) i) = 0.
Proof.
  intros Hj. rewrite <- (normal_any m n a b j Hj).
  apply vdot_ext; [reflexivity|]. intros i Hi. rewrite mv_ls_min by exact Hi. reflexivity.
Qed.

Lemma rssf_min_minimal m n a b w' :
  rssf m n a b (ls_min m n a b) <= rssf m n a b w'.
Proof.
  rewrite (rssf_pythagoras m n a b (ls_min m n a b) w').
  - pose proof (vdot_self_nonneg m (mv n a (fun j => ls_min m n a b j - w' j))). lra.
  - intros j Hj. apply normal_min. exact Hj.
Qed.

(** Two minimisers have the same image. *)
Lemma minimiser_image m n a b w' i :
  rssf m n a b w' <= rssf m n a b (ls_min m n a b) -> (i < m)%nat ->
  mv n a w' i = mv n a (ls_min m n a b) i.
Proof.
  intros Hle Hi.
  pose proof (rssf_pythagoras m n a b (ls_min m n a b) w'
                (fun j Hj => normal_min m n a b j Hj)) as Hp.
  pose proof (vdot_self_nonneg m (mv n a (fun j => ls_min m n a b j - w' j))) as Hpos.
  assert (Hz : vdot m (mv n a (fun j => ls_min m n a b j - w' j))
                      (mv n a (fun j => ls_min m n a b j - w' j)) = 0) by lra.
  pose proof (vdot_self_zero m _ Hz i Hi) as H0. rewrite mv_minus in H0. lra.
Qed.

(** Among the minimisers, [ls_min] has the least norm, and only it has. *)
Lemma ls_min_norm m n a b w' :
  rssf m n a b w' <= rssf m n a b (ls_min m n a b) ->
  vdot n w' w'
  = vdot n (ls_min m n a b) (ls_min m n a b)
    + vdot n (fun j => w' j - ls_min m n a b j) (fun j => w' j - ls_min m n a b j).
Proof.
  intros Hle.
  assert (Hcross : vdot n (ls_min m n a b) (fun j => w' j - ls_min m n a b j) = 0).
  { unfold ls_min at 1. rewrite mv_lin. apply bigsum_zero. intros i Hi.
    rewrite mv_minus, (minimiser_image m n a b w' i Hle Hi). ring. }
  unfold vdot in *.
  replace (bigsum n (fun i => w' i * w' i))
    with (bigsum n (fun i => w' i * w' i)
          - 2 * bigsum n (fun i => ls_min m n a b i * (w' i - ls_min m n a b i)))
    by (rewrite Hcross; ring).
  rewrite <- bigsum_scal, <- bigsum_minus, <- bigsum_plus.
  apply bigsum_ext. intros i _. ring.
Qed.

(** When the system has an exact solution, the solver returns one. *)
Lemma ls_min_exact m n a b w :
  (forall i, (i < m)%nat -> mv n a w i = b i) ->
  forall i, (i < m)%nat -> mv n a (ls_min m n a b) i = b i.
Proof.
  intros Hw i Hi.
  assert (H0 : rssf m n a b w = 0).
  { apply bigsum_zero. intros l Hl. rewrite Hw by exact Hl. ring. }
  pose proof (rssf_min_minimal m n a b w) as Hle. rewrite H0 in Hle.
  assert (Hpos : 0 <= rssf m n a b (ls_min m n a b)).
  { apply bigsum_nonneg. intros l _. apply pow2_ge_0. }
  assert (Hz : rssf m n a b (ls_min m n a b) = 0) by lra.
  pose proof (bigsum_nonneg_zero m _ (fun l _ => pow2_ge_0 _) Hz i Hi) as Hi0.
  simpl in Hi0. nra.
Qed.

(** The solution of minimum norm is orthogonal to the kernel. *)
Lemma ls_min_orth_kernel m n a b v :
  (forall i, (i < m)%nat -> mv n a v i = 0) -> vdot n (ls_min m n a b) v = 0.
Proof.
  intros Hv. unfold ls_min. rewrite mv_lin. apply bigsum_zero.
  intros i Hi. rewrite Hv by exact Hi. ring.
Qed.

(** ** Least squares on arrays *)

Lemma list_as_map_seq (l : list R) : l = map (fun i => nth i l 0) (seq 0 (length l)).
Proof.
  apply list_eq_nth.
  - rewrite length_map, length_seq. reflexivity.
  - intros i Hi. rewrite (nth_map_seq (fun i => nth i l 0)) by exact Hi. reflexivity.
Qed.

Lemma Rsum_nth (l : list R) : Rsum l = bigsum (length l) (fun i => nth i l 0).
Proof. rewrite (list_as_map_seq l) at 1. apply Rsum_map_seq. Qed.

Lemma nth_zip_with (f : R -> R -> R) (u v : list R) i :
  (i < length u)%nat -> (i < length v)%nat ->
  nth i (zip_with f u v) 0 = f (nth i u 0) (nth i v 0).
Proof.
  intros Hu Hv.
  destruct (lookup_lt_is_Some_2 u i Hu) as [x Hx].
  destruct (lookup_lt_is_Some_2 v i Hv) as [y Hy].
  rewrite (nth_of_lookup u i 0 x Hx), (nth_of_lookup v i 0 y Hy).
  apply nth_of_lookup. rewrite lookup_zip_with, Hx. simpl. rewrite Hy. reflexivity.
Qed.

Lemma dot_bigsum (u v : list R) n :
  length u = n -> length v = n ->
  dot u v = bigsum n (fun i => nth i u 0 * nth i v 0).
Proof.
  intros Hu Hv. unfold dot. rewrite Rsum_nth, length_zip_with, Hu, Hv, Nat.min_id.
  apply bigsum_ext. intros i Hi. apply nth_zip_with; lia.
Qed.

Lemma nth_map_default {A : Type} (f : A -> R) (l : list A) (d : A) i :
  (i < length l)%nat -> nth i (map f l) 0 = f (nth i l d).
Proof.
  intros Hi. rewrite (nth_indep _ 0 (f d)) by (rewrite length_map; exact Hi).
  apply map_nth.
Qed.

Lemma rect_row (A : matrix) i :
  rect A -> (i < nrows A)%nat -> length (nth i A []) = ncols A.
Proof.
  intros HA Hi. unfold rect in HA. rewrite List.Forall_forall in HA.
  apply HA. apply nth_In. exact Hi.
Qed.

Lemma matvec_nth (A : matrix) (w : list R) i :
  rect A -> length w = ncols A -> (i < nrows A)%nat ->
  nth i (matvec A w) 0 = mv (ncols A) (entry A) (fun j => nth j w 0) i.
Proof.
  intros HA Hw Hi. unfold matvec.
  rewrite (nth_map_default (fun r => dot r w) A []) by exact Hi.
  rewrite (dot_bigsum _ _ (ncols A)); [reflexivity|apply rect_row; assumption|exact Hw].
Qed.

Lemma rss_rssf (A : matrix) (b w : list R) :
  rect A -> length b = nrows A -> length w = ncols A ->
  rss A b w
  = rssf (nrows A) (ncols A) (entry A) (fun i => nth i b 0) (fun j => nth j w 0).
Proof.
  intros HA Hb Hw. unfold rss, rssf.
  assert (Hlen : length (matvec A w) = nrows A) by (unfold matvec; apply length_map).
  rewrite Rsum_nth, length_map, length_zip_with, Hlen, Hb, Nat.min_id.
  apply bigsum_ext. intros i Hi.
  rewrite (nth_map_default (fun e => e ^ 2) _ 0)
    by (rewrite length_zip_with, Hlen, Hb, Nat.min_id; exact Hi).
  rewrite nth_zip_with by lia. rewrite matvec_nth by assumption. reflexivity.
Qed.

Lemma norm2_vdot (w : list R) :
  norm2 w = vdot (length w) (fun j => nth j w 0) (fun j => nth j w 0).
Proof. unfold norm2. apply dot_bigsum; reflexivity. Qed.

Lemma lstsq_nth (A : matrix) (b : list R) j :
  (j < ncols A)%nat ->
  nth j (lstsq A b) 0
  = ls_min (nrows A) (ncols A) (entry A) (fun i => nth i b 0) j.
Proof.
  intros Hj. unfold lstsq.
  rewrite (nth_map_seq
             (fun j => bigsum (nrows A)
                (fun i => proj_coef (ncols A) (nrows A) (entry A)
                            (proj_coef (nrows A) (ncols A) (fun j i => entry A i j)
                               (fun i => nth i b 0)) i * entry A i j)))
    by exact Hj.
  reflexivity.
Qed.

Lemma rssf_ext m n a b w w' :
  (forall j, (j < n)%nat -> w j = w' j) -> rssf m n a b w = rssf m n a b w'.
Proof.
  intros H. apply bigsum_ext. intros i _. rewrite (mv_ext n a w w' i H). reflexivity.
Qed.

Lemma rss_lstsq (A : matrix) (b : list R) :
  rect A -> length b = nrows A ->
  rss A b (lstsq A b)
  = rssf (nrows A) (ncols A) (entry A) (fun i => nth i b 0)
         (ls_min (nrows A) (ncols A) (entry A) (fun i => nth i b 0)).
Proof.
  intros HA Hb. rewrite rss_rssf by (try assumption; apply lstsq_length).
  apply rssf_ext. intros j Hj. apply lstsq_nth. exact Hj.
Qed.

(** The solver meets its contract. *)
Lemma lstsq_is_lstsq (A : matrix) (b : list R) :
  rect A -> length b = nrows A -> is_lstsq A b (lstsq A b).
Proof.
  intros HA Hb. split; [apply lstsq_length|]. split.
  - intros w' Hw'. rewrite rss_lstsq by assumption.
    rewrite (rss_rssf A b w') by assumption. apply rssf_min_minimal.
  - intros w' Hw' Hle. rewrite rss_lstsq in Hle by assumption.
    rewrite (rss_rssf A b w') in Hle by assumption.
    pose proof (ls_min_norm _ _ _ _ _ Hle) as Hn.
    rewrite !norm2_vdot, lstsq_length, Hw'.
    rewrite Hn.
    rewrite (vdot_ext (ncols A) (fun j => nth j (lstsq A b) 0) (fun j => nth j (lstsq A b) 0)
               (ls_min (nrows A) (ncols A) (entry A) (fun i => nth i b 0))
               (ls_min (nrows A) (ncols A) (entry A) (fun i => nth i b 0)))
      by (intros j Hj; apply lstsq_nth; exact Hj).
    pose proof (vdot_self_nonneg (ncols A)
                  (fun j => nth j w' 0
                            - ls_min (nrows A) (ncols A) (entry A) (fun i => nth i b 0) j)).
    lra.
Qed.

(** The contract determines the solution. *)
Lemma is_lstsq_unique (A : matrix) (b w : list R) :
  rect A -> length b = nrows A -> is_lstsq A b w -> w = lstsq A b.
Proof.
  intros HA Hb (Hlen & Hmin & Hnorm).
  pose proof (lstsq_is_lstsq A b HA Hb) as (Hlen' & Hmin' & _).
  pose proof (Hmin (lstsq A b) Hlen') as H1.
  pose proof (Hmin' w Hlen) as H2.
  pose proof (Hnorm (lstsq A b) Hlen' H2) as H3.
  rewrite rss_lstsq in H1 by assumption.
  rewrite (rss_rssf A b w) in H1 by assumption.
  pose proof (ls_min_norm _ _ _ _ _ H1) as Hn.
  rewrite !norm2_vdot, lstsq_length, Hlen in H3.
  rewrite (vdot_ext (ncols A) (fun j => nth j (lstsq A b) 0) (fun j => nth j (lstsq A b) 0)
             (ls_min (nrows A) (ncols A) (entry A) (fun i => nth i b 0))
             (ls_min (nrows A) (ncols A) (entry A) (fun i => nth i b 0))) in H3
    by (intros j Hj; apply lstsq_nth; exact Hj).
  pose proof (vdot_self_nonneg (ncols A)
                (fun j => nth j w 0
                          - ls_min (nrows A) (ncols A) (entry A) (fun i => nth i b 0) j))
    as Hpos.
  assert (Hz : vdot (ncols A)
                 (fun j => nth j w 0
                           - ls_min (nrows A) (ncols A) (entry A) (fun i => nth i b 0) j)
                 (fun j => nth j w 0
                           - ls_min (nrows A) (ncols A) (entry A) (fun i => nth i b 0) j)
               = 0) by lra.
  apply list_eq_nth; [rewrite Hlen, Hlen'; reflexivity|].
  rewrite Hlen. intros j Hj. rewrite lstsq_nth by exact Hj.
  pose proof (vdot_self_zero _ _ Hz j Hj) as H0. simpl in H0. lra.
Qed.

(** Zero targets give zero coefficients. *)
Lemma lstsq_zero (A : matrix) (b : list R) :
  rect A -> length b = nrows A -> (forall i, nth i b 0 = 0) ->
  lstsq A b = map (fun _ => 0) (seq 0 (ncols A)).
Proof.
  intros HA Hb Hz. symmetry. apply is_lstsq_unique; [assumption..|].
  set (z := map (fun _ : nat => 0) (seq 0 (ncols A))).
  assert (Hlen : length z = ncols A) by (unfold z; rewrite length_map, length_seq; reflexivity).
  assert (Hz0 : forall j, nth j z 0 = 0).
  { intros j. destruct (lt_dec j (ncols A)) as [Hj|Hj].
    - unfold z. rewrite (nth_map_seq (fun _ => 0)) by exact Hj. reflexivity.
    - apply nth_overflow. lia. }
  assert (Hrss : rss A b z = 0).
  { rewrite rss_rssf by assumption. apply bigsum_zero. intros i _.
    rewrite Hz. unfold mv. rewrite vdot_zero_r by (intros j _; apply Hz0). ring. }
  split; [exact Hlen|]. split.
  - intros w' Hw'. rewrite Hrss. rewrite rss_rssf by assumption.
    apply bigsum_nonneg. intros i _. apply pow2_ge_0.
  - intros w' Hw' _. rewrite !norm2_vdot.
    rewrite (vdot_zero_r _ _ _ (fun j _ => Hz0 j)). apply vdot_self_nonneg.
Qed.

(** ** The estimator on data that is identically zero *)

Lemma argmax_from_le best bv i (l : list R) :
  (forall x, In x l -> x <= bv) -> argmax_from best bv i l = best.
Proof.
  revert i. induction l as [|x t IH]; intros i H; simpl; [reflexivity|].
  destruct (Rlt_dec bv x) as [Hx|_].
  - specialize (H x (or_introl eq_refl)). lra.
  - apply IH. intros z Hz. apply H. right. exact Hz.
Qed.

Lemma np_argmax_const (l : list R) c :
  l <> [] -> (forall x, In x l -> x = c) -> np_argmax l = Some 0%nat.
Proof.
  destruct l as [|x t]; [congruence|]. intros _ H. simpl. f_equal.
  apply argmax_from_le. intros z Hz.
  rewrite (H x (or_introl eq_refl)), (H z (or_intror Hz)). lra.
Qed.

Lemma dot_zero_l (u v : list R) : (forall x, In x u -> x = 0) -> dot u v = 0.
Proof.
  revert v. induction u as [|x u IH]; intros v H; [reflexivity|].
  destruct v as [|y v]; [reflexivity|].
  unfold dot in *. simpl. rewrite (H x (or_introl eq_refl)).
  rewrite (IH v) by (intros z Hz; apply H; right; exact Hz). ring.
Qed.

Lemma channel_activations_rect (C_ : matrix) (C_D_ y : vec) F :
  channel_activations C_ C_D_ y = Some F ->
  Forall (fun r => length r = nrows C_) F.
Proof.
  unfold channel_activations. intros HF. apply mapM_Some in HF.
  induction HF as [|y0 r y' F' H0 _ IH]; constructor; [|exact IH].
  destruct (np_argmin _) as [k|]; simpl in H0; [|discriminate].
  inversion H0. apply column_length.
Qed.

(** Fitting the default-shaped estimator on two trials of one unit whose
    data is zero stores zero weights; predicting on the same data then
    decodes every trial to the first sample of the domain. *)
Lemma zero_data_pipeline self0 (n : Z) a b (y : vec) :
  configured self0 n a b -> (2 <= n)%Z ->
  _define_channels self0 = (Ok (basis n, domain a b), self0) ->
  length y = 2%nat ->
  exists self,
    fit (Arr2 [[0]; [0]]) y self0 = (Ok tt, self) /\
    predict (Arr2 [[0]; [0]]) self = (Ok [a; a], self).
Proof.
  intros Hc Hn Hd Hy.
  assert (Hne : domain a b <> []) by discriminate.
  destruct (channel_activations_spec (basis n) (domain a b) y Hne)
    as (F & HF & HlenF & _).
  pose proof (channel_activations_rect _ _ _ _ HF) as HFrect.
  assert (HFc : ncols F = Z.to_nat n).
  { rewrite (channel_activations_ncols _ _ _ _ HF).
    - apply basis_length.
    - destruct y; [discriminate|congruence]. }
  assert (HFr : rect F).
  { unfold rect. eapply Forall_impl; [exact HFrect|]. intros r Hr. simpl in Hr.
    rewrite Hr, HFc. apply basis_length. }
  set (zN := map (fun _ : nat => 0) (seq 0 (Z.to_nat n))).
  assert (HzN : forall x, In x zN -> x = 0).
  { intros x Hx. apply in_map_iff in Hx. destruct Hx as (? & <- & _). reflexivity. }
  assert (HzNlen : length zN = Z.to_nat n)
    by (unfold zN; rewrite length_map, length_seq; reflexivity).
  assert (Hcoef : LinearRegression_fit F (Arr2 [[0]; [0]]) = Ok [zN]).
  { rewrite LinearRegression_fit_Ok.
    - simpl. f_equal. f_equal. unfold zN. rewrite <- HFc.
      apply lstsq_zero; [exact HFr|simpl; unfold nrows; lia|].
      intros [|[|i]]; try reflexivity. destruct i; reflexivity.
    - unfold nrows. lia.
    - lia.
    - unfold nrows. simpl. lia.
    - simpl. lia. }
  destruct Hc as (Hnc & Hrest).
  pose proof (fit_valid self0 n (Arr2 [[0]; [0]]) y (basis n) (domain a b) F Hnc Hn)
    as Hfit.
  rewrite Hcoef in Hfit.
  eexists. split.
  { apply Hfit; try assumption; unfold np_size; simpl; lia. }
  set (self := <["W_" := PLinReg [zN]]>
                 (<["C_D_" := PArr (Arr1 (domain a b))]>
                    (<["C_" := PArr (Arr2 (basis n))]> self0))).
  pose proof (fitted_after_fit self0 (basis n) (domain a b) [zN]) as Hfitted.
  fold self in Hfitted.
  rewrite (predict_unfold self _ _ _ [[0%R]; [0%R]] Hfitted).
  change (nrows [[0%R]; [0%R]] <=? ncols [[0%R]; [0%R]])%nat with false. cbv iota.
  change (transpose [[0]; [0]]) with [[0; 0]].
  assert (HR : LinearRegression_fit [zN] (Arr2 [[0; 0]]) = Ok [zN; zN]).
  { rewrite LinearRegression_fit_Ok.
    - assert (E : lstsq [zN] [0] = zN).
      { unfold zN at 2. rewrite <- HzNlen. apply lstsq_zero.
        - constructor; [reflexivity|constructor].
        - reflexivity.
        - intros [|[|i]]; reflexivity. }
      simpl. unfold column. simpl. rewrite E. reflexivity.
    - discriminate.
    - simpl. lia.
    - reflexivity.
    - discriminate. }
  rewrite HR.
  assert (E2 : (ncols [zN; zN] =? nrows (basis n))%nat = true).
  { apply Nat.eqb_eq. simpl. unfold nrows. rewrite HzNlen, basis_length. reflexivity. }
  rewrite E2.
  assert (Hrow : forall r, In r (matmul [zN; zN] (basis n)) ->
                 np_argmax r = Some 0%nat).
  { intros r Hr. unfold matmul in Hr. apply in_map_iff in Hr.
    destruct Hr as (u & <- & Hu).
    assert (Hu0 : forall x, In x u -> x = 0).
    { destruct Hu as [<-|[<-|[]]]; exact HzN. }
    apply (np_argmax_const _ 0).
    - rewrite basis_ncols by lia. discriminate.
    - intros x Hx. apply in_map_iff in Hx. destruct Hx as (j & <- & _).
      apply dot_zero_l. exact Hu0. }
  assert (H0 : domain a b !! 0%nat = Some a).
  { unfold domain. rewrite (lookup_map_seq (fun j => a + INR j * (b - a) / 179)) by lia.
    f_equal. change (INR 0) with 0. field. }
  destruct (decode_rows (matmul [zN; zN] (basis n)) (domain a b) self Hne)
    as (pred & Hdec & Hall).
  { eapply Forall_impl; [apply matmul_rows|]. intros r Hr. simpl in Hr.
    rewrite Hr, basis_ncols by lia. unfold domain.
    rewrite length_map, length_seq. reflexivity. }
  rewrite Hdec. f_equal. f_equal.
  assert (Hp : forall r p, In r (matmul [zN; zN] (basis n)) ->
                 (exists k, first_argmax r k /\ domain a b !! k = Some p) -> p = a).
  { intros r p Hr (k & Hk & Hp).
    pose proof (np_argmax_first r 0 (Hrow r Hr)) as Hk0.
    rewrite (first_argmax_unique r k 0 Hk Hk0) in Hp. rewrite H0 in Hp.
    inversion Hp. reflexivity. }
  unfold matmul in Hall, Hp. cbn [map] in Hall, Hp.
  inversion Hall as [|r1 p1 rs1 ps1 H1 Hall1]; subst.
  inversion Hall1 as [|r2 p2 rs2 ps2 H2 Hall2]; subst.
  inversion Hall2; subst.
  rewrite (Hp _ p1 (or_introl eq_refl) H1).
  rewrite (Hp _ p2 (or_intror (or_introl eq_refl)) H2). reflexivity.
Qed.

Lemma LinearRegression_fit_mismatch A Bm :
  nrows A <> 0%nat -> ncols A <> 0%nat -> nrows Bm <> 0%nat -> ncols Bm <> 0%nat ->
  nrows Bm <> nrows A ->
  LinearRegression_fit A (Arr2 Bm)
  = Raise (ValueError "Found input variables with inconsistent numbers of samples").
Proof.
  intros H1 H2 H3 H4 H5. unfold LinearRegression_fit.
  apply Nat.eqb_neq in H1, H2, H3, H4, H5. rewrite H1, H2, H3, H4, H5. reflexivity.
Qed.

(** The default estimator fitted on two zero trials of one unit. *)
Lemma default_zero_fit (y : vec) :
  length y = 2%nat ->
  exists self coef_,
    fit (Arr2 [[0]; [0]]) y default_estimator = (Ok tt, self) /\
    fitted self (basis 5) (domain 0 180) coef_ /\
    nrows coef_ = 1%nat /\ ncols coef_ = 5%nat /\
    predict (Arr2 [[0]; [0]]) self = (Ok [0; 0], self).
Proof.
  intros Hy.
  assert (Hd : _define_channels default_estimator
               = (Ok (basis 5, domain 0 180), default_estimator))
    by (apply define_channels_default_ok; [exact configured_default|lia]).
  destruct (zero_data_pipeline default_estimator 5 0 180 y configured_default
              ltac:(lia) Hd Hy) as (self & Hfit & Hpred).
  destruct (fit_Ok_inv _ _ _ _ Hfit)
    as (n & a & b & m & F & Hc & Hn & Hm & _ & _ & _ & _ & HF & Hself).
  destruct (configured_inj _ _ _ _ _ _ _ Hc configured_default) as (-> & -> & ->).
  inversion Hm; subst m. clear Hm.
  exists self, (map (fun t => lstsq F (column t [[0]; [0]])) (seq 0 (ncols [[0%R]; [0%R]]))).
  split; [exact Hfit|]. split; [rewrite Hself; apply fitted_after_fit|].
  split; [reflexivity|]. split; [|exact Hpred].
  simpl. rewrite lstsq_length.
  rewrite (channel_activations_ncols _ _ _ _ HF).
  - apply basis_length.
  - destruct y; [discriminate|congruence].
Qed.

(** C4 (amended): on a fitted estimator, for every two-dimensional input
    with the unit count of the training data and more trials than units,
    [predict] returns one value per trial, each an element of the stored
    domain, which holds the 180 evenly spaced values from [range_start] to
    [range_stop] of the fit; the instance dictionary is not changed. *)
Theorem predict_in_domain (self0 : estimator) (X0 : ndarray) (y0 : vec)
    (self : estimator) (m : matrix) :
  fit X0 y0 self0 = (Ok tt, self) ->
  np_size X0 1 = ncols m -> (ncols m < nrows m)%nat ->
  exists n a b coef_ pred,
    configured self0 n a b /\ (2 <= n)%Z /\
    fitted self (basis n) (domain a b) coef_ /\
    predict (Arr2 m) self = (Ok pred, self) /\
    length pred = nrows m /\
    Forall (fun p => p ∈ domain a b) pred.
Proof. exact (predict_defined self0 X0 y0 self m). Qed.

Lemma predict_in_domain_default :
  exists self0 X0 y0 self m,
    fit X0 y0 self0 = (Ok tt, self) /\
    np_size X0 1 = ncols m /\ (ncols m < nrows m)%nat /\
    exists n a b coef_ pred,
      configured self0 n a b /\ (2 <= n)%Z /\
      fitted self (basis n) (domain a b) coef_ /\
      predict (Arr2 m) self = (Ok pred, self) /\
      length pred = nrows m /\
      Forall (fun p => p ∈ domain a b) pred.
Proof.
  destruct (default_zero_fit [0; 0] eq_refl) as (self & coef & Hfit & _).
  exists default_estimator, (Arr2 [[0]; [0]]), [0; 0], self, [[1]; [2]; [3]].
  split; [exact Hfit|]. split; [reflexivity|]. split; [simpl; lia|].
  apply (predict_in_domain default_estimator (Arr2 [[0]; [0]]) [0; 0] self
           [[1]; [2]; [3]] Hfit); [reflexivity|simpl; lia].
Defined.

(** C4 fails without the unit count of the training data: an estimator
    fitted on one unit raises on an input of three trials of two units. *)
Lemma predict_unit_mismatch_raises :
  exists self,
    fit (Arr2 [[0]; [0]]) [0; 0] default_estimator = (Ok tt, self) /\
    predict (Arr2 [[0; 0]; [0; 0]; [0; 0]]) self
    = (Raise (ValueError "Found input variables with inconsistent numbers of samples"),
       self).
Proof.
  destruct (default_zero_fit [0; 0] eq_refl)
    as (self & coef & Hfit & Hfitted & Hr & Hc & _).
  exists self. split; [exact Hfit|].
  rewrite (predict_unfold self _ _ _ [[0%R; 0%R]; [0%R; 0%R]; [0%R; 0%R]] Hfitted).
  change (nrows [[0%R; 0%R]; [0%R; 0%R]; [0%R; 0%R]]
          <=? ncols [[0%R; 0%R]; [0%R; 0%R]; [0%R; 0%R]])%nat with false.
  cbv iota.
  rewrite LinearRegression_fit_mismatch; [reflexivity|lia|lia| | |].
  - rewrite transpose_nrows. simpl. lia.
  - rewrite transpose_ncols; simpl; lia.
  - rewrite transpose_nrows, Hr. simpl. lia.
Qed.

(** ** [score] *)

Lemma score_unfold self X y pred :
  predict X self = (Ok pred, self) ->
  score X y self
  = from_option (ValueError "operands could not be broadcast together")
      (rss_of y pred) self.
Proof. intros H. unfold score. run H. reflexivity. Qed.

Lemma rss_of_same_length (y pred : vec) :
  length pred = length y ->
  rss_of y pred
  = Some (xrsub 1 (xdiv (Rsum (map (fun e => e ^ 2) (zip_with Rminus y pred)))
                        (Rsum (map (fun e => (e - np_mean y) ^ 2) y)))).
Proof.
  intros H. unfold rss_of, np_sub.
  assert (E : (length y =? length pred)%nat = true) by (apply Nat.eqb_eq; lia).
  rewrite E. reflexivity.
Qed.

Lemma Rsum_zero (l : list R) : (forall x, In x l -> x = 0) -> Rsum l = 0.
Proof.
  induction l as [|x l IH]; intros H; [reflexivity|].
  unfold Rsum in *. simpl. rewrite (H x (or_introl eq_refl)).
  rewrite IH by (intros z Hz; apply H; right; exact Hz). ring.
Qed.

Lemma Rsum_nonneg (l : list R) : (forall x, In x l -> 0 <= x) -> 0 <= Rsum l.
Proof.
  induction l as [|x l IH]; intros H; unfold Rsum in *; simpl; [lra|].
  assert (0 <= x) by (apply H; left; reflexivity).
  assert (0 <= fold_right Rplus 0 l) by (apply IH; intros z Hz; apply H; right; exact Hz).
  lra.
Qed.

Lemma Rsum_squares_nonneg (f : R -> R) (l : list R) :
  0 <= Rsum (map (fun e => f e ^ 2) l).
Proof.
  apply Rsum_nonneg. intros x Hx. apply in_map_iff in Hx.
  destruct Hx as (e & <- & _). apply pow2_ge_0.
Qed.

Lemma zip_with_minus_self (y : list R) x :
  In x (zip_with Rminus y y) -> x = 0.
Proof.
  induction y as [|a y IH]; simpl; [contradiction|].
  intros [<-|H]; [ring|apply IH; exact H].
Qed.

Lemma zip_with_minus_const (y pred : list R) c :
  length pred = length y -> (forall p, In p pred -> p = c) ->
  zip_with Rminus y pred = map (fun e => e - c) y.
Proof.
  revert pred. induction y as [|a y IH]; intros [|p pred] Hlen H; simpl in *;
    try discriminate; [reflexivity|].
  rewrite (H p (or_introl eq_refl)). f_equal.
  apply IH; [lia|]. intros q Hq. apply H. right. exact Hq.
Qed.

Lemma Rsum_const (l : list R) c :
  (forall x, In x l -> x = c) -> Rsum l = INR (length l) * c.
Proof.
  induction l as [|x l IH]; intros H.
  - simpl. unfold Rsum. simpl. ring.
  - change (Rsum (x :: l)) with (x + Rsum l).
    change (length (x :: l)) with (S (length l)). rewrite S_INR.
    rewrite IH by (intros z Hz; apply H; right; exact Hz).
    rewrite (H x (or_introl eq_refl)). ring.
Qed.

Lemma np_mean_const (y : list R) c :
  y <> [] -> (forall e, In e y -> e = c) -> np_mean y = c.
Proof.
  intros Hne H. unfold np_mean. rewrite (Rsum_const y c H).
  field. apply not_0_INR. destruct y; [congruence|discriminate].
Qed.

(** The denominator of [score] vanishes on a constant [y]. *)
Lemma variance_const (y : list R) c :
  y <> [] -> (forall e, In e y -> e = c) ->
  Rsum (map (fun e => (e - np_mean y) ^ 2) y) = 0.
Proof.
  intros Hne H. rewrite (np_mean_const y c Hne H).
  apply Rsum_zero. intros x Hx. apply in_map_iff in Hx.
  destruct Hx as (e & <- & He). rewrite (H e He). ring.
Qed.

Lemma score_value self X y pred :
  predict X self = (Ok pred, self) -> length pred = length y ->
  score X y self
  = (Ok (xrsub 1 (xdiv (Rsum (map (fun e => e ^ 2) (zip_with Rminus y pred)))
                       (Rsum (map (fun e => (e - np_mean y) ^ 2) y)))), self).
Proof.
  intros Hp Hlen. rewrite (score_unfold self X y pred Hp).
  rewrite (rss_of_same_length y pred Hlen). reflexivity.
Qed.

(** C6 (amended): when [predict] returns one prediction per entry of [y] and
    [y] is not constant (the sum of squared deviations from its mean is not
    zero), [score] returns [1 - sum (y - pred)^2 / sum (y - mean y)^2]; it is
    1 when the predictions equal [y], and 0 when every prediction equals the
    mean of [y]. *)
Theorem score_formula (self : estimator) (X : ndarray) (y pred : vec) :
  predict X self = (Ok pred, self) -> length pred = length y ->
  Rsum (map (fun e => (e - np_mean y) ^ 2) y) <> 0 ->
  score X y self
  = (Ok (Finite (1 - Rsum (map (fun e => e ^ 2) (zip_with Rminus y pred))
                     / Rsum (map (fun e => (e - np_mean y) ^ 2) y))), self) /\
  (pred = y -> score X y self = (Ok (Finite 1), self)) /\
  ((forall p, In p pred -> p = np_mean y) -> score X y self = (Ok (Finite 0), self)).
Proof.
  intros Hp Hlen Hv. rewrite (score_value self X y pred Hp Hlen).
  unfold xdiv. destruct (Req_dec_T _ 0) as [Hz|_]; [contradiction|].
  split; [reflexivity|]. split.
  - intros E. subst pred. cbn [xrsub]. do 3 f_equal.
    rewrite (Rsum_zero (map (fun e => e ^ 2) (zip_with Rminus y y))).
    + field. exact Hv.
    + intros x Hx. apply in_map_iff in Hx. destruct Hx as (e & <- & He).
      rewrite (zip_with_minus_self y e He). ring.
  - intros Hmean. cbn [xrsub]. do 3 f_equal.
    rewrite (zip_with_minus_const y pred (np_mean y) Hlen Hmean), map_map.
    field. exact Hv.
Qed.

Lemma score_formula_example :
  exists self,
    fit (Arr2 [[0]; [0]]) [0; 90] default_estimator = (Ok tt, self) /\
    predict (Arr2 [[0]; [0]]) self = (Ok [0; 0], self) /\
    score (Arr2 [[0]; [0]]) [0; 90] self
    = (Ok (Finite (1 - Rsum (map (fun e => e ^ 2) (zip_with Rminus [0; 90] [0; 0]))
                       / Rsum (map (fun e => (e - np_mean [0; 90]) ^ 2) [0; 90]))),
       self).
Proof.
  destruct (default_zero_fit [0; 90] eq_refl) as (self & coef & Hfit & _ & _ & _ & Hp).
  exists self. split; [exact Hfit|]. split; [exact Hp|].
  apply (score_formula self (Arr2 [[0]; [0]]) [0; 90] [0; 0] Hp eq_refl).
  unfold np_mean, Rsum. simpl. lra.
Defined.

(** C6 fails on a constant [y]: the predictions equal [y] exactly and yet the
    score is NaN. *)
Lemma score_perfect_constant_is_nan :
  exists self,
    fit (Arr2 [[0]; [0]]) [0; 0] default_estimator = (Ok tt, self) /\
    predict (Arr2 [[0]; [0]]) self = (Ok [0; 0], self) /\
    score (Arr2 [[0]; [0]]) [0; 0] self = (Ok NaN, self).
Proof.
  destruct (default_zero_fit [0; 0] eq_refl) as (self & coef & Hfit & _ & _ & _ & Hp).
  exists self. split; [exact Hfit|]. split; [exact Hp|].
  rewrite (score_value self _ [0; 0] [0; 0] Hp eq_refl).
  assert (Hu : Rsum (map (fun e => e ^ 2) (zip_with Rminus [0; 0] [0; 0])) = 0)
    by (unfold Rsum; simpl; lra).
  assert (Hv : Rsum (map (fun e => (e - np_mean [0; 0]) ^ 2) [0; 0]) = 0)
    by (apply (variance_const [0; 0] 0); [discriminate|];
        intros e [<-|[<-|[]]]; reflexivity).
  rewrite Hu, Hv. unfold xdiv.
  destruct (Req_dec_T 0 0) as [_|H]; [reflexivity|contradiction].
Qed.

(** *** The denominator of [score] on binary64 numbers *)

Lemma is_finite_spec (c : float) :
  is_finite c = true ->
  (exists s, Prim2SF c = S754_zero s) \/ (exists s m e, Prim2SF c = S754_finite s m e).
Proof.
  intros H. unfold is_finite, is_nan, is_infinity in H.
  rewrite !FloatAxioms.eqb_spec, abs_spec in H.
  destruct (Prim2SF c) as [s|s| |s m e] eqn:E.
  - left. eauto.
  - exfalso. destruct s; vm_compute in H; discriminate.
  - exfalso. vm_compute in H. discriminate.
  - right. eauto.
Qed.

Lemma float_sub_diag (c : float) : is_finite c = true -> (c - c)%float = 0%float.
Proof.
  intros H. apply Prim2SF_inj. rewrite sub_spec.
  change (Prim2SF 0) with (S754_zero false).
  destruct (is_finite_spec c H) as [(s & E)|(s & m & e & E)]; rewrite E.
  - destruct s; reflexivity.
  - unfold SF64sub, SFsub.
    set (z := cond_Zopp s (Z.pos (fst (shl_align m e (Z.min e e))))).
    change (IntDef.Z.sub z z) with (Z.sub z z). rewrite Z.sub_diag. reflexivity.
Qed.

Lemma np_sum64_zeros (l : list float) :
  Forall (fun e => e = 0%float) l -> np_sum64 l = 0%float.
Proof.
  unfold np_sum64. induction 1 as [|e l He _ IH]; [reflexivity|].
  simpl. rewrite He. exact IH.
Qed.

Lemma binary_round_aux_not_negative m e l :
  sf_not_negative (binary_round_aux prec emax false m e l).
Proof.
  unfold binary_round_aux.
  destruct (shr_fexp prec emax m e l) as [mrs' e'].
  destruct (shr_fexp prec emax _ e' loc_Exact) as [mrs'' e''].
  destruct (shr_m mrs''); [exact I| |exact I].
  destruct (e'' <=? emax - prec)%Z; exact I.
Qed.

Lemma SF64mul_square_not_negative x : sf_not_negative (SF64mul x x).
Proof.
  destruct x as [s|s| |s m e]; try exact I.
  - destruct s; exact I.
  - unfold SF64mul, SFmul. replace (xorb s s) with false by (destruct s; reflexivity).
    apply binary_round_aux_not_negative.
Qed.

Lemma SF64add_not_negative x y :
  sf_not_negative x -> sf_not_negative y -> sf_not_negative (SF64add x y).
Proof.
  destruct x as [sx|sx| |sx mx ex], y as [sy|sy| |sy my ey]; simpl;
    try (destruct sx); try (destruct sy); try contradiction; try (intros; exact I).
  intros _ _. unfold SF64add, SFadd. cbn [cond_Zopp].
  set (a := fst (shl_align mx ex (IntDef.Z.min ex ey))).
  set (b := fst (shl_align my ey (IntDef.Z.min ex ey))).
  change (IntDef.Z.add (Z.pos a) (Z.pos b)) with (Z.pos (a + b)).
  unfold binary_normalize, binary_round.
  destruct (shl_align (a + b) _ _) as [mz ez]. apply binary_round_aux_not_negative.
Qed.

Lemma np_sum64_not_negative (l : list float) :
  Forall (fun e => sf_not_negative (Prim2SF e)) l ->
  sf_not_negative (Prim2SF (np_sum64 l)).
Proof.
  unfold np_sum64. assert (H0 : sf_not_negative (Prim2SF 0%float)) by exact I.
  revert H0. generalize 0%float as acc.
  induction l as [|e l IH]; intros acc Hacc Hl; [exact Hacc|].
  simpl. inversion Hl; subst. apply IH; [|assumption].
  rewrite add_spec. apply SF64add_not_negative; assumption.
Qed.

Lemma squares_not_negative (d : list float) :
  Forall (fun e => sf_not_negative (Prim2SF e)) (map square64 d).
Proof.
  apply Forall_map, Forall_true. intros e. simpl. unfold square64.
  rewrite mul_spec. apply SF64mul_square_not_negative.
Qed.

Lemma div_zero_not_finite (u : float) :
  sf_not_negative (Prim2SF u) ->
  Prim2SF (u / 0)%float = S754_nan \/ Prim2SF (u / 0)%float = S754_infinity false.
Proof.
  intros Hu. rewrite div_spec. change (Prim2SF 0) with (S754_zero false).
  destruct (Prim2SF u) as [s|s| |s m e]; simpl; auto;
    destruct s; try contradiction; auto.
Qed.

Lemma one_minus_not_finite (q : float) :
  Prim2SF q = S754_nan \/ Prim2SF q = S754_infinity false ->
  (1 - q)%float = nan \/ (1 - q)%float = neg_infinity.
Proof.
  intros [E|E]; [left|right]; apply Prim2SF_inj; rewrite sub_spec, E; reflexivity.
Qed.




(** ** Round trip on noise-free data *)

Lemma dot_zero_r (u v : list R) : (forall x, In x v -> x = 0) -> dot u v = 0.
Proof.
  revert v. induction u as [|x u IH]; intros v H; [reflexivity|].
  destruct v as [|y v]; [reflexivity|].
  unfold dot in *. simpl. rewrite (H y (or_introl eq_refl)).
  rewrite (IH v) by (intros z Hz; apply H; right; exact Hz). ring.
Qed.


(** *** The columns of the basis have the same norm from seven channels on *)

Lemma cos_prod a b : cos a * cos b = (cos (a - b) + cos (a + b)) / 2.
Proof. rewrite cos_minus, cos_plus. field. Qed.

(** Power reduction of the twelfth power of the cosine. *)
Lemma cos12_reduce x :
  (cos x ^ 6) ^ 2
  = (462 + 792 * cos (2 * x) + 495 * cos (4 * x) + 220 * cos (6 * x)
     + 66 * cos (8 * x) + 12 * cos (10 * x) + cos (12 * x)) / 2048.
Proof.
  rewrite cos6_reduce.
  pose proof (cos_prod (2 * x) (2 * x)) as H22.
  pose proof (cos_prod (4 * x) (2 * x)) as H42.
  pose proof (cos_prod (6 * x) (2 * x)) as H62.
  pose proof (cos_prod (4 * x) (4 * x)) as H44.
  pose proof (cos_prod (6 * x) (4 * x)) as H64.
  pose proof (cos_prod (6 * x) (6 * x)) as H66.
  replace (2 * x - 2 * x) with 0 in H22 by ring.
  replace (2 * x + 2 * x) with (4 * x) in H22 by ring.
  replace (4 * x - 2 * x) with (2 * x) in H42 by ring.
  replace (4 * x + 2 * x) with (6 * x) in H42 by ring.
  replace (6 * x - 2 * x) with (4 * x) in H62 by ring.
  replace (6 * x + 2 * x) with (8 * x) in H62 by ring.
  replace (4 * x - 4 * x) with 0 in H44 by ring.
  replace (4 * x + 4 * x) with (8 * x) in H44 by ring.
  replace (6 * x - 4 * x) with (2 * x) in H64 by ring.
  replace (6 * x + 4 * x) with (10 * x) in H64 by ring.
  replace (6 * x - 6 * x) with 0 in H66 by ring.
  replace (6 * x + 6 * x) with (12 * x) in H66 by ring.
  rewrite cos_0 in H22, H44, H66.
  set (A := cos (2 * x)) in *. set (B := cos (4 * x)) in *.
  set (C := cos (6 * x)) in *. set (D := cos (8 * x)) in *.
  set (E := cos (10 * x)) in *. set (G := cos (12 * x)) in *.
  replace (((10 + 15 * A + 6 * B + C) / 32) ^ 2)
    with ((100 + 225 * (A * A) + 36 * (B * B) + C * C + 300 * A + 120 * B + 20 * C
           + 180 * (B * A) + 30 * (C * A) + 12 * (C * B)) / 1024) by field.
  rewrite H22, H42, H62, H44, H64, H66. field.
Qed.

Lemma INR_lit (k : nat) : INR k = IZR (Z.of_nat k).
Proof. apply INR_IZR_INZ. Qed.

(** From seven channels on, the squared norm of a basis column does not
    depend on the sample. *)
Lemma channel_norm_flat (n : nat) s :
  (7 <= n)%nat ->
  bigsum n (fun i => (cos (s - INR i * (PI / INR n)) ^ 6) ^ 2) = 231 * INR n / 1024.
Proof.
  intros Hn.
  assert (Hn0 : 0 < INR n) by (apply lt_0_INR; lia).
  rewrite (bigsum_ext n _
    (fun i => 462 / 2048
              + (792 / 2048 * cos (2 * s - INR i * (2 * INR 1 * PI / INR n))
              + (495 / 2048 * cos (4 * s - INR i * (2 * INR 2 * PI / INR n))
              + (220 / 2048 * cos (6 * s - INR i * (2 * INR 3 * PI / INR n))
              + (66 / 2048 * cos (8 * s - INR i * (2 * INR 4 * PI / INR n))
              + (12 / 2048 * cos (10 * s - INR i * (2 * INR 5 * PI / INR n))
              + 1 / 2048 * cos (12 * s - INR i * (2 * INR 6 * PI / INR n))))))))).
  - rewrite !bigsum_plus, !bigsum_scal, bigsum_const.
    rewrite !bigsum_cos_harmonic by lia. field.
  - intros i _. rewrite cos12_reduce.
    assert (E1 : INR 1 = 1) by reflexivity.
    assert (E2 : INR 2 = 2) by (rewrite INR_lit; reflexivity).
    assert (E3 : INR 3 = 3) by (rewrite INR_lit; reflexivity).
    assert (E4 : INR 4 = 4) by (rewrite INR_lit; reflexivity).
    assert (E5 : INR 5 = 5) by (rewrite INR_lit; reflexivity).
    assert (E6 : INR 6 = 6) by (rewrite INR_lit; reflexivity).
    rewrite E1, E2, E3, E4, E5, E6.
    replace (2 * (s - INR i * (PI / INR n)))
      with (2 * s - INR i * (2 * 1 * PI / INR n)) by (field; lra).
    replace (4 * (s - INR i * (PI / INR n)))
      with (4 * s - INR i * (2 * 2 * PI / INR n)) by (field; lra).
    replace (6 * (s - INR i * (PI / INR n)))
      with (6 * s - INR i * (2 * 3 * PI / INR n)) by (field; lra).
    replace (8 * (s - INR i * (PI / INR n)))
      with (8 * s - INR i * (2 * 4 * PI / INR n)) by (field; lra).
    replace (10 * (s - INR i * (PI / INR n)))
      with (10 * s - INR i * (2 * 5 * PI / INR n)) by (field; lra).
    replace (12 * (s - INR i * (PI / INR n)))
      with (12 * s - INR i * (2 * 6 * PI / INR n)) by (field; lra).
    field.
Qed.

(** *** Distinct samples have distinct basis columns *)

Lemma pow6_eq_sq x y : x ^ 6 = y ^ 6 -> x * x = y * y.
Proof.
  intros H.
  assert (Hp : 0 <= x * x) by nra. assert (Hq : 0 <= y * y) by nra.
  set (p := x * x) in *. set (q := y * y) in *.
  assert (H3 : p * p * p = q * q * q).
  { unfold p, q. replace (x * x * (x * x) * (x * x)) with (x ^ 6) by ring.
    replace (y * y * (y * y) * (y * y)) with (y ^ 6) by ring. exact H. }
  assert (Hf : (p - q) * (p * p + p * q + q * q) = 0) by (ring_simplify; lra).
  apply Rmult_integral in Hf. destruct Hf as [Hf|Hf]; [lra|].
  assert (0 <= p * q) by (apply Rmult_le_pos; assumption).
  assert (0 <= p * p) by nra. assert (0 <= q * q) by nra.
  assert (p * p = 0) by lra. assert (q * q = 0) by lra.
  assert (p = 0) by nra. assert (q = 0) by nra. lra.
Qed.

Lemma cos6_eq_double p q : cos p ^ 6 = cos q ^ 6 -> cos (2 * p) = cos (2 * q).
Proof. intros H. apply pow6_eq_sq in H. rewrite !cos_2a_cos. lra. Qed.

Lemma cos_one_small t : 0 < t -> t < PI -> cos (2 * t) <> 1.
Proof.
  intros H0 H1 Hc. rewrite cos_2a_sin in Hc.
  pose proof (sin_gt_0 t H0 H1) as Hs. nra.
Qed.

Lemma sample_columns_differ (n j k : nat) :
  (3 <= n)%nat -> (j < k)%nat -> (k <= 178)%nat ->
  cos (sample_point j) ^ 6 = cos (sample_point k) ^ 6 ->
  cos (sample_point j - PI / INR n) ^ 6 = cos (sample_point k - PI / INR n) ^ 6 ->
  False.
Proof.
  intros Hn Hjk Hk H0 H1.
  apply cos6_eq_double in H0. apply cos6_eq_double in H1.
  assert (Hn3 : 3 <= INR n).
  { replace 3 with (INR 3) by (rewrite INR_lit; reflexivity). apply le_INR. exact Hn. }
  pose proof PI_RGT_0 as Hpi.
  set (P := 2 * sample_point j) in *. set (Q := 2 * sample_point k) in *.
  set (D := 2 * (PI / INR n)).
  replace (2 * (sample_point j - PI / INR n)) with (P - D) in H1 by (unfold P, D; ring).
  replace (2 * (sample_point k - PI / INR n)) with (Q - D) in H1 by (unfold Q, D; ring).
  rewrite !cos_minus in H1.
  assert (HD : 0 < sin D).
  { apply sin_gt_0; unfold D.
    - apply Rmult_lt_0_compat; [lra|]. apply Rdiv_lt_0_compat; lra.
    - apply (Rmult_lt_reg_r (INR n)); [lra|].
      replace (2 * (PI / INR n) * INR n) with (2 * PI) by (field; lra). nra. }
  assert (Hsin : sin P = sin Q) by nra.
  assert (Hc : cos (Q - P) = 1).
  { rewrite cos_minus, <- H0, <- Hsin. pose proof (sin2_cos2 P) as Hs.
    unfold Rsqr in Hs. lra. }
  assert (Hkj : INR k - INR j = INR (k - j)) by (rewrite minus_INR by lia; reflexivity).
  assert (H1le : 1 <= INR (k - j)).
  { replace 1 with (INR 1) by reflexivity. apply le_INR. lia. }
  assert (H178 : INR (k - j) <= 178).
  { replace 178 with (INR 178) by (rewrite INR_lit; reflexivity). apply le_INR. lia. }
  apply (cos_one_small (INR (k - j) * PI / 179)).
  - apply Rdiv_lt_0_compat; [apply Rmult_lt_0_compat|]; lra.
  - apply (Rmult_lt_reg_r 179); [lra|].
    replace (INR (k - j) * PI / 179 * 179) with (INR (k - j) * PI) by field. nra.
  - rewrite <- Hc. f_equal. unfold Q, P, sample_point. rewrite <- Hkj. field.
Qed.

(** Two vectors of the same norm: their scalar product is at most the
    squared norm, with equality only if they are equal. *)
Lemma vdot_le_norm d u v c0 :
  vdot d u u = c0 -> vdot d v v = c0 ->
  vdot d u v <= c0 /\ (vdot d u v = c0 -> forall i, (i < d)%nat -> u i = v i).
Proof.
  intros Hu Hv.
  assert (Hd : vdot d (fun i => u i - v i) (fun i => u i - v i)
               = vdot d u u + vdot d v v - 2 * vdot d u v).
  { unfold vdot. rewrite <- bigsum_scal, <- bigsum_plus, <- bigsum_minus.
    apply bigsum_ext. intros i _. ring. }
  pose proof (vdot_self_nonneg d (fun i => u i - v i)) as Hpos.
  split; [lra|]. intros He i Hi.
  assert (Hz : vdot d (fun i => u i - v i) (fun i => u i - v i) = 0) by lra.
  pose proof (vdot_self_zero d _ Hz i Hi) as H0. simpl in H0. lra.
Qed.

(** *** The nearest sample *)

Lemma round_exists (N : nat) t :
  0 <= t <= INR N -> exists j, (j <= N)%nat /\ Rabs (t - INR j) <= 1 / 2.
Proof.
  induction N as [|N IH]; intros [H0 H1].
  - exists 0%nat. split; [lia|]. simpl in *. unfold Rabs.
    destruct (Rcase_abs (t - 0)); lra.
  - rewrite S_INR in H1.
    destruct (Rle_dec t (INR N)) as [Hle|Hgt].
    + destruct (IH (conj H0 Hle)) as (j & Hj & Habs). exists j. split; [lia|exact Habs].
    + destruct (Rle_dec t (INR N + 1 / 2)) as [Hl|Hg].
      * exists N. split; [lia|]. unfold Rabs. destruct (Rcase_abs (t - INR N)); lra.
      * exists (S N). split; [lia|]. rewrite S_INR. unfold Rabs.
        destruct (Rcase_abs (t - (INR N + 1))); lra.
Qed.

Lemma domain_lookup a b j :
  (j < 180)%nat -> domain a b !! j = Some (a + INR j * (b - a) / 179).
Proof.
  intros Hj. unfold domain.
  rewrite (lookup_map_seq (fun j => a + INR j * (b - a) / 179)) by exact Hj.
  reflexivity.
Qed.

Lemma domain_length a b : length (domain a b) = 180%nat.
Proof. unfold domain. rewrite length_map, length_seq. reflexivity. Qed.

Lemma sq_distance_lookup a b y j :
  (j < 180)%nat ->
  map (fun d => (y - d) ^ 2) (domain a b) !! j
  = Some ((y - (a + INR j * (b - a) / 179)) ^ 2).
Proof.
  intros Hj.
  change (map (fun d => (y - d) ^ 2) (domain a b))
    with ((fun d => (y - d) ^ 2) <$> domain a b).
  rewrite list_lookup_fmap, domain_lookup by exact Hj. reflexivity.
Qed.

(** The sample selected for [y] is within half a step of [y], and is not the
    last one when [y] is more than half a step below [range_stop]. *)
Lemma nearest_sample a b y k :
  a < b -> a <= y -> y < b - (b - a) / 358 ->
  first_argmin (map (fun d => (y - d) ^ 2) (domain a b)) k ->
  (k <= 178)%nat /\ Rabs ((a + INR k * (b - a) / 179) - y) <= (b - a) / 358.
Proof.
  intros Hab Hay Hyb Hk.
  pose proof (first_argmin_lt _ _ Hk) as Hlt. rewrite length_map, domain_length in Hlt.
  destruct Hk as (v & Hv & Hmin & _).
  rewrite sq_distance_lookup in Hv by exact Hlt. inversion Hv as [Hv']. clear Hv.
  set (h := (b - a) / 179). assert (Hh : 0 < h) by (unfold h; lra).
  assert (Hd : forall j, a + INR j * (b - a) / 179 = a + INR j * h)
    by (intros j; unfold h; field).
  rewrite Hd in *.
  split.
  - destruct (Nat.eq_dec k 179%nat) as [->|Hne]; [exfalso|lia].
    pose proof (Hmin 178%nat _ (sq_distance_lookup a b y 178 ltac:(lia))) as H178.
    rewrite Hd, <- Hv' in H178.
    replace (INR 179) with 179 in H178 by (rewrite INR_lit; reflexivity).
    replace (INR 178) with 178 in H178 by (rewrite INR_lit; reflexivity).
    assert (Hy : y < a + 179 * h - h / 2) by (unfold h; lra).
    nra.
  - assert (Ht : 0 <= (y - a) / h <= INR 179).
    { replace (INR 179) with 179 by (rewrite INR_lit; reflexivity). split.
      - apply Rmult_le_pos; [lra|]. left. apply Rinv_0_lt_compat. exact Hh.
      - apply (Rmult_le_reg_r h); [exact Hh|].
        replace ((y - a) / h * h) with (y - a) by (field; lra). unfold h. lra. }
    destruct (round_exists 179 _ Ht) as (j & Hj & Habs).
    pose proof (Hmin j _ (sq_distance_lookup a b y j ltac:(lia))) as Hjmin.
    rewrite Hd, <- Hv' in Hjmin.
    assert (Hyj : Rabs (y - (a + INR j * h)) <= h / 2).
    { replace (y - (a + INR j * h)) with (((y - a) / h - INR j) * h) by (field; lra).
      rewrite Rabs_mult, (Rabs_pos_eq h) by lra. nra. }
    replace ((b - a) / 358) with (h / 2) by (unfold h; field).
    assert (Hsq : forall z, Rabs z * Rabs z = z * z).
    { intros z. unfold Rabs. destruct (Rcase_abs z); ring. }
    pose proof (Hsq (y - (a + INR j * h))) as S1.
    pose proof (Hsq (a + INR k * h - y)) as S2.
    pose proof (Rabs_pos (a + INR k * h - y)) as P2.
    pose proof (Rabs_pos (y - (a + INR j * h))) as P1.
    nra.
Qed.

(** *** Exact recovery of the channel responses *)

Lemma bigsum_delta n (g : nat -> R) c' :
  (c' < n)%nat ->
  bigsum n (fun c => g c * (if (c =? c')%nat then 1 else 0)) = g c'.
Proof.
  induction n as [|n IH]; intros Hc; [lia|]. simpl.
  destruct (Nat.eq_dec c' n) as [->|Hne].
  - rewrite Nat.eqb_refl. rewrite bigsum_zero; [ring|].
    intros c Hlt. assert (E : (c =? n)%nat = false) by (apply Nat.eqb_neq; lia).
    rewrite E. ring.
  - rewrite IH by lia.
    assert (E : (n =? c')%nat = false) by (apply Nat.eqb_neq; lia).
    rewrite E. ring.
Qed.

(** A vector orthogonal to all fitted weights is in the kernel of the
    activations, when the true weights have a right inverse. *)
Lemma fitted_kernel T N U (f wt vr what : nat -> nat -> R) (v : nat -> R) :
  (forall c c', (c < N)%nat -> (c' < N)%nat ->
     bigsum U (fun u => wt c u * vr u c') = if (c =? c')%nat then 1 else 0) ->
  (forall u i, (u < U)%nat -> (i < T)%nat ->
     mv N f (what u) i = bigsum N (fun c => f i c * wt c u)) ->
  (forall u k, (u < U)%nat -> (forall i, (i < T)%nat -> mv N f k i = 0) ->
     vdot N (what u) k = 0) ->
  (forall u, (u < U)%nat -> vdot N (what u) v = 0) ->
  forall i, (i < T)%nat -> mv N f v i = 0.
Proof.
  intros Hinv Hexact Horth Hv.
  set (ghat := fun c' => lin U (fun u => vr u c') what).
  assert (G1 : forall c', vdot N v (ghat c') = 0).
  { intros c'. unfold ghat. rewrite vdot_lin. apply bigsum_zero. intros u Hu.
    rewrite vdot_comm, Hv by exact Hu. ring. }
  assert (G2 : forall i c', (i < T)%nat -> (c' < N)%nat -> mv N f (ghat c') i = f i c').
  { intros i c' Hi Hc'. unfold mv, ghat. rewrite vdot_lin.
    rewrite (bigsum_ext U _ (fun u => bigsum N (fun c => f i c * (wt c u * vr u c')))).
    - rewrite bigsum_swap.
      rewrite (bigsum_ext N _ (fun c => f i c * (if (c =? c')%nat then 1 else 0))).
      + apply bigsum_delta. exact Hc'.
      + intros c Hc. rewrite bigsum_scal, Hinv by assumption. reflexivity.
    - intros u Hu. change (vdot N (f i) (what u)) with (mv N f (what u) i).
      rewrite Hexact by assumption. rewrite <- bigsum_scal.
      apply bigsum_ext. intros c _. ring. }
  assert (G3 : forall c' k, (forall i, (i < T)%nat -> mv N f k i = 0) ->
                vdot N k (ghat c') = 0).
  { intros c' k Hk. unfold ghat. rewrite vdot_lin. apply bigsum_zero. intros u Hu.
    rewrite vdot_comm, (Horth u k Hu Hk). ring. }
  set (gv := lin N v ghat).
  assert (V1 : vdot N v gv = 0).
  { unfold gv. rewrite vdot_lin. apply bigsum_zero. intros c' _. rewrite G1. ring. }
  assert (K1 : forall i, (i < T)%nat -> mv N f (fun c => v c - gv c) i = 0).
  { intros i Hi. rewrite mv_minus.
    assert (E : mv N f gv i = mv N f v i).
    { unfold mv at 1, gv. rewrite vdot_lin. unfold mv, vdot.
      apply bigsum_ext. intros c' Hc'.
      change (bigsum N (fun i0 => f i i0 * ghat c' i0)) with (mv N f (ghat c') i).
      rewrite G2 by assumption. ring. }
    rewrite E. ring. }
  assert (V2 : vdot N (fun c => v c - gv c) gv = 0).
  { unfold gv at 2. rewrite vdot_lin. apply bigsum_zero. intros c' _.
    rewrite (G3 c' _ K1). ring. }
  assert (V3 : vdot N gv gv = 0).
  { assert (E : vdot N gv gv = vdot N v gv - vdot N (fun c => v c - gv c) gv).
    { unfold vdot. rewrite <- bigsum_minus. apply bigsum_ext. intros c _. ring. }
    rewrite E, V1, V2. ring. }
  intros i Hi. rewrite <- (K1 i Hi). apply mv_ext. intros c Hc.
  rewrite (vdot_self_zero N gv V3 c Hc). ring.
Qed.

(** The minimum-norm response to noise-free data is the activation row. *)
Lemma recover_response T N U (f wt vr what : nat -> nat -> R) (r : nat -> R) i0 :
  (forall c c', (c < N)%nat -> (c' < N)%nat ->
     bigsum U (fun u => wt c u * vr u c') = if (c =? c')%nat then 1 else 0) ->
  (forall u i, (u < U)%nat -> (i < T)%nat ->
     mv N f (what u) i = bigsum N (fun c => f i c * wt c u)) ->
  (forall u k, (u < U)%nat -> (forall i, (i < T)%nat -> mv N f k i = 0) ->
     vdot N (what u) k = 0) ->
  (i0 < T)%nat ->
  (forall u, (u < U)%nat -> vdot N (what u) r = vdot N (what u) (f i0)) ->
  (forall v, (forall u, (u < U)%nat -> vdot N (what u) v = 0) -> vdot N r v = 0) ->
  forall c, (c < N)%nat -> r c = f i0 c.
Proof.
  intros Hinv Hexact Horth Hi0 Hsol Hmin c Hc.
  set (d := fun c => r c - f i0 c).
  assert (Hd : forall u, (u < U)%nat -> vdot N (what u) d = 0).
  { intros u Hu. unfold d. rewrite vdot_minus_r, Hsol by exact Hu. ring. }
  pose proof (Hmin d Hd) as H1.
  pose proof (fitted_kernel T N U f wt vr what d Hinv Hexact Horth Hd i0 Hi0) as H2.
  unfold mv in H2.
  assert (Hz : vdot N d d = 0).
  { assert (E : vdot N d d = vdot N r d - vdot N (f i0) d).
    { unfold vdot, d. rewrite <- bigsum_minus. apply bigsum_ext. intros j _. ring. }
    rewrite E, H1, H2. ring. }
  pose proof (vdot_self_zero N d Hz c Hc) as H0. unfold d in H0. lra.
Qed.

(** *** Entries of products *)

Lemma column_nth (B : matrix) i j :
  (i < nrows B)%nat -> nth i (column j B) 0 = entry B i j.
Proof.
  intros Hi. unfold column, entry.
  apply (nth_map_default (fun r => nth j r 0) B []). exact Hi.
Qed.

Lemma matmul_row (A B : matrix) i :
  (i < nrows A)%nat ->
  nth i (matmul A B) []
  = map (fun j => dot (nth i A []) (column j B)) (seq 0 (ncols B)).
Proof.
  intros Hi. unfold matmul.
  rewrite (nth_indep _ [] ((fun r => map (fun j => dot r (column j B)) (seq 0 (ncols B))) []))
    by (rewrite length_map; exact Hi).
  apply (map_nth (fun r => map (fun j => dot r (column j B)) (seq 0 (ncols B)))).
Qed.

Lemma matmul_entry (A B : matrix) i j :
  rect A -> ncols A = nrows B -> (i < nrows A)%nat -> (j < ncols B)%nat ->
  entry (matmul A B) i j = bigsum (nrows B) (fun c => entry A i c * entry B c j).
Proof.
  intros HA HAB Hi Hj. unfold entry at 1. rewrite matmul_row by exact Hi.
  rewrite (nth_map_seq (fun j => dot (nth i A []) (column j B))) by exact Hj.
  rewrite (dot_bigsum _ _ (nrows B)).
  - apply bigsum_ext. intros c Hc. rewrite column_nth by exact Hc. reflexivity.
  - rewrite rect_row by assumption. exact HAB.
  - apply column_length.
Qed.

Lemma matmul_ncols (A B : matrix) : A <> [] -> ncols (matmul A B) = ncols B.
Proof.
  destruct A as [|r A]; [congruence|]. intros _. unfold matmul. simpl.
  rewrite length_map, length_seq. reflexivity.
Qed.

Lemma matmul_rect (A B : matrix) : A <> [] -> rect (matmul A B).
Proof.
  intros HA. unfold rect. rewrite matmul_ncols by exact HA. apply matmul_rows.
Qed.

Lemma identity_entry n i j :
  (i < n)%nat -> (j < n)%nat ->
  entry (identity_matrix n) i j = if (i =? j)%nat then 1 else 0.
Proof.
  intros Hi Hj. unfold entry, identity_matrix.
  rewrite (nth_of_lookup _ i [] _
             (lookup_map_seq
                (fun i => map (fun j => if (i =? j)%nat then 1 else 0) (seq 0 n)) n i Hi)).
  apply (nth_map_seq (fun j => if (i =? j)%nat then 1 else 0)). exact Hj.
Qed.

Lemma transpose_column_nth (X : matrix) i u :
  (u < ncols X)%nat -> (i < nrows X)%nat ->
  nth u (column i (transpose X)) 0 = entry X i u.
Proof.
  intros Hu Hi. rewrite column_nth by (rewrite transpose_nrows; exact Hu).
  unfold entry, transpose.
  rewrite (nth_of_lookup _ u [] _ (lookup_map_seq (fun j => column j X) (ncols X) u Hu)).
  apply column_nth. exact Hi.
Qed.

(** In exact arithmetic the basis has the same column at the first and at
    the last sample: [cos^6] has period [pi]. *)
Lemma basis_last_column (n : Z) : column 179 (basis n) = column 0 (basis n).
Proof.
  rewrite !basis_column by lia. apply map_seq_ext. intros i _.
  unfold sample_point. rewrite INR_179. change (INR 0) with 0.
  replace (179 * PI / 179 - shift n i) with (- shift n i + PI) by field.
  replace (0 * PI / 179 - shift n i) with (- shift n i) by field.
  rewrite neg_cos. ring.
Qed.

(** *** The response curve of a basis column peaks at its own sample *)

Lemma basis_column_dot (n : Z) j k :
  (2 <= n)%Z -> (j < 180)%nat -> (k < 180)%nat ->
  dot (column k (basis n)) (column j (basis n))
  = vdot (Z.to_nat n)
         (fun c => cos (sample_point k - INR c * (PI / INR (Z.to_nat n))) ^ 6)
         (fun c => cos (sample_point j - INR c * (PI / INR (Z.to_nat n))) ^ 6).
Proof.
  intros Hn Hj Hk.
  rewrite (dot_bigsum _ _ (Z.to_nat n))
    by (rewrite column_length; unfold nrows; apply basis_length).
  apply bigsum_ext. intros c Hc.
  rewrite !column_nth by (unfold nrows; rewrite basis_length; exact Hc).
  rewrite !basis_entry by assumption. rewrite shift_eq by exact Hn.
  rewrite IZR_to_nat by lia. reflexivity.
Qed.

Lemma response_argmax_flat (n : Z) k :
  (7 <= n)%Z -> (k <= 178)%nat ->
  first_argmax
    (map (fun j => dot (column k (basis n)) (column j (basis n))) (seq 0 180)) k.
Proof.
  intros Hn Hk.
  set (N := Z.to_nat n).
  set (u := fun j c => cos (sample_point j - INR c * (PI / INR N)) ^ 6).
  assert (Hnorm : forall j, vdot N (u j) (u j) = 231 * INR N / 1024).
  { intros j. rewrite <- (channel_norm_flat N (sample_point j)) by (unfold N; lia).
    apply bigsum_ext. intros c _. unfold u. ring. }
  assert (Hval : forall j, (j < 180)%nat ->
             map (fun j => dot (column k (basis n)) (column j (basis n))) (seq 0 180) !! j
             = Some (vdot N (u k) (u j))).
  { intros j Hj.
    rewrite (lookup_map_seq (fun j => dot (column k (basis n)) (column j (basis n))))
      by exact Hj.
    rewrite basis_column_dot by lia. reflexivity. }
  exists (vdot N (u k) (u k)). split; [apply Hval; lia|]. split.
  - intros j w Hj.
    assert (Hlt : (j < 180)%nat).
    { apply lookup_lt_Some in Hj. rewrite length_map, length_seq in Hj. exact Hj. }
    rewrite Hval in Hj by exact Hlt. inversion Hj; subst w.
    rewrite (Hnorm k).
    apply (vdot_le_norm N (u k) (u j) _ (Hnorm k) (Hnorm j)).
  - intros j w Hjk Hj. rewrite Hval in Hj by lia. inversion Hj; subst w.
    destruct (vdot_le_norm N (u k) (u j) _ (Hnorm k) (Hnorm j)) as (Hle & Heq).
    rewrite (Hnorm k).
    destruct (Req_dec_T (vdot N (u k) (u j)) (231 * INR N / 1024)) as [He|Hne]; [|lra].
    exfalso. specialize (Heq He).
    apply (sample_columns_differ N j k); [unfold N; lia|exact Hjk|exact Hk| |].
    + pose proof (Heq 0%nat ltac:(unfold N; lia)) as H0. unfold u in H0.
      change (INR 0) with 0 in H0.
      replace (sample_point k - 0 * (PI / INR N)) with (sample_point k) in H0 by ring.
      replace (sample_point j - 0 * (PI / INR N)) with (sample_point j) in H0 by ring.
      symmetry. exact H0.
    + pose proof (Heq 1%nat ltac:(unfold N; lia)) as H1. unfold u in H1.
      change (INR 1) with 1 in H1.
      replace (sample_point k - 1 * (PI / INR N)) with (sample_point k - PI / INR N)
        in H1 by ring.
      replace (sample_point j - 1 * (PI / INR N)) with (sample_point j - PI / INR N)
        in H1 by ring.
      symmetry. exact H1.
Qed.

(** *** The scalar products of basis columns *)

Lemma sin_period_Z x (m : Z) : sin (x + 2 * IZR m * PI) = sin x.
Proof.
  destruct (Z_le_gt_dec 0 m) as [Hm|Hm].
  - rewrite <- (Z2Nat.id m Hm), <- INR_IZR_INZ. apply sin_period.
  - rewrite <- (sin_period (x + 2 * IZR m * PI) (Z.to_nat (- m))).
    f_equal. rewrite INR_IZR_INZ, Z2Nat.id by lia. rewrite opp_IZR. ring.
Qed.

Lemma cos_period_Z x (m : Z) : cos (x + 2 * IZR m * PI) = cos x.
Proof.
  destruct (Z_le_gt_dec 0 m) as [Hm|Hm].
  - rewrite <- (Z2Nat.id m Hm), <- INR_IZR_INZ. apply cos_period.
  - rewrite <- (cos_period (x + 2 * IZR m * PI) (Z.to_nat (- m))).
    f_equal. rewrite INR_IZR_INZ, Z2Nat.id by lia. rewrite opp_IZR. ring.
Qed.

(** Over [n] equally spaced shifts the harmonic [m] adds up to [n] times its
    value when [n] divides [m], and cancels otherwise. *)
Lemma bigsum_cos_harmonic_Z (n : nat) (m : Z) a :
  (0 < n)%nat ->
  bigsum n (fun i => cos (a - INR i * (2 * IZR m * PI / INR n)))
  = INR n * divides_ind n m * cos a.
Proof.
  intros Hn.
  assert (Hn0 : 0 < INR n) by (apply lt_0_INR; exact Hn).
  pose proof PI_RGT_0 as Hpi.
  unfold divides_ind. destruct (m mod Z.of_nat n =? 0)%Z eqn:Hdiv.
  - apply Z.eqb_eq in Hdiv. apply Z.mod_divide in Hdiv; [|lia].
    destruct Hdiv as (t & ->).
    rewrite (bigsum_ext n _ (fun _ => cos a)).
    + rewrite bigsum_const. ring.
    + intros i _.
      rewrite <- (cos_period_Z (a - INR i * (2 * IZR (t * Z.of_nat n) * PI / INR n))
                    (Z.of_nat i * t)).
      f_equal. rewrite !mult_IZR, <- !INR_IZR_INZ. field. lra.
  - apply Z.eqb_neq in Hdiv.
    pose proof (bigsum_cos_telescope n a (2 * IZR m * PI / INR n)) as H.
    replace (a - INR n * (2 * IZR m * PI / INR n) + 2 * IZR m * PI / INR n / 2)
      with (a + 2 * IZR m * PI / INR n / 2 + 2 * IZR (- m) * PI) in H
      by (rewrite opp_IZR; field; lra).
    rewrite sin_period_Z, Rminus_diag in H.
    apply Rmult_integral in H. destruct H as [H|H]; [rewrite H; ring|].
    exfalso. assert (Hs : sin (2 * IZR m * PI / INR n / 2) = 0) by lra.
    apply sin_eq_0_0 in Hs. destruct Hs as (k & Hk).
    assert (E : IZR m = IZR (k * Z.of_nat n)).
    { rewrite mult_IZR, <- INR_IZR_INZ.
      apply (Rmult_eq_reg_r PI); [|lra].
      apply (Rmult_eq_reg_r (/ INR n)); [|apply Rinv_neq_0_compat; lra].
      replace (IZR k * INR n * PI * / INR n) with (IZR k * PI) by (field; lra).
      rewrite <- Hk. field. lra. }
    apply eq_IZR in E. apply Hdiv. rewrite E. apply Z.mod_mul. lia.
Qed.

(** The sum over the channels of a product of two harmonics. *)
Lemma harmonic_pair_sum (n p q : nat) alpha beta :
  (0 < n)%nat ->
  bigsum n (fun c => cos (2 * INR p * (alpha - INR c * (PI / INR n)))
                     * cos (2 * INR q * (beta - INR c * (PI / INR n))))
  = INR n / 2
    * (divides_ind n (Z.of_nat p - Z.of_nat q)
         * cos (2 * INR p * alpha - 2 * INR q * beta)
       + divides_ind n (Z.of_nat p + Z.of_nat q)
         * cos (2 * INR p * alpha + 2 * INR q * beta)).
Proof.
  intros Hn.
  assert (Hn0 : 0 < INR n) by (apply lt_0_INR; exact Hn).
  rewrite (bigsum_ext n _
    (fun c => / 2 * cos ((2 * INR p * alpha - 2 * INR q * beta)
                         - INR c * (2 * IZR (Z.of_nat p - Z.of_nat q) * PI / INR n))
              + / 2 * cos ((2 * INR p * alpha + 2 * INR q * beta)
                           - INR c * (2 * IZR (Z.of_nat p + Z.of_nat q) * PI / INR n)))).
  - rewrite bigsum_plus, !bigsum_scal, !bigsum_cos_harmonic_Z by exact Hn. field.
  - intros c _. rewrite cos_prod.
    rewrite minus_IZR, plus_IZR, <- !INR_IZR_INZ.
    replace (2 * INR p * (alpha - INR c * (PI / INR n))
             - 2 * INR q * (beta - INR c * (PI / INR n)))
      with (2 * INR p * alpha - 2 * INR q * beta
            - INR c * (2 * (INR p - INR q) * PI / INR n)) by (field; lra).
    replace (2 * INR p * (alpha - INR c * (PI / INR n))
             + 2 * INR q * (beta - INR c * (PI / INR n)))
      with (2 * INR p * alpha + 2 * INR q * beta
            - INR c * (2 * (INR p + INR q) * PI / INR n)) by (field; lra).
    field.
Qed.

Lemma cos6_as_sum x :
  cos x ^ 6 = bigsum 4 (fun p => cos6_coef p * cos (2 * INR p * x)).
Proof.
  rewrite cos6_reduce. cbn [bigsum cos6_coef].
  change (INR 0) with 0. change (INR 1) with 1.
  replace (INR 2) with 2 by (rewrite INR_lit; reflexivity).
  replace (INR 3) with 3 by (rewrite INR_lit; reflexivity).
  replace (2 * 0 * x) with 0 by ring. rewrite cos_0.
  replace (2 * 1 * x) with (2 * x) by ring.
  replace (2 * 2 * x) with (4 * x) by ring.
  replace (2 * 3 * x) with (6 * x) by ring.
  field.
Qed.

(** The scalar product of the basis columns at the points [alpha] and
    [beta], as a sum over pairs of harmonics. *)
Lemma basis_gram (n : nat) alpha beta :
  (0 < n)%nat ->
  bigsum n (fun c => cos (alpha - INR c * (PI / INR n)) ^ 6
                     * cos (beta - INR c * (PI / INR n)) ^ 6)
  = bigsum 4 (fun p => bigsum 4 (fun q =>
      cos6_coef p * cos6_coef q
      * (INR n / 2
         * (divides_ind n (Z.of_nat p - Z.of_nat q)
              * cos (2 * INR p * alpha - 2 * INR q * beta)
            + divides_ind n (Z.of_nat p + Z.of_nat q)
              * cos (2 * INR p * alpha + 2 * INR q * beta))))).
Proof.
  intros Hn.
  rewrite (bigsum_ext n _
    (fun c => bigsum 4 (fun p => bigsum 4 (fun q =>
       cos6_coef p * cos6_coef q
       * (cos (2 * INR p * (alpha - INR c * (PI / INR n)))
          * cos (2 * INR q * (beta - INR c * (PI / INR n)))))))).
  - rewrite bigsum_swap. apply bigsum_ext. intros p _.
    rewrite bigsum_swap. apply bigsum_ext. intros q _.
    rewrite bigsum_scal, harmonic_pair_sum by exact Hn. reflexivity.
  - intros c _. rewrite !cos6_as_sum.
    rewrite <- bigsum_scal_r. apply bigsum_ext. intros p _.
    rewrite <- bigsum_scal. apply bigsum_ext. intros q _. ring.
Qed.

(** Bounds on [PI], [cos] and [sin] for the estimates below. *)
Lemma PI_upper : PI <= 68 / 21.
Proof.
  destruct (PI_2_3_7_ineq 0) as (_ & H).
  unfold sum_f_R0, tg_alt, PI_2_3_7_tg, Ratan_seq in H. simpl in H. lra.
Qed.

Lemma cos_lower x : 1 - x ^ 2 / 2 <= cos x.
Proof.
  destruct (Rle_dec (-2) x) as [Hlo|Hlo]; [destruct (Rle_dec x 2) as [Hhi|Hhi]|].
  - destruct (pre_cos_bound x 0 Hlo Hhi) as (H & _).
    unfold cos_approx, cos_term, sum_f_R0 in H. simpl in H. lra.
  - pose proof (COS_bound x). nra.
  - pose proof (COS_bound x). nra.
Qed.

Lemma sin_lower x : 0 <= x <= 4 -> x - x ^ 3 / 6 <= sin x.
Proof.
  intros (Hlo & Hhi). destruct (pre_sin_bound x 0 Hlo Hhi) as (H & _).
  unfold sin_approx, sin_term, sum_f_R0 in H. simpl in H. lra.
Qed.

Lemma sin_upper x : 0 <= x -> sin x <= x.
Proof.
  intros [H|<-]; [left; apply sin_lt_x; exact H|rewrite sin_0; lra].
Qed.

(** Decides which pairs of harmonics survive for a given number of
    channels. *)
Ltac eval_divides :=
  unfold divides_ind;
  repeat match goal with
         | |- context [if ?b then 1 else 0] =>
             let v := eval vm_compute in b in change b with v; cbv iota
         end.

(** *** Six channels *)

(** With six channels the norm of a basis column depends on the sample, and
    the response curve is compared with its peak through the closed form of
    the scalar products. *)
Lemma basis_gram_six alpha beta :
  bigsum 6 (fun c => cos (alpha - INR c * (PI / INR 6)) ^ 6
                     * cos (beta - INR c * (PI / INR 6)) ^ 6)
  = 3 / 1024
    * (200 + 225 * cos (2 * (alpha - beta)) + 36 * cos (4 * (alpha - beta))
       + cos (6 * (alpha - beta)) + cos (6 * alpha + 6 * beta)).
Proof.
  rewrite basis_gram by lia.
  cbn [bigsum cos6_coef]. eval_divides.
  change (INR 0) with 0. change (INR 1) with 1.
  replace (INR 2) with 2 by (rewrite INR_lit; reflexivity).
  replace (INR 3) with 3 by (rewrite INR_lit; reflexivity).
  replace (INR 6) with 6 by (rewrite INR_lit; reflexivity).
  replace (2 * 0 * alpha - 2 * 0 * beta) with 0 by ring.
  replace (2 * 0 * alpha + 2 * 0 * beta) with 0 by ring.
  replace (2 * 1 * alpha - 2 * 1 * beta) with (2 * (alpha - beta)) by ring.
  replace (2 * 2 * alpha - 2 * 2 * beta) with (4 * (alpha - beta)) by ring.
  replace (2 * 3 * alpha - 2 * 3 * beta) with (6 * (alpha - beta)) by ring.
  replace (2 * 3 * alpha + 2 * 3 * beta) with (6 * alpha + 6 * beta) by ring.
  rewrite cos_0. field.
Qed.

Lemma sin_3a x : sin (3 * x) = 3 * sin x - 4 * sin x ^ 3.
Proof.
  replace (3 * x) with (2 * x + x) by ring.
  rewrite sin_plus, sin_2a, cos_2a_sin.
  assert (E : cos x * cos x = 1 - sin x * sin x).
  { pose proof (sin2_cos2 x) as H. unfold Rsqr in H. lra. }
  replace (2 * sin x * cos x * cos x) with (2 * sin x * (cos x * cos x)) by ring.
  rewrite E. ring.
Qed.

Lemma Rabs_bounds x a : Rabs x <= a -> - a <= x <= a.
Proof. unfold Rabs. destruct (Rcase_abs x); lra. Qed.

(** With six channels the scalar product with a column whose point is not
    close to that of the column itself, modulo [PI], is smaller than the
    squared norm of the column. *)
Lemma gram_six_gap alpha beta :
  1 / 75 < Rabs (sin (alpha - beta)) ->
  bigsum 6 (fun c => cos (alpha - INR c * (PI / INR 6)) ^ 6
                     * cos (beta - INR c * (PI / INR 6)) ^ 6)
  < bigsum 6 (fun c => cos (alpha - INR c * (PI / INR 6)) ^ 6
                       * cos (alpha - INR c * (PI / INR 6)) ^ 6).
Proof.
  intros Hs. rewrite !basis_gram_six.
  replace (2 * (alpha - alpha)) with 0 by ring.
  replace (4 * (alpha - alpha)) with 0 by ring.
  replace (6 * (alpha - alpha)) with 0 by ring.
  rewrite cos_0.
  set (d := alpha - beta) in *.
  set (s := sin d) in *. set (a := Rabs s) in *.
  set (t := sin (3 * d)). set (w := sin (9 * alpha + 3 * beta)).
  assert (E2 : cos (2 * d) = 1 - 2 * s ^ 2) by (rewrite cos_2a_sin; unfold s; ring).
  assert (E6 : cos (6 * d) = 1 - 2 * t ^ 2).
  { replace (6 * d) with (2 * (3 * d)) by ring. rewrite cos_2a_sin. unfold t. ring. }
  assert (Ed : cos (6 * alpha + 6 * alpha) - cos (6 * alpha + 6 * beta) = - 2 * t * w).
  { rewrite form2. unfold t, w, d.
    replace ((6 * alpha + 6 * alpha - (6 * alpha + 6 * beta)) / 2)
      with (3 * (alpha - beta)) by field.
    replace ((6 * alpha + 6 * alpha + (6 * alpha + 6 * beta)) / 2)
      with (9 * alpha + 3 * beta) by field.
    ring. }
  assert (H4 : cos (4 * d) <= 1) by apply COS_bound.
  assert (Ha2 : s ^ 2 = a ^ 2).
  { unfold a, Rabs. destruct (Rcase_abs s); ring. }
  assert (Ha1 : a <= 1).
  { unfold a. apply Rabs_le. apply SIN_bound. }
  assert (Ht : Rabs t <= 3 * a).
  { unfold t. rewrite sin_3a. fold s.
    replace (3 * s - 4 * s ^ 3) with (s * (3 - 4 * s ^ 2)) by ring.
    rewrite Rabs_mult. fold a. rewrite (Rmult_comm 3 a).
    apply Rmult_le_compat_l; [unfold a; apply Rabs_pos|].
    apply Rabs_le. rewrite Ha2. nra. }
  assert (Htw : Rabs (t * w) <= 3 * a).
  { rewrite Rabs_mult.
    assert (Rabs w <= 1) by (apply Rabs_le; apply SIN_bound).
    pose proof (Rabs_pos t). nra. }
  apply Rabs_bounds in Htw.
  assert (0 <= t ^ 2) by (apply pow2_ge_0).
  assert (Hpos : 0 < a * (450 * a - 6)) by (apply Rmult_lt_0_compat; lra).
  nra.
Qed.

Lemma sin_grid_lower (m : nat) :
  (1 <= m <= 178)%nat -> 1 / 75 < sin (INR m * (PI / 179)).
Proof.
  intros Hm. set (u := PI / 179).
  assert (Hu : 3 / 179 < u <= 4 / 179).
  { pose proof PI2_3_2. pose proof PI_4. unfold u. split; lra. }
  assert (Hpi : PI = 179 * u) by (unfold u; field).
  assert (Hsu : 1 / 75 < sin u).
  { pose proof (sin_lower u ltac:(lra)).
    assert (u ^ 3 <= 4 / 179 * (4 / 179 * u)) by nra. lra. }
  assert (H1 : 1 <= INR m).
  { change 1 with (INR 1). apply le_INR. lia. }
  assert (H2 : INR m <= 178).
  { replace 178 with (INR 178) by (rewrite INR_lit; reflexivity). apply le_INR. lia. }
  assert (Hx : u <= INR m * u <= 178 * u) by nra.
  destruct (Rle_dec (INR m * u) (PI / 2)) as [Hle|Hgt].
  - pose proof (sin_incr_1 u (INR m * u) ltac:(lra) ltac:(lra) ltac:(lra) Hle ltac:(lra)).
    lra.
  - rewrite <- sin_PI_x.
    pose proof (sin_incr_1 u (PI - INR m * u)
                  ltac:(lra) ltac:(lra) ltac:(lra) ltac:(lra) ltac:(lra)).
    lra.
Qed.

Lemma sample_sin_apart (j k : nat) :
  (j <= 178)%nat -> (k <= 178)%nat -> j <> k ->
  1 / 75 < Rabs (sin (sample_point k - sample_point j)).
Proof.
  intros Hj Hk Hjk. unfold sample_point.
  destruct (lt_eq_lt_dec j k) as [[H|H]|H]; [|contradiction|].
  - replace (INR k * PI / 179 - INR j * PI / 179) with (INR (k - j) * (PI / 179))
      by (rewrite minus_INR by lia; field).
    pose proof (sin_grid_lower (k - j) ltac:(lia)).
    rewrite Rabs_right by lra. lra.
  - replace (INR k * PI / 179 - INR j * PI / 179) with (- (INR (j - k) * (PI / 179)))
      by (rewrite minus_INR by lia; field).
    pose proof (sin_grid_lower (j - k) ltac:(lia)).
    rewrite sin_neg, Rabs_left by lra. lra.
Qed.

Lemma response_argmax_six k :
  (k <= 178)%nat ->
  first_argmax
    (map (fun j => dot (column k (basis 6)) (column j (basis 6))) (seq 0 180)) k.
Proof.
  intros Hk.
  set (g := fun j => dot (column k (basis 6)) (column j (basis 6))).
  assert (Hval : forall j, (j < 180)%nat -> map g (seq 0 180) !! j = Some (g j))
    by (intros j Hj; apply (lookup_map_seq g); exact Hj).
  assert (Hlt : forall j, (j <= 178)%nat -> j <> k -> g j < g k).
  { intros j Hj Hjk. unfold g. rewrite !basis_column_dot by lia.
    unfold vdot. change (Z.to_nat 6) with 6%nat.
    apply gram_six_gap, sample_sin_apart; assumption. }
  assert (Hlast : g 179%nat = g 0%nat) by (unfold g; rewrite basis_last_column; reflexivity).
  exists (g k). split; [apply Hval; lia|]. split.
  - intros j w Hj.
    assert (Hj180 : (j < 180)%nat).
    { apply lookup_lt_Some in Hj. rewrite length_map, length_seq in Hj. exact Hj. }
    rewrite Hval in Hj by exact Hj180. apply (inj Some) in Hj. subst w.
    destruct (Nat.eq_dec j k) as [->|Hjk]; [lra|].
    destruct (Nat.eq_dec j 179%nat) as [->|Hj179].
    + rewrite Hlast. destruct (Nat.eq_dec 0%nat k) as [<-|H0]; [lra|].
      left. apply Hlt; [lia|exact H0].
    + left. apply Hlt; [lia|exact Hjk].
  - intros j w Hjk Hj. rewrite Hval in Hj by lia. apply (inj Some) in Hj. subst w.
    apply Hlt; lia.
Qed.

(** From six channels on, the response curve of the column at sample [k]
    has its first maximum at [k]. *)
Lemma response_argmax (n : Z) k :
  (6 <= n)%Z -> (k <= 178)%nat ->
  first_argmax
    (map (fun j => dot (column k (basis n)) (column j (basis n))) (seq 0 180)) k.
Proof.
  intros Hn Hk. destruct (Z.eq_dec n 6%Z) as [->|Hne].
  - apply response_argmax_six. exact Hk.
  - apply response_argmax_flat; [lia|exact Hk].
Qed.

Lemma entry_map_seq (g : nat -> list R) n u c :
  (u < n)%nat -> entry (map g (seq 0 n)) u c = nth c (g u) 0.
Proof.
  intros Hu. unfold entry.
  rewrite (nth_of_lookup _ u [] _ (lookup_map_seq g n u Hu)). reflexivity.
Qed.

(** On noise-free data [X = F W_true], with [W_true] of full row rank, the
    inverse regression returns the activation rows. *)
Lemma recovered_responses (F W_true V : matrix) (T N U : nat) :
  rect F -> nrows F = T -> ncols F = N -> T <> 0%nat -> N <> 0%nat ->
  rect W_true -> nrows W_true = N -> ncols W_true = U -> nrows V = U ->
  matmul W_true V = identity_matrix N ->
  U <> 0%nat /\
  forall i, (i < T)%nat ->
    lstsq (map (fun u => lstsq F (column u (matmul F W_true))) (seq 0 U))
          (column i (transpose (matmul F W_true)))
    = nth i F [].
Proof.
  intros HF HFr HFc HT HN HW HWr HWc HVr HWV.
  assert (HFne : F <> []) by (destruct F; [simpl in HFr; lia|discriminate]).
  assert (HWne : W_true <> []) by (destruct W_true; [simpl in HWr; lia|discriminate]).
  assert (HVc : ncols V = N).
  { assert (E : length (nth 0 (matmul W_true V) []) = length (nth 0 (identity_matrix N) [])).
    { rewrite HWV. reflexivity. }
    rewrite matmul_row in E by lia. rewrite length_map, length_seq in E.
    unfold identity_matrix in E.
    rewrite (nth_of_lookup _ 0 [] _
               (lookup_map_seq
                  (fun i => map (fun j => if (i =? j)%nat then 1 else 0) (seq 0 N))
                  N 0 ltac:(lia))) in E.
    rewrite length_map, length_seq in E. exact E. }
  assert (Hinv : forall c c', (c < N)%nat -> (c' < N)%nat ->
             bigsum U (fun u => entry W_true c u * entry V u c')
             = if (c =? c')%nat then 1 else 0).
  { intros c c' Hc Hc'. rewrite <- (identity_entry N c c') by assumption. rewrite <- HWV.
    rewrite <- HVr. symmetry. apply matmul_entry; [exact HW|lia|lia|lia]. }
  assert (HU : U <> 0%nat).
  { intros ->. specialize (Hinv 0%nat 0%nat ltac:(lia) ltac:(lia)). simpl in Hinv. lra. }
  split; [exact HU|].
  set (X := matmul F W_true).
  assert (HXr : nrows X = T) by (unfold X; rewrite matmul_nrows; exact HFr).
  assert (HXc : ncols X = U) by (unfold X; rewrite matmul_ncols by exact HFne; exact HWc).
  assert (HXe : forall i u, (i < T)%nat -> (u < U)%nat ->
             entry X i u = bigsum N (fun c => entry F i c * entry W_true c u)).
  { intros i u Hi Hu. unfold X. rewrite <- HWr.
    apply matmul_entry; [exact HF|lia|lia|lia]. }
  set (what := fun u => ls_min T N (entry F) (fun i => nth i (column u X) 0)).
  set (coef := map (fun u => lstsq F (column u X)) (seq 0 U)).
  assert (Hcoef : forall u c, (u < U)%nat -> (c < N)%nat -> entry coef u c = what u c).
  { intros u c Hu Hc. unfold coef.
    rewrite (entry_map_seq (fun u => lstsq F (column u X))) by exact Hu.
    rewrite lstsq_nth by lia. rewrite HFr, HFc. reflexivity. }
  assert (Hcr : nrows coef = U) by (unfold coef, nrows; rewrite length_map, length_seq; reflexivity).
  assert (Hcc : ncols coef = N).
  { unfold coef. rewrite ncols_map_seq by exact HU. rewrite lstsq_length. exact HFc. }
  assert (Hexact : forall u i, (u < U)%nat -> (i < T)%nat ->
             mv N (entry F) (what u) i
             = bigsum N (fun c => entry F i c * entry W_true c u)).
  { intros u i Hu Hi. unfold what.
    rewrite (ls_min_exact T N (entry F) (fun i => nth i (column u X) 0)
               (fun c => entry W_true c u)).
    - rewrite column_nth by lia. apply HXe; assumption.
    - intros l Hl. rewrite column_nth by lia. rewrite HXe by assumption. reflexivity.
    - exact Hi. }
  assert (Horth : forall u k, (u < U)%nat ->
             (forall i, (i < T)%nat -> mv N (entry F) k i = 0) ->
             vdot N (what u) k = 0).
  { intros u k _ Hk. unfold what. apply ls_min_orth_kernel. exact Hk. }
  intros i Hi.
  set (bvec := fun u => nth u (column i (transpose X)) 0).
  set (r := ls_min U N (entry coef) bvec).
  assert (Hb : forall u, (u < U)%nat -> bvec u = entry X i u).
  { intros u Hu. unfold bvec. apply transpose_column_nth; lia. }
  assert (Hcoefdot : forall u w, (u < U)%nat ->
             vdot N (entry coef u) w = vdot N (what u) w).
  { intros u w Hu. apply vdot_ext; [|reflexivity]. intros c Hc. apply Hcoef; assumption. }
  assert (Hsol : forall u, (u < U)%nat ->
             vdot N (what u) r = vdot N (what u) (entry F i)).
  { intros u Hu. rewrite <- Hcoefdot by exact Hu.
    change (vdot N (entry coef u) r) with (mv N (entry coef) r u). unfold r.
    rewrite (ls_min_exact U N (entry coef) bvec (entry F i)).
    - rewrite Hb by exact Hu. rewrite HXe by assumption.
      rewrite <- Hexact by assumption. unfold mv. apply vdot_comm.
    - intros l Hl. unfold mv. rewrite Hcoefdot by exact Hl.
      rewrite Hb by exact Hl. rewrite HXe by assumption.
      rewrite <- Hexact by assumption. unfold mv. apply vdot_comm.
    - exact Hu. }
  assert (Hmin : forall v, (forall u, (u < U)%nat -> vdot N (what u) v = 0) ->
             vdot N r v = 0).
  { intros v Hv. unfold r. apply ls_min_orth_kernel. intros u Hu.
    unfold mv. rewrite Hcoefdot by exact Hu. apply Hv. exact Hu. }
  pose proof (recover_response T N U (entry F) (entry W_true) (entry V) what r i
                Hinv Hexact Horth Hi Hsol Hmin) as Hrec.
  apply list_eq_nth.
  - rewrite lstsq_length, Hcc. symmetry. rewrite rect_row by (try assumption; lia).
    exact HFc.
  - rewrite lstsq_length, Hcc. intros c Hc.
    rewrite lstsq_nth by lia. rewrite Hcr, Hcc.
    change (ls_min U N (entry coef) (fun i0 => nth i0 (column i (transpose X)) 0) c)
      with (r c).
    rewrite Hrec by exact Hc. reflexivity.
Qed.

Lemma channel_activations_row (C_ : matrix) (C_D_ y : vec) F i y_i :
  channel_activations C_ C_D_ y = Some F -> C_D_ <> [] -> y !! i = Some y_i ->
  exists k, first_argmin (map (fun d => (y_i - d) ^ 2) C_D_) k /\
            F !! i = Some (column k C_).
Proof.
  intros HF Hne Hi.
  destruct (channel_activations_spec C_ C_D_ y Hne) as (F' & HF' & _ & Hrows).
  rewrite HF in HF'. inversion HF'; subst F'. exact (Hrows i y_i Hi).
Qed.

(** Fitting on noise-free data [X = F W_true] with [W_true] of full row rank
    and predicting on the same [X]: trial [i], whose activation row is the
    basis column at [k], is decoded to the sample at the first maximum of
    the scalar products of that column with all columns. *)
Lemma roundtrip_decoded (self0 : estimator) (n : Z) (a b : R) (y : vec)
    (F W_true V : matrix) :
  configured self0 n a b -> (4 <= n)%Z -> a <= b ->
  channel_activations (basis n) (domain a b) y = Some F ->
  rect W_true -> nrows W_true = Z.to_nat n -> nrows V = ncols W_true ->
  matmul W_true V = identity_matrix (Z.to_nat n) ->
  (ncols W_true < length y)%nat ->
  exists self pred,
    fit (Arr2 (matmul F W_true)) y self0 = (Ok tt, self) /\
    predict (Arr2 (matmul F W_true)) self = (Ok pred, self) /\
    length pred = length y /\
    forall i y_i p_i, y !! i = Some y_i -> pred !! i = Some p_i ->
      exists k k',
        first_argmin (map (fun d => (y_i - d) ^ 2) (domain a b)) k /\
        first_argmax
          (map (fun j => dot (column k (basis n)) (column j (basis n))) (seq 0 180)) k' /\
        domain a b !! k' = Some p_i.
Proof.
  intros Hc Hn Hab HF HW HWr HVr HWV Htall.
  set (N := Z.to_nat n) in *. set (U := ncols W_true) in *. set (T := length y) in *.
  assert (Hne : domain a b <> []) by discriminate.
  assert (Hd : _define_channels self0 = (Ok (basis n, domain a b), self0))
    by (apply define_channels_flat_ok; [exact Hc|lia|lra]).
  assert (HFr : nrows F = T) by (apply (channel_activations_nrows _ _ _ _ HF)).
  assert (HyT : y <> []) by (destruct y; [simpl in T; lia|discriminate]).
  assert (HFc : ncols F = N).
  { rewrite (channel_activations_ncols _ _ _ _ HF HyT). apply basis_length. }
  assert (HFrect : rect F).
  { unfold rect. eapply Forall_impl; [apply (channel_activations_rect _ _ _ _ HF)|].
    intros r Hr. simpl in Hr. rewrite Hr, HFc. apply basis_length. }
  assert (HFne : F <> []) by (destruct F; [simpl in HFr; lia|discriminate]).
  destruct (recovered_responses F W_true V T N U HFrect HFr HFc ltac:(lia)
              ltac:(unfold N; lia) HW HWr eq_refl HVr HWV) as (HU & Hrec).
  set (X := matmul F W_true) in *.
  assert (HXr : nrows X = T) by (unfold X; rewrite matmul_nrows; exact HFr).
  assert (HXc : ncols X = U) by (unfold X; apply matmul_ncols; exact HFne).
  set (coef := map (fun u => lstsq F (column u X)) (seq 0 U)) in *.
  assert (Hcr : nrows coef = U)
    by (unfold coef, nrows; rewrite length_map, length_seq; reflexivity).
  assert (Hcc : ncols coef = N).
  { unfold coef. rewrite ncols_map_seq by exact HU. rewrite lstsq_length. exact HFc. }
  destruct Hc as (Hnc & Hrest).
  pose proof (fit_valid self0 n (Arr2 X) y (basis n) (domain a b) F Hnc ltac:(lia)) as Hfit.
  rewrite LinearRegression_fit_Ok in Hfit by lia. rewrite HXc in Hfit. fold coef in Hfit.
  set (self := <["W_" := PLinReg coef]>
                 (<["C_D_" := PArr (Arr1 (domain a b))]>
                    (<["C_" := PArr (Arr2 (basis n))]> self0))) in *.
  assert (Hfit' : fit (Arr2 X) y self0 = (Ok tt, self)).
  { apply Hfit; try assumption; try exact HXr.
    - simpl. lia.
    - change (np_size (Arr2 X) 1) with (ncols X). change (np_size (Arr2 X) 0) with (nrows X).
      lia. }
  pose proof (fitted_after_fit self0 (basis n) (domain a b) coef) as Hfitted.
  fold self in Hfitted.
  assert (HR : LinearRegression_fit coef (Arr2 (transpose X)) = Ok F).
  { rewrite LinearRegression_fit_Ok.
    - f_equal. rewrite transpose_ncols by lia. rewrite HXr.
      apply (nth_ext _ _ [] []).
      + rewrite length_map, length_seq. symmetry. exact HFr.
      + rewrite length_map, length_seq. intros i Hi.
        rewrite (nth_of_lookup _ i [] _
                   (lookup_map_seq (fun t => lstsq coef (column t (transpose X))) T i Hi)).
        apply Hrec. exact Hi.
    - lia.
    - unfold N in *. lia.
    - rewrite transpose_nrows. lia.
    - rewrite transpose_ncols by lia. lia. }
  pose proof (predict_unfold self _ _ _ X Hfitted) as Hpred.
  assert (E1 : (nrows X <=? ncols X)%nat = false) by (apply Nat.leb_gt; lia).
  assert (E2 : (ncols F =? nrows (basis n))%nat = true).
  { apply Nat.eqb_eq. rewrite HFc. unfold nrows. rewrite basis_length. reflexivity. }
  rewrite E1, HR, E2 in Hpred.
  destruct (decode_rows (matmul F (basis n)) (domain a b) self Hne) as (pred & Hdec & Hall).
  { eapply Forall_impl; [apply matmul_rows|]. intros r Hr. simpl in Hr.
    rewrite Hr, basis_ncols, domain_length by lia. reflexivity. }
  rewrite Hdec in Hpred.
  exists self, pred. split; [exact Hfit'|]. split; [exact Hpred|].
  assert (Hlen : length pred = T).
  { apply Forall2_length in Hall. rewrite <- Hall.
    change (length (matmul F (basis n))) with (nrows (matmul F (basis n))).
    rewrite matmul_nrows. exact HFr. }
  split; [exact Hlen|].
  intros i y_i p_i Hyi Hpi.
  destruct (channel_activations_row _ _ _ _ i y_i HF Hne Hyi) as (k & Hk & HFi).
  assert (Hrow : matmul F (basis n) !! i
                 = Some (map (fun j => dot (column k (basis n)) (column j (basis n)))
                             (seq 0 180))).
  { unfold matmul.
    change (map (fun r => map (fun j => dot r (column j (basis n)))
                              (seq 0 (ncols (basis n)))) F)
      with ((fun r => map (fun j => dot r (column j (basis n)))
                          (seq 0 (ncols (basis n)))) <$> F).
    rewrite list_lookup_fmap, HFi. simpl. rewrite basis_ncols by lia. reflexivity. }
  destruct (Forall2_lookup_lr _ _ _ i _ _ Hall Hrow Hpi) as (k' & Hk' & Hdk').
  exists k, k'. split; [exact Hk|]. split; [exact Hk'|exact Hdk'].
Qed.


Lemma identity7_square :
  matmul (identity_matrix 7) (identity_matrix 7) = identity_matrix 7.
Proof.
  unfold identity_matrix, matmul, column, dot, Rsum. simpl.
  repeat (f_equal; try ring).
Qed.


(** ** The last sample of the domain *)

(** The domain ends at [range_stop] itself. *)
Lemma domain_last a b : domain a b !! 179%nat = Some b.
Proof.
  rewrite domain_lookup by lia. f_equal. rewrite INR_179. field.
Qed.

(** The last column of the basis is its first column, so a response curve
    never has its first maximum at the last sample. *)
Lemma response_first_max_not_last (n : Z) (r : vec) k :
  first_argmax (map (fun j => dot r (column j (basis n))) (seq 0 180)) k ->
  k <> 179%nat.
Proof.
  intros (v & Hv & _ & Hlt) ->.
  rewrite (lookup_map_seq (fun j => dot r (column j (basis n)))) in Hv by lia.
  inversion Hv as [Hv']. clear Hv.
  assert (H0 : map (fun j => dot r (column j (basis n))) (seq 0 180) !! 0%nat
               = Some (dot r (column 0 (basis n)))).
  { rewrite (lookup_map_seq (fun j => dot r (column j (basis n)))) by lia. reflexivity. }
  specialize (Hlt 0%nat _ ltac:(lia) H0).
  rewrite basis_last_column in Hv'. lra.
Qed.

(** With [range_start <> range_stop], [predict] on a fitted estimator never
    returns [range_stop] in exact arithmetic. *)
Lemma predict_never_range_stop self0 X0 y0 self (m : matrix) pred self1 :
  fit X0 y0 self0 = (Ok tt, self) ->
  predict (Arr2 m) self = (Ok pred, self1) ->
  exists n a b, configured self0 n a b /\
                (a <> b -> forall p, In p pred -> p <> b).
Proof.
  intros Hfit Hpred.
  destruct (fit_Ok_inv _ _ _ _ Hfit)
    as (n & a & b & m0 & F & Hc & Hn & _ & _ & _ & _ & _ & _ & Hself).
  exists n, a, b. split; [exact Hc|]. intros Hab p Hp.
  pose proof (fitted_after_fit self0 (basis n) (domain a b)
                (map (fun t => lstsq F (column t m0)) (seq 0 (ncols m0)))) as Hfitted.
  rewrite <- Hself in Hfitted.
  rewrite (predict_unfold self _ _ _ m Hfitted) in Hpred.
  destruct (nrows m <=? ncols m)%nat; [discriminate|].
  destruct (LinearRegression_fit _ _) as [R|e]; [|discriminate].
  destruct (ncols R =? nrows (basis n))%nat; [|discriminate].
  destruct (decode_rows (matmul R (basis n)) (domain a b) self) as (pred' & Hdec & Hall).
  { discriminate. }
  { eapply Forall_impl; [apply matmul_rows|]. intros r Hr. simpl in Hr.
    rewrite Hr, basis_ncols, domain_length by lia. reflexivity. }
  rewrite Hdec in Hpred. inversion Hpred; subst pred' self1. clear Hpred.
  apply list_elem_of_In, list_elem_of_lookup in Hp. destruct Hp as (i & Hi).
  destruct (Forall2_lookup_r _ _ _ i p Hall Hi) as (r & Hr & k & Hk & Hdk).
  assert (Hrow : exists r0, r = map (fun j => dot r0 (column j (basis n))) (seq 0 180)).
  { apply list_elem_of_lookup_2, list_elem_of_In in Hr. unfold matmul in Hr.
    apply in_map_iff in Hr. destruct Hr as (r0 & <- & _). exists r0.
    rewrite basis_ncols by lia. reflexivity. }
  destruct Hrow as (r0 & ->).
  pose proof (response_first_max_not_last n r0 k Hk) as Hne.
  pose proof (first_argmax_lt _ _ Hk) as Hlt. rewrite length_map, length_seq in Hlt.
  rewrite domain_lookup in Hdk by exact Hlt. inversion Hdk as [Hp].
  intros Hb.
  assert (Hk' : INR k <= 178).
  { replace 178 with (INR 178) by (rewrite INR_lit; reflexivity). apply le_INR. lia. }
  assert (E : INR k * (b - a) = 179 * (b - a)).
  { apply (Rmult_eq_reg_r (/ 179)); [|apply Rinv_neq_0_compat; lra].
    change (INR k * (b - a) * / 179) with (INR k * (b - a) / 179).
    replace (179 * (b - a) * / 179) with (b - a) by field. lra. }
  assert (E2 : (INR k - 179) * (b - a) = 0) by lra.
  apply Rmult_integral in E2. destruct E2; lra.
Qed.

(** *** Feature values next to [range_stop] *)

Lemma nearest_sample_last a b y :
  a < b -> b - (b - a) / 358 < y -> y <= b ->
  first_argmin (map (fun d => (y - d) ^ 2) (domain a b)) 179.
Proof.
  intros Hab Hlo Hhi.
  set (h := (b - a) / 179). assert (Hh : 0 < h) by (unfold h; lra).
  assert (Hd : forall j, a + INR j * (b - a) / 179 = a + INR j * h)
    by (intros j; unfold h; field).
  assert (Hb : b = a + 179 * h) by (unfold h; field).
  assert (Hy : a + 179 * h - h / 2 < y) by (unfold h; lra).
  assert (Hfar : forall j, (j < 179)%nat ->
             (y - (a + 179 * h)) ^ 2 < (y - (a + INR j * h)) ^ 2).
  { intros j Hj.
    assert (Hj' : INR j <= 178).
    { replace 178 with (INR 178) by (rewrite INR_lit; reflexivity). apply le_INR. lia. }
    assert (Hjh : INR j * h <= 178 * h) by (apply Rmult_le_compat_r; lra).
    assert (E : (y - (a + INR j * h)) ^ 2 - (y - (a + 179 * h)) ^ 2
                = ((179 - INR j) * h) * (2 * (y - a) - 179 * h - INR j * h)) by ring.
    assert (P1 : 0 < (179 - INR j) * h) by (apply Rmult_lt_0_compat; lra).
    assert (P2 : 0 < 2 * (y - a) - 179 * h - INR j * h) by lra.
    pose proof (Rmult_lt_0_compat _ _ P1 P2). lra. }
  exists ((y - (a + 179 * h)) ^ 2). split; [|split].
  - rewrite sq_distance_lookup by lia. rewrite Hd, INR_179. reflexivity.
  - intros j w Hj.
    assert (Hlt : (j < 180)%nat).
    { apply lookup_lt_Some in Hj. rewrite length_map, domain_length in Hj. exact Hj. }
    rewrite sq_distance_lookup in Hj by exact Hlt. rewrite Hd in Hj.
    inversion Hj as [Hw].
    destruct (Nat.eq_dec j 179%nat) as [->|Hne].
    + rewrite INR_179. lra.
    + left. apply Hfar. lia.
  - intros j w Hj179 Hj.
    rewrite sq_distance_lookup in Hj by lia. rewrite Hd in Hj.
    inversion Hj as [Hw]. apply Hfar. exact Hj179.
Qed.

(** The round trip also fails next to [range_stop]: with seven channels and
    identity weights, a feature value a quarter of a step below [range_stop]
    is assigned the last sample, whose basis column is that of the first
    sample, and is decoded to [range_start]. *)
Lemma roundtrip_wraps_near_range_stop :
  exists F self pred,
    channel_activations (basis 7) (domain 0 180) (repeat (180 - 45 / 179) 8) = Some F /\
    fit (Arr2 (matmul F (identity_matrix 7))) (repeat (180 - 45 / 179) 8)
        (__init__ (PInt 7) (PInt 0) (PInt 180)) = (Ok tt, self) /\
    predict (Arr2 (matmul F (identity_matrix 7))) self = (Ok pred, self) /\
    length pred = 8%nat /\
    (forall i p_i, pred !! i = Some p_i -> p_i = 0) /\
    (180 - 0) / 179 < Rabs (0 - (180 - 45 / 179)).
Proof.
  destruct (channel_activations_spec (basis 7) (domain 0 180)
              (repeat (180 - 45 / 179) 8)) as (F & HF & _); [discriminate|].
  exists F.
  destruct (roundtrip_decoded (__init__ (PInt 7) (PInt 0) (PInt 180)) 7 0 180
              (repeat (180 - 45 / 179) 8) F (identity_matrix 7) (identity_matrix 7))
    as (self & pred & Hfit & Hpred & Hlen & Hdec).
  - apply configured_init; reflexivity.
  - lia.
  - lra.
  - exact HF.
  - unfold rect. repeat constructor.
  - reflexivity.
  - reflexivity.
  - exact identity7_square.
  - simpl. lia.
  - exists self, pred. split; [exact HF|]. split; [exact Hfit|]. split; [exact Hpred|].
    split; [exact Hlen|]. split.
    + intros i p_i Hpi.
      assert (Hi : (i < 8)%nat) by (apply lookup_lt_Some in Hpi; rewrite Hlen in Hpi; exact Hpi).
      assert (Hyi : repeat (180 - 45 / 179) 8 !! i = Some (180 - 45 / 179)).
      { do 8 (destruct i as [|i]; [reflexivity|]). lia. }
      destruct (Hdec i _ p_i Hyi Hpi) as (k & k' & Hk & Hk' & Hdk').
      assert (Hlast : first_argmin
                        (map (fun d => (180 - 45 / 179 - d) ^ 2) (domain 0 180)) 179)
        by (apply nearest_sample_last; lra).
      rewrite (first_argmin_unique _ k 179 Hk Hlast) in Hk'.
      rewrite basis_last_column in Hk'.
      pose proof (response_argmax 7 0 ltac:(lia) ltac:(lia)) as Hmax.
      rewrite (first_argmax_unique _ k' 0 Hk' Hmax) in Hdk'.
      rewrite domain_lookup in Hdk' by lia. inversion Hdk' as [Hp].
      change (INR 0) with 0. field.
    + unfold Rabs. destruct (Rcase_abs (0 - (180 - 45 / 179))); lra.
Qed.

(** ** Failures outside the input checks *)

(** An input with three axes passes both guards of [predict] and is refused
    by the regression. *)
Lemma predict_three_axes_raises :
  exists self,
    fit (Arr2 [[0]; [0]]) [0; 0] default_estimator = (Ok tt, self) /\
    predict (ArrN [3; 1; 1]%nat) self
    = (Raise (ValueError "Found array with unsupported number of dimensions"), self).
Proof.
  destruct (default_zero_fit [0; 0] eq_refl) as (self & coef & Hfit & Hfitted & _).
  exists self. split; [exact Hfit|].
  unfold predict.
  change (length (np_shape (ArrN [3; 1; 1]%nat)) <? 2)%nat with false.
  change (np_size (ArrN [3; 1; 1]%nat) 0 <=? np_size (ArrN [3; 1; 1]%nat) 1)%nat
    with false.
  cbv iota.
  erewrite bind_Raise; [reflexivity|].
  rewrite (predict_directions_eq self _ _ _ (ArrN [3; 1; 1]%nat) Hfitted). reflexivity.
Qed.

(** A failure of the regression in [fit] comes after the basis has been
    stored: data without units passes the four input checks, and the call
    ends with [C_] and [C_D_] assigned and no weights. *)
Lemma fit_late_failure_stores_basis :
  fit (Arr2 [[]; []; []]) [0; 0; 0] default_estimator
  = (Raise (ValueError "Found target array with 0 sample(s) or 0 feature(s)"),
     <["C_D_" := PArr (Arr1 (domain 0 180))]>
       (<["C_" := PArr (Arr2 (basis 5))]> default_estimator)).
Proof.
  assert (Hd : _define_channels default_estimator
               = (Ok (basis 5, domain 0 180), default_estimator))
    by (apply define_channels_default_ok; [exact configured_default|lia]).
  destruct (channel_activations_spec (basis 5) (domain 0 180) [0; 0; 0])
    as (F & HF & Hlen & _); [discriminate|].
  rewrite (fit_valid default_estimator 5 (Arr2 [[]; []; []]) [0; 0; 0]
             (basis 5) (domain 0 180) F eq_refl ltac:(lia)); try assumption.
  - assert (HFc : ncols F = 5%nat).
    { rewrite (channel_activations_ncols _ _ _ _ HF); [apply basis_length|discriminate]. }
    unfold LinearRegression_fit.
    assert (E1 : (nrows F =? 0)%nat = false) by (apply Nat.eqb_neq; unfold nrows; simpl in Hlen; lia).
    assert (E2 : (ncols F =? 0)%nat = false) by (apply Nat.eqb_neq; lia).
    rewrite E1, E2. reflexivity.
  - simpl. lia.
  - unfold np_size. simpl. lia.
  - reflexivity.
Qed.

(** ** The round trip with five channels *)

(** With five channels, the default, two more pairs of harmonics survive in
    the scalar products and shift the peak of some response curves away from
    the sample of the column. *)
Lemma basis_gram_five alpha beta :
  bigsum 5 (fun c => cos (alpha - INR c * (PI / INR 5)) ^ 6
                     * cos (beta - INR c * (PI / INR 5)) ^ 6)
  = 5 / 2048
    * (200 + 225 * cos (2 * (alpha - beta)) + 36 * cos (4 * (alpha - beta))
       + cos (6 * (alpha - beta))
       + 6 * cos (4 * alpha + 6 * beta) + 6 * cos (6 * alpha + 4 * beta)).
Proof.
  rewrite basis_gram by lia.
  cbn [bigsum cos6_coef]. eval_divides.
  change (INR 0) with 0. change (INR 1) with 1.
  replace (INR 2) with 2 by (rewrite INR_lit; reflexivity).
  replace (INR 3) with 3 by (rewrite INR_lit; reflexivity).
  replace (INR 5) with 5 by (rewrite INR_lit; reflexivity).
  replace (2 * 0 * alpha - 2 * 0 * beta) with 0 by ring.
  replace (2 * 0 * alpha + 2 * 0 * beta) with 0 by ring.
  replace (2 * 1 * alpha - 2 * 1 * beta) with (2 * (alpha - beta)) by ring.
  replace (2 * 2 * alpha - 2 * 2 * beta) with (4 * (alpha - beta)) by ring.
  replace (2 * 3 * alpha - 2 * 3 * beta) with (6 * (alpha - beta)) by ring.
  replace (2 * 2 * alpha + 2 * 3 * beta) with (4 * alpha + 6 * beta) by ring.
  replace (2 * 3 * alpha + 2 * 2 * beta) with (6 * alpha + 4 * beta) by ring.
  rewrite cos_0. field.
Qed.

Lemma sample_response_five (j : nat) :
  bigsum 5 (fun c => cos (sample_point 81 - INR c * (PI / INR 5)) ^ 6
                     * cos (sample_point j - INR c * (PI / INR 5)) ^ 6)
  = 5 / 2048
    * (200 + 225 * cos (2 * (81 - INR j) * (PI / 179))
       + 36 * cos (4 * (81 - INR j) * (PI / 179))
       + cos (6 * (81 - INR j) * (PI / 179))
       + 6 * sin ((963 / 2 - 6 * INR j) * (PI / 179))
       + 6 * sin ((639 / 2 - 4 * INR j) * (PI / 179))).
Proof.
  rewrite basis_gram_five. unfold sample_point.
  replace (INR 81) with 81 by (rewrite INR_lit; reflexivity).
  replace (2 * (81 * PI / 179 - INR j * PI / 179))
    with (2 * (81 - INR j) * (PI / 179)) by field.
  replace (4 * (81 * PI / 179 - INR j * PI / 179))
    with (4 * (81 - INR j) * (PI / 179)) by field.
  replace (6 * (81 * PI / 179 - INR j * PI / 179))
    with (6 * (81 - INR j) * (PI / 179)) by field.
  replace (4 * (81 * PI / 179) + 6 * (INR j * PI / 179))
    with (PI / 2 - (963 / 2 - 6 * INR j) * (PI / 179) + 2 * IZR 2 * PI) by field.
  replace (6 * (81 * PI / 179) + 4 * (INR j * PI / 179))
    with (PI / 2 - (639 / 2 - 4 * INR j) * (PI / 179) + 2 * IZR 2 * PI) by field.
  rewrite !cos_period_Z, !cos_shift. reflexivity.
Qed.

Lemma sin_neg_small x : 0 <= x <= 3 -> sin (- x) <= 0.
Proof.
  intros (Hlo & Hhi). rewrite sin_neg.
  pose proof PI2_3_2. pose proof (sin_ge_0 x Hlo ltac:(lra)). lra.
Qed.

(** With five channels the response curve of the column at sample 81 is
    higher at sample 79 than at samples 80, 81 and 82. *)
Lemma response_five_off_peak (j : nat) :
  (80 <= j <= 82)%nat ->
  bigsum 5 (fun c => cos (sample_point 81 - INR c * (PI / INR 5)) ^ 6
                     * cos (sample_point j - INR c * (PI / INR 5)) ^ 6)
  < bigsum 5 (fun c => cos (sample_point 81 - INR c * (PI / INR 5)) ^ 6
                       * cos (sample_point 79 - INR c * (PI / INR 5)) ^ 6).
Proof.
  intros Hj. rewrite !sample_response_five.
  set (u := PI / 179).
  assert (Hu : 0 < u <= 181 / 10000).
  { pose proof PI_RGT_0. pose proof PI_upper. unfold u. split; lra. }
  assert (Hlow : 462 - 3024 * u ^ 2 + 66 * u - 465 * u ^ 3
                 <= 200 + 225 * cos (2 * (81 - INR 79) * u)
                    + 36 * cos (4 * (81 - INR 79) * u)
                    + cos (6 * (81 - INR 79) * u)
                    + 6 * sin ((963 / 2 - 6 * INR 79) * u)
                    + 6 * sin ((639 / 2 - 4 * INR 79) * u)).
  { replace (INR 79) with 79 by (rewrite INR_lit; reflexivity).
    replace (2 * (81 - 79) * u) with (4 * u) by ring.
    replace (4 * (81 - 79) * u) with (8 * u) by ring.
    replace (6 * (81 - 79) * u) with (12 * u) by ring.
    replace ((963 / 2 - 6 * 79) * u) with (15 / 2 * u) by field.
    replace ((639 / 2 - 4 * 79) * u) with (7 / 2 * u) by field.
    pose proof (cos_lower (4 * u)). pose proof (cos_lower (8 * u)).
    pose proof (cos_lower (12 * u)).
    pose proof (sin_lower (15 / 2 * u) ltac:(lra)).
    pose proof (sin_lower (7 / 2 * u) ltac:(lra)).
    assert (0 <= u ^ 3) by (apply pow_le; lra).
    lra. }
  assert (Hgap : 462 + 9 * u < 462 - 3024 * u ^ 2 + 66 * u - 465 * u ^ 3).
  { assert (H2 : u ^ 2 <= 181 / 10000 * u) by nra.
    assert (H3 : u ^ 3 <= 181 / 10000 * (181 / 10000 * u)) by nra.
    lra. }
  assert (Hup : 200 + 225 * cos (2 * (81 - INR j) * u)
                + 36 * cos (4 * (81 - INR j) * u)
                + cos (6 * (81 - INR j) * u)
                + 6 * sin ((963 / 2 - 6 * INR j) * u)
                + 6 * sin ((639 / 2 - 4 * INR j) * u)
                <= 462 + 9 * u).
  { assert (Hcos : forall x, cos x <= 1) by (intros x; apply COS_bound).
    pose proof (Hcos (2 * (81 - INR j) * u)).
    pose proof (Hcos (4 * (81 - INR j) * u)).
    pose proof (Hcos (6 * (81 - INR j) * u)).
    assert (Hc : j = 80%nat \/ j = 81%nat \/ j = 82%nat) by lia.
    destruct Hc as [->|[->| ->]].
    - assert (E : INR 80 = 80) by (rewrite INR_lit; reflexivity). rewrite E in *.
      replace ((963 / 2 - 6 * 80) * u) with (3 / 2 * u) by field.
      replace ((639 / 2 - 4 * 80) * u) with (- (1 / 2 * u)) by field.
      pose proof (sin_upper (3 / 2 * u) ltac:(lra)).
      pose proof (sin_neg_small (1 / 2 * u) ltac:(lra)). lra.
    - assert (E : INR 81 = 81) by (rewrite INR_lit; reflexivity). rewrite E in *.
      replace ((963 / 2 - 6 * 81) * u) with (- (9 / 2 * u)) by field.
      replace ((639 / 2 - 4 * 81) * u) with (- (9 / 2 * u)) by field.
      pose proof (sin_neg_small (9 / 2 * u) ltac:(lra)). lra.
    - assert (E : INR 82 = 82) by (rewrite INR_lit; reflexivity). rewrite E in *.
      replace ((963 / 2 - 6 * 82) * u) with (- (21 / 2 * u)) by field.
      replace ((639 / 2 - 4 * 82) * u) with (- (17 / 2 * u)) by field.
      pose proof (sin_neg_small (21 / 2 * u) ltac:(lra)).
      pose proof (sin_neg_small (17 / 2 * u) ltac:(lra)). lra. }
  lra.
Qed.

Lemma response_five_first_max k' :
  first_argmax
    (map (fun j => dot (column 81 (basis 5)) (column j (basis 5))) (seq 0 180)) k' ->
  (k' < 80 \/ 82 < k')%nat.
Proof.
  intros (v & Hv & Hle & _).
  destruct (le_lt_dec 80 k') as [Hlo|Hlo]; [|left; exact Hlo].
  destruct (le_lt_dec k' 82) as [Hhi|Hhi]; [|right; exact Hhi].
  exfalso.
  rewrite (lookup_map_seq (fun j => dot (column 81 (basis 5)) (column j (basis 5))))
    in Hv by lia.
  apply (inj Some) in Hv. subst v.
  pose proof (Hle 79%nat _
                (lookup_map_seq
                   (fun j => dot (column 81 (basis 5)) (column j (basis 5)))
                   180 79 ltac:(lia))) as H.
  rewrite !basis_column_dot in H by lia. unfold vdot in H.
  change (Z.to_nat 5) with 5%nat in H.
  pose proof (response_five_off_peak k' (conj Hlo Hhi)). lra.
Qed.

Lemma nearest_sample_on_grid k :
  first_argmin (map (fun d => (14580 / 179 - d) ^ 2) (domain 0 180)) k -> k = 81%nat.
Proof.
  intros Hk.
  destruct (nearest_sample 0 180 (14580 / 179) k ltac:(lra) ltac:(lra) ltac:(lra) Hk)
    as (_ & Hnear).
  assert (Hb : - ((180 - 0) / 358) <= 0 + INR k * (180 - 0) / 179 - 14580 / 179
               <= (180 - 0) / 358).
  { revert Hnear. unfold Rabs. destruct (Rcase_abs _); lra. }
  clear Hnear.
  destruct (lt_eq_lt_dec k 81) as [[H|H]|H]; [exfalso|exact H|exfalso].
  - assert (INR k <= 80).
    { replace 80 with (INR 80) by (rewrite INR_lit; reflexivity). apply le_INR. lia. }
    lra.
  - assert (82 <= INR k).
    { replace 82 with (INR 82) by (rewrite INR_lit; reflexivity). apply le_INR. lia. }
    lra.
Qed.

Lemma identity5_square :
  matmul (identity_matrix 5) (identity_matrix 5) = identity_matrix 5.
Proof.
  unfold identity_matrix, matmul, column, dot, Rsum. simpl.
  repeat (f_equal; try ring).
Qed.

(** The round trip fails in the default configuration: with five channels
    and identity weights, trials whose feature value is sample 81 of the
    domain itself are decoded at least two sampling steps away from it. *)
Lemma roundtrip_fails_default_five :
  exists F self pred,
    channel_activations (basis 5) (domain 0 180) (repeat (14580 / 179) 6) = Some F /\
    fit (Arr2 (matmul F (identity_matrix 5))) (repeat (14580 / 179) 6) default_estimator
    = (Ok tt, self) /\
    predict (Arr2 (matmul F (identity_matrix 5))) self = (Ok pred, self) /\
    length pred = 6%nat /\
    domain 0 180 !! 81%nat = Some (14580 / 179) /\
    forall i p_i, pred !! i = Some p_i ->
      2 * ((180 - 0) / 179) <= Rabs (p_i - 14580 / 179).
Proof.
  destruct (channel_activations_spec (basis 5) (domain 0 180)
              (repeat (14580 / 179) 6)) as (F & HF & _); [discriminate|].
  exists F.
  destruct (roundtrip_decoded default_estimator 5 0 180
              (repeat (14580 / 179) 6) F (identity_matrix 5) (identity_matrix 5))
    as (self & pred & Hfit & Hpred & Hlen & Hdec).
  - exact configured_default.
  - lia.
  - lra.
  - exact HF.
  - unfold rect. repeat constructor.
  - reflexivity.
  - reflexivity.
  - exact identity5_square.
  - simpl. lia.
  - exists self, pred. split; [exact HF|]. split; [exact Hfit|]. split; [exact Hpred|].
    split; [exact Hlen|]. split.
    + rewrite domain_lookup by lia. f_equal.
      replace (INR 81) with 81 by (rewrite INR_lit; reflexivity). field.
    + intros i p_i Hpi.
      assert (Hi : (i < 6)%nat) by (apply lookup_lt_Some in Hpi; rewrite Hlen in Hpi; exact Hpi).
      assert (Hyi : repeat (14580 / 179) 6 !! i = Some (14580 / 179)).
      { do 6 (destruct i as [|i]; [reflexivity|]). lia. }
      destruct (Hdec i _ p_i Hyi Hpi) as (k & k' & Hk & Hk' & Hdk').
      rewrite (nearest_sample_on_grid k Hk) in Hk'.
      pose proof (first_argmax_lt _ _ Hk') as Hlt.
      rewrite length_map, length_seq in Hlt.
      rewrite domain_lookup in Hdk' by exact Hlt. apply (inj Some) in Hdk'. subst p_i.
      destruct (response_five_first_max k' Hk') as [Hoff|Hoff].
      * assert (INR k' <= 79).
        { replace 79 with (INR 79) by (rewrite INR_lit; reflexivity). apply le_INR. lia. }
        rewrite Rabs_left1 by lra. lra.
      * assert (83 <= INR k').
        { replace 83 with (INR 83) by (rewrite INR_lit; reflexivity). apply le_INR. lia. }
        rewrite Rabs_right by lra. lra.
Qed.

(** * Further properties of the implementation *)

(** ** Errors of [predict] *)

(** X1: [predict] checks the shape of its input before it reads any
    attribute.  An input with fewer than two axes raises "Not enough data";
    one with no more trials than units raises "Data Matrix ill-conditioned",
    so a single trial can never be decoded; a well-shaped input on an
    estimator without weights raises [AttributeError] for [W_].  The
    instance dictionary is unchanged in each case. *)
Theorem predict_validation_order (self : estimator) (X : ndarray) :
  ((length (np_shape X) < 2)%nat ->
   predict X self = (Raise (ValueError "Not enough data"), self)) /\
  ((2 <= length (np_shape X))%nat -> (np_size X 0 <= np_size X 1)%nat ->
   predict X self = (Raise (ValueError "Data Matrix ill-conditioned"), self)) /\
  ((2 <= length (np_shape X))%nat -> (np_size X 1 < np_size X 0)%nat ->
   self !! "W_" = None ->
   predict X self = (Raise (AttributeError "W_"), self)).
Proof.
  unfold predict. repeat split.
  - intros H. apply Nat.ltb_lt in H. rewrite H. reflexivity.
  - intros H1 H2. apply Nat.ltb_ge in H1. apply Nat.leb_le in H2.
    rewrite H1, H2. reflexivity.
  - intros H1 H2 HW. apply Nat.ltb_ge in H1. apply Nat.leb_gt in H2.
    rewrite H1, H2.
    apply bind_Raise. unfold _predict_directions. apply bind_Raise.
    unfold _predict_channel_responses. apply bind_Raise.
    apply getattr_None. exact HW.
Qed.

Lemma predict_validation_order_examples :
  predict (Arr1 [1; 2]) default_estimator
    = (Raise (ValueError "Not enough data"), default_estimator) /\
  predict (Arr2 [[1; 2]]) default_estimator
    = (Raise (ValueError "Data Matrix ill-conditioned"), default_estimator) /\
  predict (Arr2 [[1]; [2]]) default_estimator
    = (Raise (AttributeError "W_"), default_estimator).
Proof.
  destruct (predict_validation_order default_estimator (Arr1 [1; 2])) as (H1 & _).
  destruct (predict_validation_order default_estimator (Arr2 [[1; 2]])) as (_ & H2 & _).
  destruct (predict_validation_order default_estimator (Arr2 [[1]; [2]])) as (_ & _ & H3).
  split; [apply H1; simpl; lia|].
  split; [apply H2; unfold np_size; simpl; lia|].
  apply H3; [simpl; lia|unfold np_size; simpl; lia|reflexivity].
Defined.

(** X3: [predict], [score] and [get_params] never change the instance
    dictionary, whether they return or raise. *)
Theorem queries_leave_estimator_unchanged (self : estimator) (X : ndarray) (y : vec) :
  snd (predict X self) = self /\ snd (score X y self) = self /\
  snd (get_params self) = self.
Proof.
  split; [apply read_only_predict|]. split; [apply read_only_score|].
  apply read_only_get_params.
Qed.
(** ** Errors of [score] *)

(** X2: [score] raises whatever [predict] raises; and when [predict]
    returns, labels whose number differs from the number of predictions,
    neither of them being one, raise a [ValueError] (they cannot be
    broadcast).  The instance dictionary is unchanged. *)
Theorem score_errors (self : estimator) (X : ndarray) (y : vec) :
  (forall e self', predict X self = (Raise e, self') ->
     score X y self = (Raise e, self)) /\
  (forall pred, predict X self = (Ok pred, self) ->
     length y <> length pred -> length y <> 1%nat -> length pred <> 1%nat ->
     exists msg, score X y self = (Raise (ValueError msg), self)).
Proof.
  split.
  - intros e self' H.
    pose proof (read_only_predict X self) as Hro. rewrite H in Hro. simpl in Hro.
    subst self'. unfold score. apply bind_Raise. exact H.
  - intros pred H Hne Hy Hp. eexists. rewrite (score_unfold _ _ _ _ H).
    apply from_option_None. unfold rss_of, np_sub.
    apply Nat.eqb_neq in Hne. rewrite Hne.
    destruct y as [|y0 [|y1 y]]; destruct pred as [|p0 [|p1 pred]];
      simpl in *; try reflexivity; congruence.
Qed.

(** ** The range of [score] *)

Lemma score_Ok_inv self X y r self' :
  score X y self = (Ok r, self') ->
  exists pred d,
    predict X self = (Ok pred, self) /\ np_sub y pred = Some d /\ self' = self /\
    r = xrsub 1 (xdiv (Rsum (map (fun e => e ^ 2) d))
                      (Rsum (map (fun e => (e - np_mean y) ^ 2) y))).
Proof.
  intros H. unfold score in H. apply bind_Ok_inv in H.
  destruct H as (pred & s1 & Hp & H).
  pose proof (read_only_predict X self) as Hro. rewrite Hp in Hro. simpl in Hro. subst s1.
  apply from_option_Ok_inv in H. destruct H as (Hr & ->).
  unfold rss_of in Hr. destruct (np_sub y pred) as [d|] eqn:Hd; [|discriminate].
  simpl in Hr. inversion Hr. exists pred, d. auto.
Qed.

(** X4: a value returned by [score] is never above 1 and never plus
    infinity. *)
Theorem score_at_most_one (self self' : estimator) (X : ndarray) (y : vec) (r : xreal) :
  score X y self = (Ok r, self') ->
  match r with
  | Finite x => x <= 1
  | NaN => True
  | NInf => True
  | PInf => False
  end.
Proof.
  intros H. destruct (score_Ok_inv _ _ _ _ _ H) as (pred & d & _ & _ & _ & ->).
  pose proof (Rsum_squares_nonneg (fun e => e) d) as Hu.
  pose proof (Rsum_squares_nonneg (fun e => e - np_mean y) y) as Hv.
  set (u := Rsum (map (fun e => e ^ 2) d)) in *.
  set (v := Rsum (map (fun e => (e - np_mean y) ^ 2) y)) in *.
  unfold xdiv. destruct (Req_dec_T v 0) as [Hv0|Hv0].
  - destruct (Req_dec_T u 0); [exact I|].
    destruct (Rlt_dec 0 u); [exact I|]. simpl. lra.
  - simpl. assert (0 <= u / v); [|lra].
    apply Rmult_le_pos; [exact Hu|]. left. apply Rinv_0_lt_compat. lra.
Qed.

Lemma score_at_most_one_example :
  exists self r,
    fit (Arr2 [[0]; [0]]) [0; 90] default_estimator = (Ok tt, self) /\
    score (Arr2 [[0]; [0]]) [0; 90] self = (Ok (Finite r), self) /\ r <= 1.
Proof.
  destruct (default_zero_fit [0; 90] eq_refl) as (self & coef & Hfit & _ & _ & _ & Hp).
  exists self. eexists. split; [exact Hfit|].
  assert (Hs : score (Arr2 [[0]; [0]]) [0; 90] self
               = (Ok (Finite (1 - Rsum (map (fun e => e ^ 2)
                                            (zip_with Rminus [0; 90] [0; 0]))
                                  / Rsum (map (fun e => (e - np_mean [0; 90]) ^ 2)
                                              [0; 90]))), self)).
  { rewrite (score_value self _ [0; 90] [0; 0] Hp eq_refl).
    unfold xdiv. destruct (Req_dec_T _ 0) as [E|_]; [|reflexivity].
    exfalso. revert E. unfold np_mean, Rsum. simpl. lra. }
  split; [exact Hs|].
  exact (score_at_most_one self self (Arr2 [[0]; [0]]) [0; 90] (Finite _) Hs).
Defined.

(** ** What [fit] writes *)

Lemma writes_only_read_only {A : Type} names (m : M A) :
  read_only m -> writes_only names m.
Proof. intros H self name _. rewrite H. reflexivity. Qed.

Lemma writes_only_setattr names name v :
  name ∈ names -> writes_only names (setattr name v).
Proof.
  intros Hin self name' Hout. unfold setattr. simpl.
  apply lookup_insert_ne. intros ->. contradiction.
Qed.

Lemma writes_only_bind {A B : Type} names (m : M A) (k : A -> M B) :
  writes_only names m -> (forall a, writes_only names (k a)) ->
  writes_only names (bind m k).
Proof.
  intros Hm Hk self name Hout. unfold bind.
  specialize (Hm self name Hout).
  destruct (m self) as [[a|e] self1]; simpl in *; [|exact Hm].
  rewrite (Hk a self1 name Hout). exact Hm.
Qed.

Lemma writes_only_if {A : Type} names (c : bool) (m1 m2 : M A) :
  writes_only names m1 -> writes_only names m2 ->
  writes_only names (if c then m1 else m2).
Proof. destruct c; auto. Qed.

Lemma writes_only_fit X y : writes_only fitted_attributes (fit X y).
Proof.
  unfold fit, fitted_attributes.
  apply writes_only_bind; [apply writes_only_read_only, read_only_getattr|intros vn].
  apply writes_only_bind; [apply writes_only_read_only, read_only_as_int|intros n].
  repeat (apply writes_only_if; [apply writes_only_read_only, read_only_raise|]).
  apply writes_only_bind;
    [apply writes_only_read_only, read_only_define_channels|intros [C CD]].
  apply writes_only_bind; [apply writes_only_setattr; repeat constructor|intros _].
  apply writes_only_bind; [apply writes_only_setattr; repeat constructor|intros _].
  apply writes_only_bind; [apply writes_only_read_only, read_only_from_option|intros F].
  apply writes_only_bind; [apply writes_only_read_only, read_only_lift|intros coef].
  apply writes_only_setattr. repeat constructor.
Qed.

Lemma get_params_depends self1 self2 :
  self1 !! "n_channels" = self2 !! "n_channels" ->
  self1 !! "range_start" = self2 !! "range_start" ->
  self1 !! "range_stop" = self2 !! "range_stop" ->
  fst (get_params self1) = fst (get_params self2).
Proof.
  intros H1 H2 H3. unfold get_params, bind, getattr, ret.
  rewrite H1. destruct (self2 !! "n_channels"); [|reflexivity].
  rewrite H2. destruct (self2 !! "range_start"); [|reflexivity].
  rewrite H3. destruct (self2 !! "range_stop"); reflexivity.
Qed.

(** X5: [fit] writes no attribute other than [C_], [C_D_] and [W_],
    whether it returns or raises; in particular [get_params] answers the
    same before and after any call of [fit]. *)
Theorem fit_keeps_other_attributes (X : ndarray) (y : vec) (self : estimator) :
  (forall name, name <> "C_" -> name <> "C_D_" -> name <> "W_" ->
     snd (fit X y self) !! name = self !! name) /\
  fst (get_params (snd (fit X y self))) = fst (get_params self).
Proof.
  assert (H : forall name, name <> "C_" -> name <> "C_D_" -> name <> "W_" ->
                snd (fit X y self) !! name = self !! name).
  { intros name H1 H2 H3. apply (writes_only_fit X y).
    unfold fitted_attributes. rewrite !not_elem_of_cons.
    repeat split; try assumption. apply not_elem_of_nil. }
  split; [exact H|].
  apply get_params_depends; apply H; congruence.
Qed.

(** X6: a call of [fit] that raises leaves [W_] as it was.  The instance
    dictionary is either unchanged or has only [C_] and [C_D_] reassigned:
    a failure of the regression comes after the basis has been stored. *)
Theorem fit_failure_keeps_weights (X : ndarray) (y : vec) (self self' : estimator)
    (e : exn) :
  fit X y self = (Raise e, self') ->
  self' !! "W_" = self !! "W_" /\
  (self' = self \/
   exists C_ C_D_, self' = <["C_D_" := PArr (Arr1 C_D_)]>
                             (<["C_" := PArr (Arr2 C_)]> self)).
Proof.
  intros H.
  assert (Hcases : self' = self \/
            exists C_ C_D_, self' = <["C_D_" := PArr (Arr1 C_D_)]>
                                      (<["C_" := PArr (Arr2 C_)]> self)).
  { revert H. unfold fit, bind at 1, getattr.
    destruct (self !! "n_channels") as [vn|]; [|intros H; inversion H; auto].
    unfold bind at 1, as_int, from_option, ret, raise.
    destruct (int_of vn) as [n|]; [|intros H; inversion H; auto].
    destruct (n <? 2)%Z; [intros H; inversion H; auto|].
    destruct (length (np_shape X) <? 2)%nat; [intros H; inversion H; auto|].
    destruct (np_size X 0 <=? np_size X 1)%nat; [intros H; inversion H; auto|].
    destruct (negb _); [intros H; inversion H; auto|].
    unfold bind at 1.
    pose proof (read_only_define_channels self) as Hro.
    destruct (_define_channels self) as [[[C CD]|e0] s0]; simpl in Hro; subst s0;
      [|intros H; inversion H; auto].
    unfold bind, setattr, from_option, lift, ret, raise.
    destruct (channel_activations C CD y) as [F|];
      [|intros H; inversion H; right; eauto].
    destruct (LinearRegression_fit F X); intros H; inversion H. right. eauto. }
  split; [|exact Hcases].
  destruct Hcases as [->|(C & CD & ->)]; [reflexivity|].
  rewrite !lookup_insert_ne by discriminate. reflexivity.
Qed.

Lemma fit_failure_keeps_weights_example :
  (<["C_D_" := PArr (Arr1 (domain 0 180))]>
     (<["C_" := PArr (Arr2 (basis 5))]> default_estimator)) !! "W_"
  = default_estimator !! "W_" /\
  (<["C_D_" := PArr (Arr1 (domain 0 180))]>
     (<["C_" := PArr (Arr2 (basis 5))]> default_estimator) = default_estimator \/
   exists C_ C_D_,
     <["C_D_" := PArr (Arr1 (domain 0 180))]>
       (<["C_" := PArr (Arr2 (basis 5))]> default_estimator)
     = <["C_D_" := PArr (Arr1 C_D_)]> (<["C_" := PArr (Arr2 C_)]> default_estimator)).
Proof.
  exact (fit_failure_keeps_weights _ _ _ _ _ fit_late_failure_stores_basis).
Defined.

(** ** Fitting again *)

Lemma configured_after_fit (self : estimator) n a b (C_ : matrix) (C_D_ : vec) (coef_ : matrix) :
  configured self n a b ->
  configured (<["W_" := PLinReg coef_]>
                (<["C_D_" := PArr (Arr1 C_D_)]> (<["C_" := PArr (Arr2 C_)]> self)))
             n a b.
Proof.
  intros (H1 & (v2 & H2 & E2) & (v3 & H3 & E3)). unfold configured.
  rewrite !lookup_insert_ne by congruence.
  split; [exact H1|]. split; [exists v2|exists v3]; auto.
Qed.

Lemma define_channels_same self self' n a b :
  configured self n a b -> configured self' n a b -> (2 <= n)%Z ->
  fst (_define_channels self') = fst (_define_channels self).
Proof.
  intros Hc Hc' Hn.
  rewrite (define_channels_unfold self n a b Hc Hn).
  rewrite (define_channels_unfold self' n a b Hc' Hn).
  destruct (Rgt_dec _ _); reflexivity.
Qed.

Lemma fitted_overwrite (self : estimator) (C1 C2 : matrix) (D1 D2 : vec) (W1 W2 : matrix) :
  <["W_" := PLinReg W2]>
    (<["C_D_" := PArr (Arr1 D2)]>
       (<["C_" := PArr (Arr2 C2)]>
          (<["W_" := PLinReg W1]>
             (<["C_D_" := PArr (Arr1 D1)]> (<["C_" := PArr (Arr2 C1)]> self)))))
  = <["W_" := PLinReg W2]>
      (<["C_D_" := PArr (Arr1 D2)]> (<["C_" := PArr (Arr2 C2)]> self)).
Proof.
  apply map_eq. intros name.
  destruct (decide (name = "W_")) as [->|HW]; [rewrite !lookup_insert_eq; reflexivity|].
  rewrite !(lookup_insert_ne _ "W_") by congruence.
  destruct (decide (name = "C_D_")) as [->|HD].
  { rewrite !lookup_insert_eq. reflexivity. }
  rewrite !(lookup_insert_ne _ "C_D_") by congruence.
  destruct (decide (name = "C_")) as [->|HC].
  { rewrite !lookup_insert_eq. reflexivity. }
  rewrite !(lookup_insert_ne _ "C_") by congruence.
  rewrite !(lookup_insert_ne _ "W_") by congruence.
  rewrite !(lookup_insert_ne _ "C_D_") by congruence.
  rewrite !(lookup_insert_ne _ "C_") by congruence.
  reflexivity.
Qed.

(** X7: fitting again forgets the previous fit: on an estimator that has
    been fitted, a successful [fit] ends in the same instance dictionary as
    the same call on the estimator before its first fit.  In particular
    fitting twice on the same data changes nothing. *)
Theorem fit_forgets_previous_fit (X1 X2 : ndarray) (y1 y2 : vec)
    (self0 self1 self2 : estimator) :
  fit X1 y1 self0 = (Ok tt, self1) ->
  fit X2 y2 self0 = (Ok tt, self2) ->
  fit X2 y2 self1 = (Ok tt, self2).
Proof.
  intros H1 H2.
  destruct (fit_Ok_inv _ _ _ _ H1)
    as (n & a & b & m1 & F1 & Hc & Hn & -> & _ & _ & _ & Hd1 & _ & ->).
  destruct (fit_Ok_inv _ _ _ _ H2)
    as (n' & a' & b' & m2 & F2 & Hc' & _ & -> & Htall & Hlen & Hu & Hd2 & HF2 & ->).
  destruct (configured_inj _ _ _ _ _ _ _ Hc Hc') as (<- & <- & <-). clear Hc'.
  match goal with
  | |- fit _ _ ?s = _ => set (self1 := s)
  end.
  assert (Hc1 : configured self1 n a b) by (apply configured_after_fit; exact Hc).
  assert (Hd : _define_channels self1 = (Ok (basis n, domain a b), self1)).
  { pose proof (define_channels_same self0 self1 n a b Hc Hc1 Hn) as E.
    rewrite Hd1 in E. simpl in E.
    pose proof (read_only_define_channels self1) as Hro.
    destruct (_define_channels self1) as [o s]. simpl in E, Hro. subst. reflexivity. }
  destruct Hc1 as (Hn1 & _).
  rewrite (fit_valid self1 n (Arr2 m2) y2 (basis n) (domain a b) F2 Hn1 Hn
             ltac:(simpl; lia) Htall Hlen Hd HF2).
  rewrite LinearRegression_fit_Ok.
  - unfold self1. rewrite fitted_overwrite. reflexivity.
  - rewrite (channel_activations_nrows _ _ _ _ HF2). lia.
  - rewrite (channel_activations_ncols _ _ _ _ HF2).
    + unfold nrows. rewrite basis_length. lia.
    + destruct y2; [simpl in Hlen; lia|discriminate].
  - rewrite (channel_activations_nrows _ _ _ _ HF2). exact Hlen.
  - exact Hu.
Qed.

Lemma fit_forgets_previous_fit_example :
  exists self,
    fit (Arr2 [[0]; [0]]) [0; 0] default_estimator = (Ok tt, self) /\
    fit (Arr2 [[0]; [0]]) [0; 0] self = (Ok tt, self).
Proof.
  destruct (default_zero_fit [0; 0] eq_refl) as (self & coef & Hfit & _).
  exists self. split; [exact Hfit|].
  exact (fit_forgets_previous_fit _ _ _ _ _ _ _ Hfit Hfit).
Defined.

(** ** What a successful [fit] leaves behind *)

Lemma ch_sum_range_nonneg (n : Z) : (2 <= n)%Z -> 0 <= ch_sum_range n.
Proof.
  intros Hn. unfold ch_sum_range.
  assert (Hin : In (nth 0 (np_sum_axis0 (basis n)) 0) (np_sum_axis0 (basis n))).
  { apply nth_In. unfold np_sum_axis0. rewrite length_map, length_seq.
    rewrite basis_ncols by lia. lia. }
  pose proof (spread_ge _ _ _ Hin Hin). lra.
Qed.

Lemma deg2rad_sign x : deg2rad x * 0.1 < 0 <-> x < 0.
Proof.
  unfold deg2rad. pose proof PI_RGT_0.
  assert (E : x * (PI / 180) * 0.1 = x * (PI / 1800)) by lra. rewrite E.
  split; intros Hx.
  - destruct (Rle_dec 0 x) as [H0|H0]; [|lra].
    assert (0 <= x * (PI / 1800)) by (apply Rmult_le_pos; lra). lra.
  - assert (0 < (- x) * (PI / 1800)) by (apply Rmult_lt_0_compat; lra). lra.
Qed.

(** X8: what a successful [fit] implies.  The hyperparameters are an
    integer [n_channels >= 2] and a range with [range_start <= range_stop];
    [X] is two-dimensional with at least one unit, more trials than units and
    as many trials as labels; afterwards [C_] is the [n_channels] by 180
    basis, [C_D_] the 180 samples of the domain, and the weights have one
    row per unit and one column per channel. *)
Theorem fit_success_shapes (self self' : estimator) (X : ndarray) (y : vec) :
  fit X y self = (Ok tt, self') ->
  exists n a b m coef_,
    configured self n a b /\ (2 <= n)%Z /\ a <= b /\
    X = Arr2 m /\ (1 <= ncols m < nrows m)%nat /\ nrows m = length y /\
    fitted self' (basis n) (domain a b) coef_ /\
    nrows (basis n) = Z.to_nat n /\ ncols (basis n) = 180%nat /\
    length (domain a b) = 180%nat /\
    nrows coef_ = ncols m /\ Forall (fun row => length row = Z.to_nat n) coef_.
Proof.
  intros H.
  destruct (fit_Ok_inv _ _ _ _ H)
    as (n & a & b & m & F & Hc & Hn & -> & Htall & Hlen & Hu & Hd & HF & ->).
  exists n, a, b, m. eexists.
  split; [exact Hc|]. split; [exact Hn|]. split.
  { rewrite (define_channels_unfold self n a b Hc Hn) in Hd.
    destruct (Rgt_dec _ _) as [|Hle]; [discriminate|].
    pose proof (ch_sum_range_nonneg n Hn).
    destruct (Rle_dec a b) as [Hab|Hab]; [exact Hab|].
    exfalso. apply Hle. assert (Hneg : b - a < 0) by lra.
    apply deg2rad_sign in Hneg. lra. }
  split; [reflexivity|]. split; [lia|]. split; [exact Hlen|].
  split; [apply fitted_after_fit|].
  split; [apply basis_length|]. split; [apply basis_ncols; lia|].
  split; [apply domain_length|]. split.
  - unfold nrows. rewrite length_map, length_seq. reflexivity.
  - apply Forall_forall. intros row Hrow. apply list_elem_of_In in Hrow.
    apply in_map_iff in Hrow. destruct Hrow as (t & <- & _).
    rewrite lstsq_length. rewrite (channel_activations_ncols _ _ _ _ HF).
    + apply basis_length.
    + destruct y; [simpl in Hlen; lia|discriminate].
Qed.

Lemma fit_success_shapes_example :
  exists self,
    fit (Arr2 [[0]; [0]]) [0; 0] default_estimator = (Ok tt, self) /\
    exists n a b m coef_,
      configured default_estimator n a b /\ (2 <= n)%Z /\ a <= b /\
      Arr2 [[0]; [0]] = Arr2 m /\ (1 <= ncols m < nrows m)%nat /\
      nrows m = length [0; 0] /\
      fitted self (basis n) (domain a b) coef_ /\
      nrows (basis n) = Z.to_nat n /\ ncols (basis n) = 180%nat /\
      length (domain a b) = 180%nat /\
      nrows coef_ = ncols m /\ Forall (fun row => length row = Z.to_nat n) coef_.
Proof.
  destruct (default_zero_fit [0; 0] eq_refl) as (self & coef & Hfit & _).
  exists self. split; [exact Hfit|].
  exact (fit_success_shapes _ _ _ _ Hfit).
Defined.
(** ** [set_params] *)

Lemma set_params_Ok parameters self :
  fst (set_params parameters self) = Ok tt.
Proof.
  revert self. induction parameters as [|[k v] rest IH]; intros self; [reflexivity|].
  simpl. unfold bind, setattr. apply IH.
Qed.

Lemma set_params_cons k v rest self :
  snd (set_params ((k, v) :: rest) self) = snd (set_params rest (<[k := v]> self)).
Proof. reflexivity. Qed.

Lemma set_params_other parameters (self : estimator) name :
  name ∉ map fst parameters ->
  snd (set_params parameters self) !! name = self !! name.
Proof.
  revert self. induction parameters as [|[k v] rest IH]; intros self Hout; [reflexivity|].
  rewrite set_params_cons. simpl in Hout. apply not_elem_of_cons in Hout.
  destruct Hout as (Hk & Hrest).
  rewrite IH by exact Hrest. apply lookup_insert_ne. congruence.
Qed.



(** ** A fit outlives later changes of the hyperparameters *)

Lemma reads_only_pure {A : Type} names (m : M A) :
  (forall s1 s2, fst (m s1) = fst (m s2)) -> reads_only names m.
Proof. intros H s1 s2 _. apply H. Qed.

Lemma reads_only_getattr names name : name ∈ names -> reads_only names (getattr name).
Proof.
  intros Hin s1 s2 Heq. unfold getattr. rewrite (Heq name Hin).
  destruct (s2 !! name); reflexivity.
Qed.

Lemma reads_only_bind {A B : Type} names (m : M A) (k : A -> M B) :
  read_only m -> reads_only names m -> (forall a, reads_only names (k a)) ->
  reads_only names (bind m k).
Proof.
  intros Hro Hm Hk s1 s2 Heq. unfold bind.
  pose proof (Hro s1) as E1. pose proof (Hro s2) as E2.
  pose proof (Hm s1 s2 Heq) as Em.
  destruct (m s1) as [o1 t1], (m s2) as [o2 t2]. simpl in *. subst.
  destruct o2 as [a|e]; [|reflexivity]. apply Hk. exact Heq.
Qed.

Lemma reads_only_if {A : Type} names (c : bool) (m1 m2 : M A) :
  reads_only names m1 -> reads_only names m2 ->
  reads_only names (if c then m1 else m2).
Proof. destruct c; auto. Qed.

Lemma reads_only_from_option {A : Type} names e (o : option A) :
  reads_only names (from_option e o).
Proof. apply reads_only_pure. intros s1 s2. destruct o; reflexivity. Qed.

Lemma reads_only_predict X : reads_only fitted_attributes (predict X).
Proof.
  assert (HC : "C_" ∈ fitted_attributes) by (unfold fitted_attributes; repeat constructor).
  assert (HD : "C_D_" ∈ fitted_attributes) by (unfold fitted_attributes; repeat constructor).
  assert (HW : "W_" ∈ fitted_attributes) by (unfold fitted_attributes; repeat constructor).
  unfold predict.
  apply reads_only_if; [apply reads_only_pure; reflexivity|].
  apply reads_only_if; [apply reads_only_pure; reflexivity|].
  apply reads_only_bind; [apply read_only_predict_directions| |intros resp].
  - unfold _predict_directions.
    apply reads_only_bind; [apply read_only_predict_channel_responses| |intros r].
    + unfold _predict_channel_responses.
      apply reads_only_bind; [apply read_only_getattr| |intros vw].
      * apply reads_only_getattr. exact HW.
      * apply reads_only_bind; [apply read_only_as_linreg| |intros coef].
        -- apply reads_only_from_option.
        -- apply reads_only_pure. reflexivity.
    + apply reads_only_bind; [apply read_only_getattr| |intros vc].
      * apply reads_only_getattr. exact HC.
      * apply reads_only_bind; [apply read_only_as_matrix| |intros C].
        -- apply reads_only_from_option.
        -- unfold np_dot. apply reads_only_if; apply reads_only_pure; reflexivity.
  - apply reads_only_bind; [apply read_only_from_option| |intros idx].
    + apply reads_only_from_option.
    + apply reads_only_bind; [apply read_only_getattr| |intros vd].
      * apply reads_only_getattr. exact HD.
      * apply reads_only_bind; [apply read_only_as_vec| |intros D].
        -- apply reads_only_from_option.
        -- apply reads_only_from_option.
Qed.


(** ** [predict] on a fitted estimator: unit count and zero data *)

(** The weights of a fitted estimator. *)
Lemma fit_Ok_weights self0 X0 y0 self :
  fit X0 y0 self0 = (Ok tt, self) ->
  exists n a b coef_,
    configured self0 n a b /\ (2 <= n)%Z /\
    fitted self (basis n) (domain a b) coef_ /\
    nrows coef_ = np_size X0 1 /\ nrows coef_ <> 0%nat /\
    ncols coef_ = Z.to_nat n /\ rect coef_.
Proof.
  intros H.
  destruct (fit_Ok_inv _ _ _ _ H)
    as (n & a & b & m & F & Hc & Hn & -> & Htall & Hlen & Hu & Hd & HF & ->).
  assert (HFc : ncols F = Z.to_nat n).
  { rewrite (channel_activations_ncols _ _ _ _ HF).
    - apply basis_length.
    - destruct y0; [simpl in Hlen; lia|discriminate]. }
  exists n, a, b. eexists.
  split; [exact Hc|]. split; [exact Hn|]. split; [apply fitted_after_fit|].
  assert (Hr : nrows (map (fun t => lstsq F (column t m)) (seq 0 (ncols m))) = ncols m)
    by (unfold nrows; rewrite length_map, length_seq; reflexivity).
  assert (Hcc : ncols (map (fun t => lstsq F (column t m)) (seq 0 (ncols m)))
                = Z.to_nat n).
  { rewrite ncols_map_seq by exact Hu. rewrite lstsq_length. exact HFc. }
  split; [exact Hr|]. split; [rewrite Hr; exact Hu|]. split; [exact Hcc|].
  unfold rect. rewrite Hcc. apply List.Forall_forall. intros row Hrow.
  apply in_map_iff in Hrow. destruct Hrow as (t & <- & _).
  rewrite lstsq_length. exact HFc.
Qed.

(** X11: on a fitted estimator, an input whose number of units differs
    from that of the training data never yields predictions: [predict]
    raises, and the instance dictionary is unchanged. *)
Theorem predict_unit_mismatch (self0 self : estimator) (X0 : ndarray) (y0 : vec)
    (m : matrix) :
  fit X0 y0 self0 = (Ok tt, self) ->
  (ncols m < nrows m)%nat -> ncols m <> np_size X0 1 ->
  exists e, predict (Arr2 m) self = (Raise e, self).
Proof.
  intros Hfit Htall Hne.
  destruct (fit_Ok_weights _ _ _ _ Hfit)
    as (n & a & b & coef & Hc & Hn & Hfitted & Hr & Hr0 & Hcc & Hrect).
  rewrite (predict_unfold self _ _ _ m Hfitted).
  assert (E : (nrows m <=? ncols m)%nat = false) by (apply Nat.leb_gt; exact Htall).
  rewrite E. unfold LinearRegression_fit.
  assert (E1 : (nrows coef =? 0)%nat = false) by (apply Nat.eqb_neq; exact Hr0).
  assert (E2 : (ncols coef =? 0)%nat = false) by (apply Nat.eqb_neq; lia).
  rewrite E1, E2. simpl orb. cbv iota.
  destruct ((nrows (transpose m) =? 0)%nat || (ncols (transpose m) =? 0)%nat);
    [eexists; reflexivity|].
  assert (E3 : (nrows (transpose m) =? nrows coef)%nat = false).
  { apply Nat.eqb_neq. rewrite transpose_nrows, Hr. exact Hne. }
  rewrite E3. simpl negb. cbv iota. eexists. reflexivity.
Qed.

Lemma predict_unit_mismatch_example :
  exists self,
    fit (Arr2 [[0]; [0]]) [0; 0] default_estimator = (Ok tt, self) /\
    exists e, predict (Arr2 [[0; 0]; [0; 0]; [0; 0]]) self = (Raise e, self).
Proof.
  destruct (default_zero_fit [0; 0] eq_refl) as (self & coef & Hfit & _).
  exists self. split; [exact Hfit|].
  apply (predict_unit_mismatch default_estimator self (Arr2 [[0]; [0]]) [0; 0]
           [[0; 0]; [0; 0]; [0; 0]] Hfit).
  - simpl. lia.
  - unfold np_size. simpl. lia.
Defined.

(** ** Test data that is identically zero *)

Lemma np_zeros_nrows t u : nrows (np_zeros t u) = t.
Proof. unfold np_zeros, nrows. apply repeat_length. Qed.

Lemma np_zeros_ncols t u : t <> 0%nat -> ncols (np_zeros t u) = u.
Proof.
  destruct t as [|t]; [congruence|]. intros _. unfold np_zeros. simpl.
  apply repeat_length.
Qed.

Lemma nth_repeat_lt {A : Type} (x d : A) n i :
  (i < n)%nat -> nth i (repeat x n) d = x.
Proof.
  revert i. induction n as [|n IH]; intros i Hi; [lia|].
  destruct i as [|i]; [reflexivity|]. simpl. apply IH. lia.
Qed.

Lemma nth_zero (l : vec) i : (forall x, In x l -> x = 0) -> nth i l 0 = 0.
Proof.
  intros H. destruct (lt_dec i (length l)) as [Hi|Hi].
  - apply H, nth_In. exact Hi.
  - apply nth_overflow. lia.
Qed.

Lemma column_zero (m : matrix) j :
  (forall r, In r m -> forall x, In x r -> x = 0) ->
  forall x, In x (column j m) -> x = 0.
Proof.
  intros H x Hx. unfold column in Hx. apply in_map_iff in Hx.
  destruct Hx as (r & <- & Hr). apply nth_zero. exact (H r Hr).
Qed.

Lemma transpose_zero (m : matrix) :
  (forall r, In r m -> forall x, In x r -> x = 0) ->
  forall r, In r (transpose m) -> forall x, In x r -> x = 0.
Proof.
  intros H r Hr. unfold transpose in Hr. apply in_map_iff in Hr.
  destruct Hr as (j & <- & _). apply column_zero. exact H.
Qed.

Lemma np_zeros_zero t u : forall r, In r (np_zeros t u) -> forall x, In x r -> x = 0.
Proof.
  intros r Hr x Hx. unfold np_zeros in Hr. apply repeat_spec in Hr. subst r.
  apply repeat_spec in Hx. exact Hx.
Qed.

(** X12: on a fitted estimator, test data that is identically zero, with
    the unit count of the training data, is decoded to [range_start] for
    every trial. *)
Theorem predict_zero_data (self0 self : estimator) (X0 : ndarray) (y0 : vec) (t : nat) :
  fit X0 y0 self0 = (Ok tt, self) -> (np_size X0 1 < t)%nat ->
  exists n a b,
    configured self0 n a b /\
    predict (Arr2 (np_zeros t (np_size X0 1))) self = (Ok (repeat a t), self).
Proof.
  intros Hfit Ht.
  destruct (fit_Ok_weights _ _ _ _ Hfit)
    as (n & a & b & coef & Hc & Hn & Hfitted & Hr & Hr0 & Hcc & Hrect).
  exists n, a, b. split; [exact Hc|].
  set (u := np_size X0 1) in *.
  assert (Ht0 : t <> 0%nat) by lia.
  assert (Hne : domain a b <> []) by discriminate.
  rewrite (predict_unfold self _ _ _ (np_zeros t u) Hfitted).
  rewrite np_zeros_nrows, np_zeros_ncols by exact Ht0.
  assert (E : (t <=? u)%nat = false) by (apply Nat.leb_gt; exact Ht). rewrite E.
  set (zN := map (fun _ : nat => 0) (seq 0 (Z.to_nat n))).
  assert (HzN : forall x, In x zN -> x = 0).
  { intros x Hx. apply in_map_iff in Hx. destruct Hx as (? & <- & _). reflexivity. }
  assert (HR : LinearRegression_fit coef (Arr2 (transpose (np_zeros t u)))
               = Ok (map (fun _ => zN) (seq 0 t))).
  { rewrite LinearRegression_fit_Ok.
    - f_equal. rewrite transpose_ncols by (rewrite np_zeros_ncols; lia).
      rewrite np_zeros_nrows. apply map_ext. intros i.
      unfold zN. rewrite <- Hcc. apply lstsq_zero; [exact Hrect| |].
      + rewrite column_length, transpose_nrows, np_zeros_ncols by exact Ht0.
        symmetry. exact Hr.
      + intros k. apply nth_zero, column_zero, transpose_zero, np_zeros_zero.
    - exact Hr0.
    - lia.
    - rewrite transpose_nrows, np_zeros_ncols by exact Ht0. symmetry. exact Hr.
    - rewrite transpose_ncols by (rewrite np_zeros_ncols; lia).
      rewrite np_zeros_nrows. exact Ht0. }
  rewrite HR.
  assert (E2 : (ncols (map (fun _ : nat => zN) (seq 0 t)) =? nrows (basis n))%nat = true).
  { apply Nat.eqb_eq. rewrite ncols_map_seq by exact Ht0. unfold zN, nrows.
    rewrite length_map, length_seq, basis_length. reflexivity. }
  rewrite E2.
  assert (Hrow : forall r, In r (matmul (map (fun _ : nat => zN) (seq 0 t)) (basis n)) ->
                 np_argmax r = Some 0%nat).
  { intros r Hr'. unfold matmul in Hr'. apply in_map_iff in Hr'.
    destruct Hr' as (w & <- & Hw). apply in_map_iff in Hw. destruct Hw as (i0 & <- & _).
    apply (np_argmax_const _ 0).
    - rewrite basis_ncols by lia. discriminate.
    - intros x Hx. apply in_map_iff in Hx. destruct Hx as (j & <- & _).
      apply dot_zero_l. exact HzN. }
  destruct (decode_rows (matmul (map (fun _ : nat => zN) (seq 0 t)) (basis n))
              (domain a b) self Hne) as (pred & Hdec & Hall).
  { eapply Forall_impl; [apply matmul_rows|]. intros r Hr'. simpl in Hr'.
    rewrite Hr', basis_ncols, domain_length by lia. reflexivity. }
  rewrite Hdec. f_equal. f_equal.
  assert (Hlen : length pred = t).
  { apply Forall2_length in Hall. rewrite <- Hall.
    unfold matmul. rewrite !length_map, length_seq. reflexivity. }
  apply (nth_ext _ _ 0 0); [rewrite repeat_length; exact Hlen|].
  intros i Hi. rewrite Hlen in Hi. rewrite (nth_repeat_lt _ _ _ _ Hi).
  destruct (lookup_lt_is_Some_2 pred i ltac:(lia)) as (p & Hp).
  rewrite (nth_of_lookup _ _ _ _ Hp).
  destruct (Forall2_lookup_r _ _ _ _ _ Hall Hp) as (r & Hri & k & Hk & Hdk).
  assert (Hin : In r (matmul (map (fun _ : nat => zN) (seq 0 t)) (basis n))).
  { apply list_elem_of_In. eapply list_elem_of_lookup_2. exact Hri. }
  pose proof (np_argmax_first r 0 (Hrow r Hin)) as Hk0.
  rewrite (first_argmax_unique r k 0 Hk Hk0) in Hdk.
  rewrite domain_lookup in Hdk by lia. apply (inj Some) in Hdk. subst p.
  change (INR 0) with 0. field.
Qed.

Lemma predict_zero_data_example :
  exists self,
    fit (Arr2 [[0]; [0]]) [0; 90] default_estimator = (Ok tt, self) /\
    exists n a b,
      configured default_estimator n a b /\
      predict (Arr2 (np_zeros 3 (np_size (Arr2 [[0]; [0]]) 1))) self
      = (Ok (repeat a 3), self).
Proof.
  destruct (default_zero_fit [0; 90] eq_refl) as (self & coef & Hfit & _).
  exists self. split; [exact Hfit|].
  apply (predict_zero_data default_estimator self (Arr2 [[0]; [0]]) [0; 90] 3 Hfit).
  unfold np_size. simpl. lia.
Defined.
(** ** The coverage check across channel counts and ranges *)

Lemma PI_tight : 3135 / 1000 < PI < 3143 / 1000.
Proof.
  destruct (PI_2_3_7_ineq 0) as (Hlo & _). destruct (PI_2_3_7_ineq 1) as (_ & Hhi).
  unfold sum_f_R0, tg_alt, PI_2_3_7_tg, Ratan_seq in Hlo, Hhi.
  simpl in Hlo, Hhi. split; lra.
Qed.

Lemma threshold_eq x : deg2rad x * 0.1 = x * PI / 1800.
Proof. unfold deg2rad. lra. Qed.

Lemma ch_sum_range_two_sharp : 74 / 100 <= ch_sum_range 2.
Proof.
  unfold ch_sum_range. rewrite np_sum_axis0_basis by lia.
  change (Z.to_nat 2) with 2%nat.
  set (f := fun j => bigsum 2 (fun i => cos (sample_point j - INR i * (PI / 2)) ^ 6)).
  assert (H0 : In (f 0%nat) (map f (seq 0 180))) by (apply in_map, in_seq; lia).
  assert (H45 : In (f 45%nat) (map f (seq 0 180))) by (apply in_map, in_seq; lia).
  eapply Rle_trans; [|apply (spread_ge _ _ _ H0 H45)].
  unfold f. rewrite !channel_sum_two.
  assert (E0 : sin (2 * sample_point 0) = 0).
  { unfold sample_point. change (INR 0) with 0.
    replace (2 * (0 * PI / 179)) with 0 by field. apply sin_0. }
  assert (E45 : sin (2 * sample_point 45) = cos (PI / 358)).
  { rewrite (cos_sin (PI / 358)). f_equal. unfold sample_point.
    replace (INR 45) with 45 by (rewrite INR_IZR_INZ; reflexivity). field. }
  rewrite E0, E45.
  destruct PI_tight as (Hlo & Hhi).
  pose proof (cos_lower (PI / 358)) as Hc.
  pose proof (COS_bound (PI / 358)) as (_ & Hc1).
  assert (Hx : (PI / 358) ^ 2 <= 1 / 10000) by nra.
  assert (99 / 100 <= cos (PI / 358) ^ 2) by nra.
  lra.
Qed.

Lemma ch_sum_range_three_sharp : 18748 / 100000 <= ch_sum_range 3.
Proof.
  unfold ch_sum_range. rewrite np_sum_axis0_basis by lia.
  change (Z.to_nat 3) with 3%nat.
  set (f := fun j => bigsum 3 (fun i => cos (sample_point j - INR i * (PI / IZR 3)) ^ 6)).
  assert (H0 : In (f 0%nat) (map f (seq 0 180))) by (apply in_map, in_seq; lia).
  assert (H30 : In (f 30%nat) (map f (seq 0 180))) by (apply in_map, in_seq; lia).
  eapply Rle_trans; [|apply (spread_ge _ _ _ H0 H30)].
  unfold f. rewrite !channel_sum_three.
  assert (E0 : cos (6 * sample_point 0) = 1).
  { unfold sample_point. change (INR 0) with 0.
    replace (6 * (0 * PI / 179)) with 0 by field. apply cos_0. }
  assert (E30 : cos (6 * sample_point 30) = - cos (PI / 179)).
  { unfold sample_point.
    replace (INR 30) with 30 by (rewrite INR_IZR_INZ; reflexivity).
    replace (6 * (30 * PI / 179)) with (PI / 179 + PI) by field.
    apply neg_cos. }
  rewrite E0, E30.
  destruct PI_tight as (Hlo & Hhi).
  pose proof (cos_lower (PI / 179)) as Hc.
  assert (Hx : (PI / 179) ^ 2 <= 4 / 10000) by nra.
  lra.
Qed.

Lemma fit_define_channels_error self n a b X y e :
  configured self n a b -> (2 <= n)%Z ->
  (2 <= length (np_shape X))%nat -> (np_size X 1 < np_size X 0)%nat ->
  np_size X 0 = length y ->
  _define_channels self = (Raise e, self) ->
  fit X y self = (Raise e, self).
Proof.
  intros (Hnc & _) Hn H1 H2 H3 Hd.
  rewrite (fit_unfold self X y n Hnc).
  apply Z.ltb_ge in Hn. apply Nat.ltb_ge in H1. apply Nat.leb_gt in H2.
  apply Nat.eqb_eq in H3. rewrite Hn, H1, H2, H3, Hd. reflexivity.
Qed.

(** X13: with four or more channels the coverage check passes for every
    range at least one degree wide, so [fit] never raises "Insufficient
    channel coverage." there. *)
Theorem coverage_from_four_channels (self : estimator) (n : Z) (a b : R)
    (X : ndarray) (y : vec) :
  configured self n a b -> (4 <= n)%Z -> 1 <= b - a ->
  _define_channels self = (Ok (basis n, domain a b), self) /\
  fst (fit X y self) <> Raise (ValueError "Insufficient channel coverage.").
Proof.
  intros Hc Hn Hab.
  assert (Hd : _define_channels self = (Ok (basis n, domain a b), self))
    by (apply define_channels_flat_ok; [exact Hc|exact Hn|lra]).
  split; [exact Hd|].
  destruct Hc as (Hnc & _). exact (fit_coverage_error_only self X y n _ _ Hnc Hd).
Qed.

Lemma coverage_from_four_channels_example :
  _define_channels (__init__ (PInt 4) (PFloat (-90)) (PInt 90))
  = (Ok (basis 4, domain (-90) 90), __init__ (PInt 4) (PFloat (-90)) (PInt 90)) /\
  fst (fit (Arr2 [[1]; [2]]) [0; 45] (__init__ (PInt 4) (PFloat (-90)) (PInt 90)))
  <> Raise (ValueError "Insufficient channel coverage.").
Proof.
  apply (coverage_from_four_channels (__init__ (PInt 4) (PFloat (-90)) (PInt 90))
           4 (-90) 90).
  - apply configured_init; reflexivity.
  - lia.
  - lra.
Defined.

(** X14: a reversed range, [range_stop < range_start], fails the coverage
    check for every number of channels: the threshold is negative.  [fit]
    on well-shaped data raises "Insufficient channel coverage." and leaves
    the instance dictionary unchanged. *)
Theorem coverage_reversed_range (self : estimator) (n : Z) (a b : R)
    (X : ndarray) (y : vec) :
  configured self n a b -> (2 <= n)%Z -> b < a ->
  _define_channels self
  = (Raise (ValueError "Insufficient channel coverage."), self) /\
  ((2 <= length (np_shape X))%nat -> (np_size X 1 < np_size X 0)%nat ->
   np_size X 0 = length y ->
   fit X y self = (Raise (ValueError "Insufficient channel coverage."), self)).
Proof.
  intros Hc Hn Hab.
  assert (Hd : _define_channels self
               = (Raise (ValueError "Insufficient channel coverage."), self)).
  { rewrite (define_channels_unfold self n a b Hc Hn).
    destruct (Rgt_dec _ _) as [_|Hngt]; [reflexivity|exfalso].
    apply Hngt. rewrite threshold_eq.
    pose proof (ch_sum_range_nonneg n Hn). pose proof PI_RGT_0.
    assert (0 < (a - b) * PI) by (apply Rmult_lt_0_compat; lra). lra. }
  split; [exact Hd|]. intros H1 H2 H3.
  exact (fit_define_channels_error self n a b X y _ Hc Hn H1 H2 H3 Hd).
Qed.

Lemma coverage_reversed_range_example :
  _define_channels (__init__ (PInt 5) (PInt 180) (PInt 0))
  = (Raise (ValueError "Insufficient channel coverage."),
     __init__ (PInt 5) (PInt 180) (PInt 0)) /\
  fit (Arr2 [[1]; [2]]) [0; 90] (__init__ (PInt 5) (PInt 180) (PInt 0))
  = (Raise (ValueError "Insufficient channel coverage."),
     __init__ (PInt 5) (PInt 180) (PInt 0)).
Proof.
  destruct (coverage_reversed_range (__init__ (PInt 5) (PInt 180) (PInt 0)) 5 180 0
              (Arr2 [[1]; [2]]) [0; 90]) as (H1 & H2).
  - apply configured_init; reflexivity.
  - lia.
  - lra.
  - split; [exact H1|]. apply H2; [simpl; lia|unfold np_size; simpl; lia|reflexivity].
Defined.

(** X15: two channels pass the first check of [fit] and are then refused
    by the coverage check for every range of at most 360 degrees. *)
Theorem coverage_two_channels (self : estimator) (a b : R) (X : ndarray) (y : vec) :
  configured self 2 a b -> b - a <= 360 ->
  _define_channels self
  = (Raise (ValueError "Insufficient channel coverage."), self) /\
  ((2 <= length (np_shape X))%nat -> (np_size X 1 < np_size X 0)%nat ->
   np_size X 0 = length y ->
   fit X y self = (Raise (ValueError "Insufficient channel coverage."), self)).
Proof.
  intros Hc Hab.
  assert (Hd : _define_channels self
               = (Raise (ValueError "Insufficient channel coverage."), self)).
  { rewrite (define_channels_unfold self 2 a b Hc) by lia.
    destruct (Rgt_dec _ _) as [_|Hngt]; [reflexivity|exfalso].
    apply Hngt. rewrite threshold_eq.
    pose proof ch_sum_range_two_sharp. destruct PI_tight as (Hlo & Hhi).
    assert ((b - a) * PI <= 360 * PI)
      by (apply Rmult_le_compat_r; lra).
    lra. }
  split; [exact Hd|]. intros H1 H2 H3.
  exact (fit_define_channels_error self 2 a b X y _ Hc ltac:(lia) H1 H2 H3 Hd).
Qed.

Lemma coverage_two_channels_example :
  _define_channels (__init__ (PInt 2) (PInt 0) (PInt 360))
  = (Raise (ValueError "Insufficient channel coverage."),
     __init__ (PInt 2) (PInt 0) (PInt 360)) /\
  fit (Arr2 [[1]; [2]]) [0; 90] (__init__ (PInt 2) (PInt 0) (PInt 360))
  = (Raise (ValueError "Insufficient channel coverage."),
     __init__ (PInt 2) (PInt 0) (PInt 360)).
Proof.
  destruct (coverage_two_channels (__init__ (PInt 2) (PInt 0) (PInt 360)) 0 360
              (Arr2 [[1]; [2]]) [0; 90]) as (H1 & H2).
  - apply configured_init; reflexivity.
  - lra.
  - split; [exact H1|]. apply H2; [simpl; lia|unfold np_size; simpl; lia|reflexivity].
Defined.

(** X16: with three channels the coverage check depends on the width of
    the range: it passes for ranges of at least 108 degrees and fails for
    ranges of at most 107 degrees. *)
Theorem coverage_three_channels (self : estimator) (a b : R) :
  configured self 3 a b ->
  (108 <= b - a -> _define_channels self = (Ok (basis 3, domain a b), self)) /\
  (b - a <= 107 ->
   _define_channels self
   = (Raise (ValueError "Insufficient channel coverage."), self)).
Proof.
  intros Hc. rewrite (define_channels_unfold self 3 a b Hc) by lia.
  rewrite threshold_eq. destruct PI_tight as (Hlo & Hhi).
  split; intros Hab.
  - destruct (Rgt_dec _ _) as [Hgt|_]; [exfalso|reflexivity].
    pose proof ch_sum_range_three.
    assert (108 * PI <= (b - a) * PI) by (apply Rmult_le_compat_r; lra). lra.
  - destruct (Rgt_dec _ _) as [_|Hngt]; [reflexivity|exfalso].
    apply Hngt. pose proof ch_sum_range_three_sharp.
    assert ((b - a) * PI <= 107 * PI) by (apply Rmult_le_compat_r; lra). lra.
Qed.

Lemma coverage_three_channels_example :
  _define_channels (__init__ (PInt 3) (PInt 0) (PInt 180))
  = (Ok (basis 3, domain 0 180), __init__ (PInt 3) (PInt 0) (PInt 180)) /\
  _define_channels (__init__ (PInt 3) (PInt 0) (PInt 90))
  = (Raise (ValueError "Insufficient channel coverage."),
     __init__ (PInt 3) (PInt 0) (PInt 90)).
Proof.
  destruct (coverage_three_channels (__init__ (PInt 3) (PInt 0) (PInt 180)) 0 180)
    as (H1 & _); [apply configured_init; reflexivity|].
  destruct (coverage_three_channels (__init__ (PInt 3) (PInt 0) (PInt 90)) 0 90)
    as (_ & H2); [apply configured_init; reflexivity|].
  split; [apply H1; lra|apply H2; lra].
Defined.
(** ** Labels and the grid of the domain *)

Lemma first_argmin_unique_min (l : vec) k v :
  l !! k = Some v -> (forall j w, j <> k -> l !! j = Some w -> v < w) ->
  first_argmin l k.
Proof.
  intros Hk Hlt. exists v. split; [exact Hk|]. split.
  - intros j w Hj. destruct (Nat.eq_dec j k) as [->|Hne].
    + rewrite Hk in Hj. inversion Hj. lra.
    + left. exact (Hlt j w Hne Hj).
  - intros j w Hjk Hj. apply (Hlt j w); [lia|exact Hj].
Qed.

Lemma sq_distance_argmin a b y k :
  (k < 180)%nat ->
  (forall j, (j < 180)%nat -> j <> k ->
     (y - (a + INR k * (b - a) / 179)) ^ 2 < (y - (a + INR j * (b - a) / 179)) ^ 2) ->
  np_argmin (map (fun d => (y - d) ^ 2) (domain a b)) = Some k.
Proof.
  intros Hk Hlt.
  destruct (np_argmin_defined (map (fun d => (y - d) ^ 2) (domain a b))) as (k' & Hk').
  { discriminate. }
  rewrite Hk'. f_equal. apply np_argmin_first in Hk'.
  apply (first_argmin_unique _ _ _ Hk').
  apply (first_argmin_unique_min _ _ _ (sq_distance_lookup a b y k Hk)).
  intros j w Hjk Hj.
  assert (Hj180 : (j < 180)%nat).
  { apply lookup_lt_Some in Hj. rewrite length_map, domain_length in Hj. exact Hj. }
  rewrite sq_distance_lookup in Hj by exact Hj180. apply (inj Some) in Hj. subst w.
  apply Hlt; assumption.
Qed.

Lemma INR_lt_179 j : (j < 180)%nat -> 0 <= INR j <= 179.
Proof.
  intros Hj. split; [apply pos_INR|].
  rewrite <- INR_179. apply le_INR. lia.
Qed.

Lemma INR_apart j k : j <> k -> 1 <= Rabs (INR j - INR k).
Proof.
  intros Hne. destruct (lt_eq_lt_dec j k) as [[H|H]|H]; [|contradiction|].
  - assert (INR j + 1 <= INR k).
    { rewrite <- S_INR. apply le_INR. lia. }
    rewrite Rabs_left by lra. lra.
  - assert (INR k + 1 <= INR j).
    { rewrite <- S_INR. apply le_INR. lia. }
    rewrite Rabs_right by lra. lra.
Qed.

Lemma sq_lt_abs x y : Rabs x < Rabs y -> x ^ 2 < y ^ 2.
Proof.
  intros H. pose proof (Rabs_pos x).
  assert (Hx : x ^ 2 = Rabs x ^ 2) by (unfold Rabs; destruct (Rcase_abs x); ring).
  assert (Hy : y ^ 2 = Rabs y ^ 2) by (unfold Rabs; destruct (Rcase_abs y); ring).
  rewrite Hx, Hy. nra.
Qed.

(** A label within half a step of a sample is assigned that sample; labels
    beyond the ends are assigned the end samples. *)
Lemma nearest_sample_index a b y k :
  a < b -> (k < 180)%nat ->
  (Rabs (y - (a + INR k * (b - a) / 179)) < (b - a) / 358 \/
   (k = 0%nat /\ y <= a) \/ (k = 179%nat /\ b <= y)) ->
  np_argmin (map (fun d => (y - d) ^ 2) (domain a b)) = Some k.
Proof.
  intros Hab Hk Hcase. apply sq_distance_argmin; [exact Hk|].
  intros j Hj Hjk.
  set (h := (b - a) / 179). assert (Hh : 0 < h) by (unfold h; lra).
  replace (a + INR k * (b - a) / 179) with (a + INR k * h) by (unfold h; field).
  replace (a + INR j * (b - a) / 179) with (a + INR j * h) by (unfold h; field).
  pose proof (INR_apart j k Hjk) as Hap.
  pose proof (INR_lt_179 j Hj) as Hj'.
  destruct Hcase as [Hnear|[(-> & Hy)|(-> & Hy)]].
  - replace (a + INR k * (b - a) / 179) with (a + INR k * h) in Hnear
      by (unfold h; field).
    replace ((b - a) / 358) with (h / 2) in Hnear by (unfold h; field).
    apply sq_lt_abs. eapply Rlt_le_trans; [exact Hnear|].
    assert (Hd : Rabs ((INR j - INR k) * h) = Rabs (INR j - INR k) * h)
      by (rewrite Rabs_mult, (Rabs_pos_eq h) by lra; reflexivity).
    assert (Hge : h <= Rabs ((INR j - INR k) * h)) by (rewrite Hd; nra).
    replace (y - (a + INR j * h))
      with ((y - (a + INR k * h)) - (INR j - INR k) * h) by ring.
    pose proof (Rabs_triang_inv ((INR j - INR k) * h) (y - (a + INR k * h))) as Ht.
    rewrite (Rabs_minus_sym (y - (a + INR k * h)) ((INR j - INR k) * h)).
    lra.
  - change (INR 0) with 0 in *. apply sq_lt_abs.
    rewrite Rminus_0_r in Hap. rewrite (Rabs_pos_eq (INR j)) in Hap by lra.
    assert (0 < INR j * h) by (apply Rmult_lt_0_compat; lra).
    rewrite !Rabs_left1 by lra. lra.
  - rewrite INR_179 in *. apply sq_lt_abs.
    assert (Hj179 : INR j <= 178).
    { rewrite Rabs_left1 in Hap by lra. lra. }
    assert (Hb : b = a + 179 * h) by (unfold h; field).
    assert (INR j * h <= 178 * h) by (apply Rmult_le_compat_r; lra).
    rewrite !Rabs_pos_eq by lra. lra.
Qed.

Lemma channel_activations_index (C_ : matrix) (C_D_ y : vec) F i y_i k :
  channel_activations C_ C_D_ y = Some F -> y !! i = Some y_i ->
  np_argmin (map (fun d => (y_i - d) ^ 2) C_D_) = Some k ->
  F !! i = Some (column k C_).
Proof.
  intros HF Hi Hk.
  assert (Hne : C_D_ <> []) by (intros ->; discriminate Hk).
  destruct (channel_activations_row _ _ _ _ _ _ HF Hne Hi) as (k' & Hk' & HFi).
  rewrite (first_argmin_unique _ _ _ (np_argmin_first _ _ Hk) Hk'). exact HFi.
Qed.

(** X17: labels outside the range are accepted and clamped: a label at or
    below [range_start] is given the basis column of the first sample, a
    label at or above [range_stop] that of the last sample.  The range is
    at least one degree wide and lies, like the labels above it, within a
    million degrees of zero, so that the squared distances of line 134 are
    told apart in double precision as they are here. *)
Theorem fit_clamps_labels (self : estimator) (n : Z) (a b : R)
    (C_ : matrix) (C_D_ y : vec) :
  configured self n a b -> (2 <= n)%Z ->
  1 <= b - a -> - 10 ^ 6 <= a -> b <= 10 ^ 6 ->
  _define_channels self = (Ok (C_, C_D_), self) ->
  exists F,
    channel_activations C_ C_D_ y = Some F /\
    forall i y_i, y !! i = Some y_i ->
      (y_i <= a -> F !! i = Some (column 0 C_)) /\
      (b <= y_i <= 10 ^ 6 -> F !! i = Some (column 179 C_)).
Proof.
  intros Hc Hn Hw _ _ Hd.
  assert (Hab : a < b) by lra.
  rewrite (define_channels_unfold self n a b Hc Hn) in Hd.
  destruct (Rgt_dec _ _); [discriminate|]. inversion Hd; subst C_ C_D_. clear Hd.
  destruct (channel_activations_spec (basis n) (domain a b) y) as (F & HF & _);
    [discriminate|].
  exists F. split; [exact HF|]. intros i y_i Hi. split; intros Hy.
  - apply (channel_activations_index _ _ _ _ _ _ _ HF Hi).
    apply nearest_sample_index; [exact Hab|lia|]. right. left. split; [reflexivity|exact Hy].
  - apply (channel_activations_index _ _ _ _ _ _ _ HF Hi).
    apply nearest_sample_index; [exact Hab|lia|]. right. right.
    split; [reflexivity|exact (proj1 Hy)].
Qed.

Lemma fit_clamps_labels_example :
  exists F,
    channel_activations (basis 5) (domain 0 180) [-30; 200] = Some F /\
    forall i y_i, [-30; 200] !! i = Some y_i ->
      (y_i <= 0 -> F !! i = Some (column 0 (basis 5))) /\
      (180 <= y_i <= 10 ^ 6 -> F !! i = Some (column 179 (basis 5))).
Proof.
  apply (fit_clamps_labels default_estimator 5 0 180 (basis 5) (domain 0 180)).
  - exact configured_default.
  - lia.
  - lra.
  - lra.
  - lra.
  - apply define_channels_default_ok; [exact configured_default|lia].
Defined.

Lemma mapM_ext_Forall2 {A B : Type} (f : A -> option B) (l l' : list A) :
  Forall2 (fun x x' => f x = f x') l l' -> mapM f l = mapM f l'.
Proof.
  induction 1 as [|x x' l l' Hx _ IH]; [reflexivity|].
  simpl. rewrite Hx, IH. reflexivity.
Qed.

Lemma nearest_domain_value_inv (C_D_ : vec) y_i d :
  nearest_domain_value C_D_ y_i = Some d ->
  exists k, np_argmin (map (fun d => (y_i - d) ^ 2) C_D_) = Some k /\
            C_D_ !! k = Some d.
Proof.
  unfold nearest_domain_value.
  destruct (np_argmin (map (fun d => (y_i - d) ^ 2) C_D_)) as [k|]; [|discriminate].
  intros H. exists k. split; [reflexivity|exact H].
Qed.

Lemma nearest_domain_value_index a b y_i d :
  a < b -> nearest_domain_value (domain a b) y_i = Some d ->
  exists k, (k < 180)%nat /\
    np_argmin (map (fun d => (y_i - d) ^ 2) (domain a b)) = Some k /\
    d = a + INR k * (b - a) / 179 /\
    np_argmin (map (fun d' => (d - d') ^ 2) (domain a b)) = Some k.
Proof.
  intros Hab H. apply nearest_domain_value_inv in H. destruct H as (k & Hk & H).
  assert (Hk180 : (k < 180)%nat).
  { apply lookup_lt_Some in H. rewrite domain_length in H. exact H. }
  rewrite domain_lookup in H by exact Hk180. apply (inj Some) in H.
  exists k. split; [exact Hk180|]. split; [exact Hk|]. split; [symmetry; exact H|].
  rewrite <- H. apply nearest_sample_index; [exact Hab|exact Hk180|]. left.
  rewrite Rminus_diag, Rabs_R0. lra.
Qed.

(** X18: [fit] sees the labels at the resolution of the domain only:
    replacing every label by the sample of the domain nearest to it gives
    the same result, outcome and instance dictionary alike.  Range and
    labels are of the magnitudes of X17. *)
Theorem fit_rounds_labels_to_grid (self : estimator) (n : Z) (a b : R)
    (X : ndarray) (y y' : vec) :
  configured self n a b ->
  1 <= b - a -> - 10 ^ 6 <= a -> b <= 10 ^ 6 ->
  Forall (fun y_i => - 10 ^ 6 <= y_i <= 10 ^ 6) y ->
  mapM (nearest_domain_value (domain a b)) y = Some y' ->
  fit X y' self = fit X y self.
Proof.
  intros Hc Hw _ _ _ Hy.
  assert (Hab : a < b) by lra.
  apply mapM_Some in Hy.
  assert (Hlen : length y' = length y) by (symmetry; exact (Forall2_length _ _ _ Hy)).
  assert (HF : forall C_, channel_activations C_ (domain a b) y'
                          = channel_activations C_ (domain a b) y).
  { intros C_. unfold channel_activations. apply mapM_ext_Forall2.
    apply Forall2_flip. eapply Forall2_impl; [exact Hy|].
    intros y_i d Hd. cbv beta.
    destruct (nearest_domain_value_index a b y_i d Hab Hd) as (k & _ & Hk & _ & Hk').
    rewrite Hk, Hk'. reflexivity. }
  destruct Hc as (Hnc & Hrest).
  rewrite !(fit_unfold self X _ n Hnc), Hlen.
  destruct (n <? 2)%Z eqn:En; [reflexivity|]. apply Z.ltb_ge in En.
  destruct (length (np_shape X) <? 2)%nat; [reflexivity|].
  destruct (np_size X 0 <=? np_size X 1)%nat; [reflexivity|].
  destruct (negb _); [reflexivity|].
  rewrite (define_channels_unfold self n a b (conj Hnc Hrest) En).
  destruct (Rgt_dec _ _); [reflexivity|]. cbv zeta. rewrite HF. reflexivity.
Qed.

Lemma nearest_domain_values_defined a b (y : vec) :
  exists y', mapM (nearest_domain_value (domain a b)) y = Some y'.
Proof.
  assert (H : is_Some (mapM (nearest_domain_value (domain a b)) y)).
  { apply mapM_is_Some. apply Forall_forall. intros y_i _.
    destruct (np_argmin_defined (map (fun d => (y_i - d) ^ 2) (domain a b))) as (k & Hk).
    { intros E. apply (f_equal length) in E.
      rewrite length_map, domain_length in E. discriminate E. }
    pose proof (first_argmin_lt _ _ (np_argmin_first _ _ Hk)) as Hlt.
    rewrite length_map, domain_length in Hlt.
    exists (a + INR k * (b - a) / 179). unfold nearest_domain_value.
    apply bind_Some. exists k. split; [exact Hk|apply domain_lookup; exact Hlt]. }
  destruct H as (y' & H). exists y'. exact H.
Qed.

Lemma fit_rounds_labels_to_grid_example :
  exists y',
    mapM (nearest_domain_value (domain 0 180)) [0.2; 90] = Some y' /\
    fit (Arr2 [[1]; [2]]) y' default_estimator
    = fit (Arr2 [[1]; [2]]) [0.2; 90] default_estimator.
Proof.
  destruct (nearest_domain_values_defined 0 180 [0.2; 90]) as (y' & E).
  exists y'. split; [exact E|].
  apply (fit_rounds_labels_to_grid default_estimator 5 0 180 (Arr2 [[1]; [2]])
           [0.2; 90] y' configured_default).
  - lra.
  - lra.
  - lra.
  - repeat constructor; lra.
  - exact E.
Defined.
